(** * pytimetk: anomaly detection pipeline and expanding-window augmentation

    A shallow embedding of
      - [pytimetk/core/anomalize.py]: [_iqr], [_twitter_decompose],
        [_seasonal_decompose], [_anomalize], and the column layout of the
        frame returned by [anomalize];
      - [pytimetk/feature_engineering/expanding.py]:
        [_augment_expanding_pandas].

    Conventions of the embedding.
      - A finite float is an exact rational ([Q]); equality of computed
        numbers is [Qeq] ([==]).  Rounding error is outside the model.
      - A Python exception is a value of [exn]; a function that may raise
        returns [result].
      - A pandas Series of floats is a [list Q]; a column that may hold
        NaN is a [list (option Q)] with [None] for NaN.
      - Column labels are [string]s and a frame's schema is the ordered
        [list string] of its labels. *)

From Stdlib Require Import String Ascii.
From Stdlib Require Import QArith Qabs Qround ZArith List Bool Lia Lqa.
From Stdlib Require Import Sorting.Permutation Sorting.Sorted.
Import ListNotations.

Local Open Scope Q_scope.

(** ** Exceptions

    The Python exception classes the modelled code can raise, and
    [ConfigurationError], the class that the design document names for an
    incompatible configuration. *)

Inductive exn : Type :=
| ValueError
| ZeroDivisionError
| KeyError
| TypeError
| AttributeError
| PyException
| ConfigurationError.

Inductive result (A : Type) : Type :=
| Ok (a : A)
| Raise (e : exn).

Arguments Ok {A} a.
Arguments Raise {A} e.

Definition bind {A B : Type} (m : result A) (k : A -> result B) : result B :=
  match m with
  | Ok a => k a
  | Raise e => Raise e
  end.

Notation "x <- m ;; k" := (bind m (fun x => k))
  (at level 61, m at next level, right associativity).

(** ** Lists

    [sorted], [np.sort] and the pandas sorts are modelled by one stable
    insertion sort (numpy's default sort may order equal keys otherwise;
    no property below depends on the order of equal keys); [map2] is
    element-wise arithmetic of two Series that share one index. *)

Section Sorting.

Context {A : Type}.
Variable leb : A -> A -> bool.

Fixpoint insert (x : A) (l : list A) : list A :=
  match l with
  | [] => [x]
  | y :: l' => if leb x y then x :: l else y :: insert x l'
  end.

Fixpoint isort (l : list A) : list A :=
  match l with
  | [] => []
  | x :: l' => insert x (isort l')
  end.

End Sorting.

(** The distinct elements of a list, up to [eqb], in the order of their
    first occurrence. *)
Fixpoint distinct {K : Type} (eqb : K -> K -> bool) (ks : list K) : list K :=
  match ks with
  | [] => []
  | k :: ks' => k :: filter (fun k' => negb (eqb k k')) (distinct eqb ks')
  end.

(** The elements of [l] gathered key by key, for the keys [ks]. *)
Definition groups_of {A K : Type} (key : A -> K) (eqb : K -> K -> bool)
  (ks : list K) (l : list A) : list A :=
  flat_map (fun k => filter (fun r => eqb k (key r)) l) ks.

Fixpoint map2 {A B C : Type} (f : A -> B -> C) (x : list A) (y : list B)
  : list C :=
  match x, y with
  | a :: x', b :: y' => f a b :: map2 f x' y'
  | _, _ => []
  end.

(** Two lists of numbers of one length, equal entry by entry. *)
Fixpoint Qeq_list (l l' : list Q) : bool :=
  match l, l' with
  | [], [] => true
  | x :: l, y :: l' => Qeq_bool x y && Qeq_list l l'
  | _, _ => false
  end.

(** ** numpy and pandas primitives used by the sources *)

Module Np.

(** [np.sort] on a float array. *)
Definition sort (a : list Q) : list Q := isort Qle_bool a.

Definition sumQ (a : list Q) : Q := fold_right Qplus 0 a.

(** [np.mean] of a non-empty array. *)
Definition mean (a : list Q) : Q := sumQ a / inject_Z (Z.of_nat (length a)).

(** [np.percentile(a, q)] with the default method ['linear']: the
    virtual index [(n-1)*q/100] is split into its floor and its
    fractional part [gamma], and the two neighbouring order statistics
    are interpolated.  On an empty array numpy yields nan; the model
    yields [0] there and [_iqr] produces no row from it. *)
Definition percentile (a : list Q) (q : Q) : Q :=
  let s := sort a in
  let n := Z.of_nat (length a) in
  let virtual_index := inject_Z (n - 1) * (q / 100) in
  let previous := Qfloor virtual_index in
  let next := Z.min (previous + 1) (n - 1) in
  let gamma := virtual_index - inject_Z previous in
  let lo := nth (Z.to_nat previous) s 0 in
  let hi := nth (Z.to_nat next) s 0 in
  lo + (hi - lo) * gamma.

(** [np.round] of a rational, to an integer: round half to even. *)
Definition round (x : Q) : Z :=
  let f := Qfloor x in
  let frac := x - inject_Z f in
  match Qcompare frac (1 # 2) with
  | Lt => f
  | Gt => (f + 1)%Z
  | Eq => if Z.even f then f else (f + 1)%Z
  end.

(** [np.where(c, x, y)] on one element. *)
Definition where_ {A : Type} (c : bool) (x y : A) : A := if c then x else y.

End Np.

Module Pd.

(** [Series.median()]: the middle order statistic, or the mean of the two
    middle ones for an even count.  (The median of an empty Series is
    NaN; no caller below takes the median of an empty group, and the
    model yields [0] there.) *)
Definition median (a : list Q) : Q :=
  let s := Np.sort a in
  let n := length a in
  if Nat.even n
  then (nth (n / 2 - 1) s 0 + nth (n / 2) s 0) / 2
  else nth (n / 2) s 0.

(** [df.groupby(keys)[col].transform(agg)]: every row receives the
    aggregate of the rows that carry its key. *)
Definition group_values (keys : list nat) (vals : list Q) (k : nat) : list Q :=
  map snd (filter (fun kv => Nat.eqb (fst kv) k) (combine keys vals)).

Definition groupby_transform (agg : list Q -> Q) (keys : list nat)
  (vals : list Q) : list Q :=
  map (fun k => agg (group_values keys vals k)) (firstn (length vals) keys).

End Pd.

Definition Qgtb (x y : Q) : bool := negb (Qle_bool x y).
Definition Qltb (x y : Q) : bool := negb (Qle_bool y x).


(** ** statsmodels.tsa.seasonal.seasonal_decompose

    The decomposition routine that both decomposers call
    (anomalize.py, lines 481 and 540) with [filt=None], [two_sided=True]
    and [extrapolate_trend='freq'].  [period] is a positive count of
    observations.  Division is the total division of [Q]: a run in which
    the multiplicative model divides by a zero trend (inf in numpy) has no
    counterpart here. *)

Module Sm.

Definition dot (f x : list Q) : Q :=
  Np.sumQ (map2 Qmult f x).

(** [scipy.signal.convolve(x, filt, mode='valid')]. *)
Definition convolve_valid (x filt : list Q) : list Q :=
  let l := length filt in
  map (fun j => dot (rev filt) (firstn l (skipn j x)))
      (seq 0 (length x + 1 - l)).

(** [convolution_filter(x, filt, nsides=2)]: the valid part of the
    convolution, padded with NaN at both ends. *)
Definition convolution_filter (x filt : list Q) : list (option Q) :=
  let l := length filt in
  let trim_head := ((l + 1) / 2 - 1)%nat in
  let trim_tail := ((l + 1) / 2 - l mod 2)%nat in
  repeat None trim_head ++ map Some (convolve_valid x filt)
    ++ repeat None trim_tail.

Definition is_some {A : Type} (o : option A) : bool :=
  match o with Some _ => true | None => false end.

Fixpoint first_valid (t : list (option Q)) : nat :=
  match t with
  | [] => O
  | Some _ :: _ => O
  | None :: t' => S (first_valid t')
  end.

Definition value (o : option Q) : Q :=
  match o with Some v => v | None => 0 end.

Definition natQ (n : nat) : Q := inject_Z (Z.of_nat n).

(** [np.linalg.lstsq] of the points [(a + j, ys[j])] against a line
    [k * x + n]: the least-squares line for two or more points, the
    minimum-norm solution for a single point. *)
Definition lstsq_line (a : nat) (ys : list Q) : Q * Q :=
  let m := length ys in
  let xs := map natQ (seq a m) in
  match m with
  | O => (0, 0)
  | S O =>
    let y := nth 0 ys 0 in
    let d := natQ a * natQ a + 1 in
    (natQ a * y / d, y / d)
  | _ =>
    let sx := Np.sumQ xs in
    let sy := Np.sumQ ys in
    let sxx := dot xs xs in
    let sxy := dot xs ys in
    let k := (natQ m * sxy - sx * sy) / (natQ m * sxx - sx * sx) in
    (k, (sy - k * sx) / natQ m)
  end.

Definition slice (t : list (option Q)) (lo hi : nat) : list Q :=
  map value (firstn (hi - lo) (skipn lo t)).

(** [_extrapolate_trend(trend, npoints)]: the NaN end-points are
    replaced by the values of a line fitted to the nearest defined
    points. *)
Definition _extrapolate_trend (trend : list (option Q)) (npoints : nat)
  : list (option Q) :=
  let len := length trend in
  let front := first_valid trend in
  let back := (len - 1 - first_valid (rev trend))%nat in
  let front_last := Nat.min (front + npoints) back in
  let back_first := Nat.max front (back - npoints) in
  let '(k1, n1) := lstsq_line front (slice trend front front_last) in
  let '(k2, n2) := lstsq_line back_first (slice trend back_first back) in
  map (fun i => Some (k1 * natQ i + n1)) (seq 0 front)
    ++ firstn (back + 1 - front) (skipn front trend)
    ++ map (fun i => Some (k2 * natQ i + n2)) (seq (back + 1) (len - (back + 1))).

(** [x[i::period]]. *)
Definition every_nth (x : list Q) (i period : nat) : list Q :=
  map snd (filter (fun p => Nat.eqb (fst p mod period) i)
                  (combine (seq 0 (length x)) x)).

Definition seasonal_mean (x : list Q) (period : nat) : list Q :=
  map (fun i => Np.mean (every_nth x i period)) (seq 0 period).

Record DecomposeResult : Type := mkDecompose {
  seasonal : list Q;
  trend : list Q
}.

(** [model.startswith("m")]. *)
Definition multiplicative (model : string) : bool :=
  match model with
  | String c _ => Ascii.eqb c "m"%char
  | EmptyString => false
  end.

Definition seasonal_decompose (x : list Q) (model : string) (period : positive)
  : result DecomposeResult :=
  let p := Pos.to_nat period in
  let nobs := length x in
  if multiplicative model && existsb (fun v => Qle_bool v 0) x
  then Raise ValueError
  else if (nobs <? 2 * p)%nat then Raise ValueError
  else
    let filt :=
      if Nat.even p
      then map (fun w => w / natQ p) ([1 # 2] ++ repeat 1 (p - 1) ++ [1 # 2])
      else repeat (1 / natQ p) p in
    let trend0 := convolution_filter x filt in
    let extrapolate_trend := (p - 1)%nat in
    let trend1 :=
      if (0 <? extrapolate_trend)%nat
      then _extrapolate_trend trend0 (extrapolate_trend + 1)
      else trend0 in
    let trend := map value trend1 in
    let detrended :=
      if multiplicative model then map2 Qdiv x trend
      else map2 Qminus x trend in
    let period_averages0 := seasonal_mean detrended p in
    let period_averages :=
      if multiplicative model
      then map (fun v => v / Np.mean period_averages0) period_averages0
      else map (fun v => v - Np.mean period_averages0) period_averages0 in
    let seasonal :=
      firstn nobs (concat (repeat period_averages (nobs / p + 1))) in
    Ok (mkDecompose seasonal trend).

End Sm.

(** ** Column labels of a frame *)

Module Labels.

Definition mem (name : string) (cols : list string) : bool :=
  existsb (String.eqb name) cols.

(** [df[name] = ...]: an existing column keeps its place, a new one is
    appended. *)
Definition assign (name : string) (cols : list string) : list string :=
  if mem name cols then cols else cols ++ [name].

(** [df.drop(name, axis=1)]. *)
Definition drop (name : string) (cols : list string) : result (list string) :=
  if mem name cols
  then Ok (filter (fun c => negb (String.eqb c name)) cols)
  else Raise KeyError.

(** [pd.concat([a, b], axis=1)]. *)
Definition concat_axis1 (a b : list string) : list string := a ++ b.

(** [df.reset_index()] / [df.reset_index(level=names)]: the index levels
    become the leading columns; a label that is already a column is
    refused. *)
Definition reset_index (names cols : list string) : result (list string) :=
  if existsb (fun n => mem n cols) names then Raise ValueError
  else Ok (names ++ cols).

End Labels.

(** ** pytimetk/core/anomalize.py *)

Module Anomalize.

(** The frame returned by [_iqr] (line 614), column by column. *)
Record OutlierFrame : Type := mkOutlier {
  outlier_reported : list string;
  direction : list Z;
  score : list Q;
  remainder_l1 : list Q;
  remainder_l2 : list Q
}.

(** [_iqr(data, target, alpha, max_anoms)], lines 568-614; [data] is the
    [target] column.  [0.15 / alpha] divides Python floats, which raises
    for a zero [alpha]. *)
Definition _iqr (data : list Q) (alpha max_anoms : Q) : result OutlierFrame :=
  let q1 := Np.percentile data 25 in
  let q3 := Np.percentile data 75 in
  let iq_range := q3 - q1 in
  if Qeq_bool alpha 0 then Raise ZeroDivisionError
  else
    let limits0 := - (1) * (q1 + ((15 # 100) / alpha) * iq_range) in
    let limits1 := q3 + ((15 # 100) / alpha) * iq_range in
    let centerline := (0 + limits0 + limits1) / 2 in
    Ok {| score := map (fun x => Qabs (x - centerline)) data;
          outlier_reported :=
            map (fun x => Np.where_ (Qgtb x limits1) "Yes"%string
                            (Np.where_ (Qltb x limits0) "Yes"%string "No"%string))
                data;
          direction :=
            map (fun x => Np.where_ (Qgtb x limits1) 1%Z
                            (Np.where_ (Qltb x limits0) (-1)%Z 0%Z))
                data;
          remainder_l1 := map (fun _ => limits0) data;
          remainder_l2 := map (fun _ => limits1) data |}.

(** The frame built by the two decomposers (lines 511-518, 558-564). *)
Record DecompFrame : Type := mkDecomp {
  d_date : list Z;
  d_observed : list Q;
  d_seasonal : list Q;
  d_seasadj : list Q;
  d_trend : list Q;
  d_remainder : list Q
}.

(** [range(n)] for a Python int. *)
Definition range (n : Z) : list nat := seq 0 (Z.to_nat n).

(** The local helper of [_twitter_decompose], lines 498-500. *)
Definition repeat_sequence (sq : list nat) (length_out : nat)
  : result (list nat) :=
  match length sq with
  | O => Raise ZeroDivisionError
  | len =>
    let quotient := (length_out / len)%nat in
    let remainder := (length_out mod len)%nat in
    Ok (concat (repeat sq quotient) ++ firstn remainder sq)
  end.

(** Line 504: the labels of the median groups. *)
Definition median_index (median_span : Z) (n : nat) : result (list nat) :=
  labels <- repeat_sequence (range median_span) n ;;
  Ok (isort Nat.leb labels).

(** [_twitter_decompose], lines 466-520. *)
Definition _twitter_decompose (dates : list Z) (series : list Q)
  (period : positive) (median_span : option Z) (model : string)
  : result DecompFrame :=
  res <- Sm.seasonal_decompose series model period ;;
  let observed := series in
  let seasadj := map2 Qminus series (Sm.seasonal res) in
  let median_span :=
    match median_span with None => 4%Z | Some m => m end in
  labels <- median_index median_span (length seasadj) ;;
  let trend := Pd.groupby_transform Pd.median labels seasadj in
  let resid := map2 Qminus seasadj trend in
  Ok (mkDecomp dates observed (Sm.seasonal res) seasadj trend resid).

(** [_seasonal_decompose], lines 523-566. *)
Definition _seasonal_decompose (dates : list Z) (series : list Q)
  (model : string) (period : positive) : result DecompFrame :=
  res <- Sm.seasonal_decompose series model period ;;
  let observed := series in
  let seasadj := map2 Qminus series (Sm.seasonal res) in
  let trend := Sm.trend res in
  let resid := map2 Qminus seasadj trend in
  Ok (mkDecomp dates observed (Sm.seasonal res) seasadj trend resid).

(** The frame returned by [_anomalize]. *)
Record AnomalyFrame : Type := mkAnomaly {
  date : list Z;
  observed : list Q;
  seasonal : list Q;
  seasadj : list Q;
  trend : list Q;
  remainder : list Q;
  anomaly : list string;
  anomaly_score : list Q;
  anomaly_direction : list Z;
  recomposed_l1 : list Q;
  recomposed_l2 : list Q;
  observed_clean : list (option Q)
}.

(** [Series.where(cond, np.nan)]. *)
Definition mask (cond : list bool) (x : list Q) : list (option Q) :=
  map2 (fun (c : bool) v => if c then Some v else None) cond x.

(** Nearest defined value at or after the head of a Series, with its
    distance. *)
Fixpoint next_valid (x : list (option Q)) : option (nat * Q) :=
  match x with
  | [] => None
  | Some v :: _ => Some (O, v)
  | None :: x' =>
    match next_valid x' with
    | Some (d, v) => Some (S d, v)
    | None => None
    end
  end.

(** [Series.interpolate(method='linear', limit_direction='both')]: a NaN
    run between two defined values is filled along the straight line
    through them (rows equally spaced); a leading run takes the first
    defined value and a trailing run the last one.  [prev] is the last
    defined value seen, with the distance to it. *)
Fixpoint interpolate_from (prev : option (nat * Q)) (x : list (option Q))
  : list (option Q) :=
  match x with
  | [] => []
  | Some v :: x' => Some v :: interpolate_from (Some (1%nat, v)) x'
  | None :: x' =>
    let filled :=
      match prev, next_valid x' with
      | Some (dp, a), Some (dn, b) =>
        Some (a + (b - a) * (Sm.natQ dp / Sm.natQ (dp + dn + 1)))
      | Some (_, a), None => Some a
      | None, Some (_, b) => Some b
      | None, None => None
      end in
    let prev' :=
      match prev with
      | Some (dp, a) => Some (S dp, a)
      | None => None
      end in
    filled :: interpolate_from prev' x'
  end.

Definition interpolate (x : list (option Q)) : list (option Q) :=
  interpolate_from None x.

Section FrequencyHelpers.

(** [get_seasonal_frequency] and [get_trend_frequency]
    (pytimetk/core/frequency.py) infer a count of observations from
    the date axis; the pipeline only converts their result with
    [int]. *)
Variable get_seasonal_frequency : list Z -> positive.
Variable get_trend_frequency : list Z -> Z.

(** STEP 0 and STEP 1 of [_anomalize], lines 375-417: the period and
    the trend default to the inferred frequencies, and the series is
    decomposed by the chosen method. *)
Definition decompose_step (data : list (Z * Q)) (period : option positive)
  (trend : option Z) (method decomp : string) : result DecompFrame :=
  let dates := map fst data in
  let values := map snd data in
  (* STEP 0 *)
  let period :=
    match period with
    | None => get_seasonal_frequency dates
    | Some p => p
    end in
  let trend :=
    match trend with
    | None => get_trend_frequency dates
    | Some t => t
    end in
  (* STEP 1 *)
  if String.eqb method "twitter"
  then
    if (trend =? 0)%Z then Raise ZeroDivisionError
    else
      let median_span :=
        Np.round (inject_Z (Z.of_nat (length data)) / inject_Z trend) in
      _twitter_decompose dates values period (Some median_span) decomp
  else _seasonal_decompose dates values decomp period.

(** [_anomalize], lines 353-463, as a computation on the date and
    value columns of [data]. *)
Definition _anomalize (data : list (Z * Q))
  (period : option positive) (trend : option Z)
  (method decomp clean : string)
  (iqr_alpha clean_alpha max_anomalies : Q) : result AnomalyFrame :=
  let orig_date_column := map fst data in
  result <- decompose_step data period trend method decomp ;;
  (* STEP 2 *)
  outlier_df <- _iqr (d_remainder result) iqr_alpha max_anomalies ;;
  (* STEP 3 *)
  let anomaly := outlier_reported outlier_df in
  let anomaly_score := score outlier_df in
  let anomaly_direction := direction outlier_df in
  let recomposed_l1 :=
    map2 Qplus (map2 Qplus (d_seasonal result) (d_trend result))
            (remainder_l1 outlier_df) in
  let recomposed_l2 :=
    map2 Qplus (map2 Qplus (d_seasonal result) (d_trend result))
            (remainder_l2 outlier_df) in
  (* STEP 4 *)
  let observed_clean :=
    if String.eqb clean "linear"
    then
      interpolate
        (mask (map (fun a => String.eqb a "No") anomaly) (d_observed result))
    else
      map2 (fun (d : Z) (v : Q * Q * Q) =>
                 let '(l1, l2, obs) := v in
                 Some (Np.where_ (d =? -1)%Z (clean_alpha * l1)
                         (Np.where_ (d =? 1)%Z (clean_alpha * l2) obs)))
              anomaly_direction
              (combine (combine recomposed_l1 recomposed_l2)
                       (d_observed result)) in
  Ok {| date := orig_date_column;
        observed := d_observed result;
        seasonal := d_seasonal result;
        seasadj := d_seasadj result;
        trend := d_trend result;
        remainder := d_remainder result;
        anomaly := anomaly;
        anomaly_score := anomaly_score;
        anomaly_direction := anomaly_direction;
        recomposed_l1 := recomposed_l1;
        recomposed_l2 := recomposed_l2;
        observed_clean := observed_clean |}.

End FrequencyHelpers.

(** The labels of the frame built by either decomposer (lines 511-518,
    558-564): the five component columns, then [reset_index] brings the
    date index back as a column. *)
Definition decompose_columns (date_column : string) : result (list string) :=
  Labels.reset_index [date_column]
    ["observed"; "seasonal"; "seasadj"; "trend"; "remainder"]%string.

(** The labels of the frame returned by [_anomalize]: lines 430-436 and
    441-454 assign the result columns, line 457 the date column and
    line 461 binds the input frame, whose labels are [data_columns]. *)
Definition _anomalize_columns (data_columns : list string)
  (date_column : string) (bind_data : bool) : result (list string) :=
  result <- decompose_columns date_column ;;
  let result := Labels.assign "anomaly" result in
  let result := Labels.assign "anomaly_score" result in
  let result := Labels.assign "anomaly_direction" result in
  let result := Labels.assign "recomposed_l1" result in
  let result := Labels.assign "recomposed_l2" result in
  let result := Labels.assign "observed_clean" result in
  let result := Labels.assign date_column result in
  if bind_data
  then
    dropped <- Labels.drop date_column result ;;
    Ok (Labels.concat_axis1 data_columns dropped)
  else Ok result.

(** The labels of the frame returned by [anomalize], lines 279-347.
    Modelled from the spec: [progress_apply] and [parallel_apply]
    (pytimetk/utils/parallel_helpers.py) apply [_anomalize] to every
    group and collect the results with the group keys as index levels;
    [reset_index(level=group_names)] then restores them as leading
    columns.  [group_names] is [None] for a plain DataFrame. *)
Definition anomalize_columns (group_names : option (list string))
  (data_columns : list string) (date_column : string) (bind_data : bool)
  : result (list string) :=
  match group_names with
  | None => _anomalize_columns data_columns date_column bind_data
  | Some names =>
    result <- _anomalize_columns data_columns date_column bind_data ;;
    Labels.reset_index names result
  end.

End Anomalize.

(** ** pytimetk/feature_engineering/expanding.py *)

Module Expanding.

(** A cell of a DataFrame. *)
Inductive cell : Type :=
| Float (q : Q)
| NaN
| Int (z : Z)
| Str (s : string)
| Timestamp (t : Z).

Definition is_nan (c : cell) : bool :=
  match c with NaN => true | _ => false end.

Definition cell_eqb (a b : cell) : bool :=
  match a, b with
  | Float x, Float y => Qeq_bool x y
  | Int x, Int y => Z.eqb x y
  | Str x, Str y => String.eqb x y
  | Timestamp x, Timestamp y => Z.eqb x y
  | _, _ => false
  end.

(** The order used by [sort_values]; NaN sorts last. *)
Definition cell_leb (a b : cell) : bool :=
  match a, b with
  | _, NaN => true
  | NaN, _ => false
  | Float x, Float y => Qle_bool x y
  | Int x, Int y => Z.leb x y
  | Str x, Str y => String.leb x y
  | Timestamp x, Timestamp y => Z.leb x y
  | Float _, _ => true
  | _, Float _ => false
  | Int _, _ => true
  | _, Int _ => false
  | Str _, _ => true
  | _, Str _ => false
  end.

Fixpoint key_eqb (a b : list cell) : bool :=
  match a, b with
  | [], [] => true
  | x :: a', y :: b' => cell_eqb x y && key_eqb a' b'
  | _, _ => false
  end.

(** Lexicographic order of the sort keys. *)
Fixpoint key_leb (a b : list cell) : bool :=
  match a, b with
  | [], _ => true
  | _ :: _, [] => false
  | x :: a', y :: b' =>
    if cell_eqb x y then key_leb a' b' else cell_leb x y
  end.

(** A row: its index label and its cells, in column order. *)
Record Row : Type := mkRow {
  idx : Z;
  cells : list cell
}.

Record DataFrame : Type := mkFrame {
  columns : list string;
  rows : list Row
}.

(** The input of [augment_expanding]: a DataFrame, or a GroupBy object
    with its frame ([data.obj]) and [data.grouper.names]. *)
Inductive Input : Type :=
| Frame (df : DataFrame)
| GroupBy (obj : DataFrame) (group_names : list string).

Fixpoint position (name : string) (cols : list string) : option nat :=
  match cols with
  | [] => None
  | c :: cols' =>
    if String.eqb name c then Some O
    else match position name cols' with
         | Some j => Some (S j)
         | None => None
         end
  end.

Fixpoint positions (names cols : list string) : result (list nat) :=
  match names with
  | [] => Ok []
  | n :: names' =>
    match position n cols with
    | None => Raise KeyError
    | Some j => js <- positions names' cols ;; Ok (j :: js)
    end
  end.

Definition get (j : nat) (r : Row) : cell := nth j (cells r) NaN.

Definition key (js : list nat) (r : Row) : list cell :=
  map (fun j => get j r) js.

(** [df[name]]. *)
Definition column (name : string) (df : DataFrame) : result (list cell) :=
  match position name (columns df) with
  | None => Raise KeyError
  | Some j => Ok (map (get j) (rows df))
  end.

Fixpoint set_nth (j : nat) (v : cell) (l : list cell) : list cell :=
  match l, j with
  | [], _ => []
  | _ :: l', O => v :: l'
  | x :: l', S j' => x :: set_nth j' v l'
  end.

(** [df[name] = vals]: an existing column is overwritten in place, a new
    one is appended. *)
Definition assign (name : string) (vals : list cell) (df : DataFrame)
  : DataFrame :=
  match position name (columns df) with
  | Some j =>
    mkFrame (columns df)
      (map2 (fun r v => mkRow (idx r) (set_nth j v (cells r))) (rows df) vals)
  | None =>
    mkFrame (columns df ++ [name])
      (map2 (fun r v => mkRow (idx r) (cells r ++ [v])) (rows df) vals)
  end.

(** [df.sort_values(by=names)]. *)
Definition sort_values (by_ : list string) (df : DataFrame)
  : result DataFrame :=
  js <- positions by_ (columns df) ;;
  Ok (mkFrame (columns df)
        (isort (fun a b => key_leb (key js a) (key js b)) (rows df))).

(** [df.sort_index()]. *)
Definition sort_index (df : DataFrame) : DataFrame :=
  mkFrame (columns df) (isort (fun a b => Z.leb (idx a) (idx b)) (rows df)).

(** [df.groupby(names)], iterated: one frame per distinct key, in the
    order of the keys; rows with a NaN in their key belong to no
    group. *)
Definition groupby (names : list string) (df : DataFrame)
  : result (list DataFrame) :=
  js <- positions names (columns df) ;;
  let kept := filter (fun r => negb (existsb is_nan (key js r))) (rows df) in
  Ok (map (fun k =>
             mkFrame (columns df)
                     (filter (fun r => key_eqb k (key js r)) kept))
          (distinct key_eqb (map (key js) kept))).

(** [pd.concat(frames)] of frames that carry the same columns. *)
Definition concat (frames : list DataFrame) : result DataFrame :=
  match frames with
  | [] => Raise ValueError
  | f :: _ => Ok (mkFrame (columns f) (flat_map rows frames))
  end.

Definition aggregate : Type := list cell -> result cell.

Fixpoint mapM {A B : Type} (f : A -> result B) (l : list A) : result (list B) :=
  match l with
  | [] => Ok []
  | a :: l' => b <- f a ;; bs <- mapM f l' ;; Ok (b :: bs)
  end.

(** [series.expanding(min_periods=min_periods).f()]: the aggregate of
    every prefix of the Series that holds at least [min_periods] values,
    NaN below that. *)
Definition expanding (min_periods : nat) (f : aggregate) (col : list cell)
  : result (list cell) :=
  mapM (fun i =>
          let window := firstn (S i) col in
          if (length (filter (fun c => negb (is_nan c)) window) <? min_periods)%nat
          then Ok NaN
          else f window)
       (seq 0 (length col)).

Definition kwargs : Type := list (string * cell).

(** Modelled from the spec: [update_dict]
    (pytimetk/utils/polars_helpers.py) updates the default parameters
    with the user's, without adding new keys (comment at line 270). *)
Definition update_dict (default_kwargs user_kwargs : kwargs) : kwargs :=
  map (fun kv =>
         match find (fun u => String.eqb (fst u) (fst kv)) user_kwargs with
         | Some u => (fst kv, snd u)
         | None => kv
         end)
      default_kwargs.

(** The second component of a [(name, func)] tuple. *)
Inductive tuple_func : Type :=
| Callable1 (f : aggregate)
| Configurable (func_name : string) (default_kwargs user_kwargs : kwargs)
| ConfigurableMalformed
| OtherObject.

(** An element of [window_func]. *)
Inductive window_fn : Type :=
| FuncStr (func : string)
| FuncTuple (user_func_name : string) (func : tuple_func)
| FuncTupleBadLength
| FuncTupleBadName
| FuncOther.

Definition on_error {A : Type} (e : exn) (m : result A) : result A :=
  match m with
  | Ok a => Ok a
  | Raise _ => Raise e
  end.

(** Line 222: the frame that is processed. *)
Definition data_copy (data : Input) : DataFrame :=
  match data with
  | Frame df => df
  | GroupBy obj _ => obj
  end.

(** No row of a grouped input has a NaN among its group keys. *)
Definition no_nan_keys (data : Input) : Prop :=
  match data with
  | Frame _ => True
  | GroupBy obj group_names =>
    forall js, positions group_names (columns obj) = Ok js ->
               Forall (fun r => existsb is_nan (key js r) = false) (rows obj)
  end.

(** A frame whose rows are as wide as its list of columns. *)
Definition well_formed (df : DataFrame) : Prop :=
  Forall (fun r => length (cells r) = length (columns df)) (rows df).

(** A frame that carries the columns [orig] in their places and
    otherwise only labels from [names], each row as wide as the
    frame. *)
Definition extends_orig (orig names : list string) (df : DataFrame) : Prop :=
  firstn (length orig) (columns df) = orig /\
  well_formed df /\
  (forall c, In c (columns df) -> In c orig \/ In c names).

(** The index label of a row and its cells under the columns [orig]. *)
Definition prefix (orig : list string) (r : Row) : Z * list cell :=
  (idx r, firstn (length orig) (cells r)).

(** The label under which [col] receives the result of [func]
    (lines 245, 291 and 294), when [func] is of an accepted form. *)
Definition new_column_name (col : string) (func : window_fn) : option string :=
  match func with
  | FuncTuple user_func_name _ =>
    Some (col ++ "_expanding_" ++ user_func_name)%string
  | FuncStr func =>
    if String.eqb func "quantile"
    then Some (col ++ "_expanding_" ++ func ++ "_50")%string
    else Some (col ++ "_expanding_" ++ func)%string
  | _ => None
  end.

Definition new_column_names (value_column : list string)
  (window_func : list window_fn) : list string :=
  flat_map (fun col =>
              flat_map (fun func =>
                          match new_column_name col func with
                          | Some n => [n]
                          | None => []
                          end)
                       window_func)
           value_column.

Section Pandas.

(** The methods of a pandas [Expanding] object, by attribute name:
    [getattr(series.expanding(...), name, None)] applied to keyword
    arguments gives the aggregate of a window. *)
Variable expanding_method : string -> option (kwargs -> aggregate).

(** The body of the innermost loop, lines 237-309. *)
Definition apply_func (min_periods : nat) (group_df : DataFrame)
  (col : string) (func : window_fn) : result DataFrame :=
  match func with
  | FuncTupleBadLength => Raise ValueError
  | FuncTupleBadName => Raise TypeError
  | FuncTuple user_func_name func =>
    let new_column_name := (col ++ "_expanding_" ++ user_func_name)%string in
    match func with
    | Callable1 f =>
      on_error PyException
        (series <- column col group_df ;;
         vals <- expanding min_periods f series ;;
         Ok (assign new_column_name vals group_df))
    | ConfigurableMalformed => Raise ValueError
    | Configurable func_name default_kwargs user_kwargs =>
      let default_kwargs := update_dict default_kwargs user_kwargs in
      series <- on_error AttributeError (column col group_df) ;;
      match expanding_method func_name with
      | Some expanding_function =>
        on_error PyException
          (vals <- expanding min_periods (expanding_function default_kwargs)
                     series ;;
           Ok (assign new_column_name vals group_df))
      | None => Ok group_df
      end
    | OtherObject => Raise TypeError
    end
  | FuncStr func =>
    let new_column_name := (col ++ "_expanding_" ++ func)%string in
    if String.eqb func "quantile"
    then
      let new_column_name := (col ++ "_expanding_" ++ func ++ "_50")%string in
      series <- column col group_df ;;
      match expanding_method "quantile" with
      | Some quantile =>
        vals <- expanding min_periods
                  (quantile [("q"%string, Float (1 # 2))]) series ;;
        Ok (assign new_column_name vals group_df)
      | None => Raise AttributeError
      end
    else
      series <- column col group_df ;;
      match expanding_method func with
      | Some expanding_function =>
        vals <- expanding min_periods (expanding_function []) series ;;
        Ok (assign new_column_name vals group_df)
      | None => Raise ValueError
      end
  | FuncOther => Raise TypeError
  end.

(** [for func in window_func], line 236. *)
Fixpoint apply_funcs (min_periods : nat) (group_df : DataFrame)
  (col : string) (window_func : list window_fn) : result DataFrame :=
  match window_func with
  | [] => Ok group_df
  | func :: rest =>
    group_df' <- apply_func min_periods group_df col func ;;
    apply_funcs min_periods group_df' col rest
  end.

(** [for col in value_column], line 235. *)
Fixpoint apply_columns (min_periods : nat) (group_df : DataFrame)
  (value_column : list string) (window_func : list window_fn)
  : result DataFrame :=
  match value_column with
  | [] => Ok group_df
  | col :: rest =>
    group_df' <- apply_funcs min_periods group_df col window_func ;;
    apply_columns min_periods group_df' rest window_func
  end.

(** [_augment_expanding_pandas], lines 209-316. *)
Definition _augment_expanding_pandas (data : Input) (date_column : string)
  (value_column : list string) (window_func : list window_fn)
  (min_periods : nat) : result DataFrame :=
  let data_copy := data_copy data in
  grouped <-
    match data with
    | GroupBy _ group_names =>
      sorted <- sort_values (group_names ++ [date_column]) data_copy ;;
      groupby group_names sorted
    | Frame _ =>
      sorted <- sort_values [date_column] data_copy ;;
      Ok [sorted]
    end ;;
  result_dfs <-
    mapM (fun group_df =>
            apply_columns min_periods group_df value_column window_func)
         grouped ;;
  result_df <- concat result_dfs ;;
  Ok (sort_index result_df).

End Pandas.

(** Three of the methods of a pandas [Expanding] object, on the float
    values of a window: [sum], [mean] and [quantile] (linear
    interpolation, at the keyword argument [q]). *)
Definition floats (window : list cell) : list Q :=
  flat_map (fun c => match c with Float q => [q] | _ => [] end) window.

Definition pandas_methods (name : string) : option (kwargs -> aggregate) :=
  if String.eqb name "sum"
  then Some (fun _ window => Ok (Float (Np.sumQ (floats window))))
  else if String.eqb name "mean"
  then Some (fun _ window =>
               match floats window with
               | [] => Ok NaN
               | values => Ok (Float (Np.mean values))
               end)
  else if String.eqb name "quantile"
  then Some (fun kw window =>
               match find (fun a => String.eqb (fst a) "q") kw, floats window with
               | Some (_, Float q), _ :: _ =>
                 Ok (Float (Np.percentile (floats window) (q * 100)))
               | Some (_, Float q), [] => Ok NaN
               | _, _ => Raise TypeError
               end)
  else None.

End Expanding.

(** ** Definitions that follow the design document

    They are compared below with the definitions taken from the
    sources. *)

Module Spec.

(** The linear-interpolation percentile: with the values in ascending
    order and the rank [h = (n-1)*p/100], the value at [floor h] moved
    towards the value at [ceiling h] by the fractional part of [h]. *)
Definition linear_percentile (a : list Q) (p : Q) : Q :=
  let s := Np.sort a in
  let h := inject_Z (Z.of_nat (length a) - 1) * (p / 100) in
  let lo := nth (Z.to_nat (Qfloor h)) s 0 in
  let hi := nth (Z.to_nat (Qceiling h)) s 0 in
  lo + (h - inject_Z (Qfloor h)) * (hi - lo).

(** Round-robin assignment: index [i] belongs to sub-sequence
    [i mod median_span]; every point receives the median of its
    sub-sequence. *)
Definition round_robin_trend (seasadj : list Q) (median_span : nat) : list Q :=
  Pd.groupby_transform Pd.median
    (map (fun i => (i mod median_span)%nat) (seq 0 (length seasadj)))
    seasadj.

Definition result_columns : list string :=
  ["observed"; "seasonal"; "seasadj"; "trend"; "remainder"; "anomaly";
   "anomaly_score"; "anomaly_direction"; "recomposed_l1"; "recomposed_l2";
   "observed_clean"]%string.

(** The column order of the design document: grouping columns, the
    timestamp column, the result columns and, when [bind_data] is
    requested, the original input columns after them. *)
Definition output_columns (group_names data_columns : list string)
  (date_column : string) (bind_data : bool) : list string :=
  group_names ++ [date_column] ++ result_columns
    ++ (if bind_data then data_columns else []).

End Spec.

(** ** pytimetk/feature_engineering/expanding.py: [augment_expanding_apply] *)

Module ExpandingApply.

(** A function of [window_func]: it receives the frame of a window and
  returns one value. *)
Definition frame_aggregate : Type := Expanding.DataFrame -> result Expanding.cell.

(** An element met when [window_func] is iterated (line 618). *)
Inductive apply_fn : Type :=
| ApplyTuple (func_name : string) (func : frame_aggregate)
| ApplyTupleBadLength
| ApplyOther.

(** The argument [window_func]: a list of tuples, or a single
  [(name, func)] tuple, whose iteration yields the name and the
  function, neither of which is a tuple. *)
Inductive window_arg : Type :=
| Tuples (funcs : list apply_fn)
| SingleTuple (func_name : string) (func : frame_aggregate).

Definition iterate (window_func : window_arg) : list apply_fn :=
match window_func with
| Tuples funcs => funcs
| SingleTuple _ _ => [ApplyOther; ApplyOther]
end.

(** The loop of the helper [expanding_apply], lines 608-611: [results]
  is updated at [end_point - 1] when the window holds at least
  [min_periods] rows. *)
Fixpoint expanding_apply_loop (func : frame_aggregate) (df : Expanding.DataFrame)
(min_periods : Z) (end_points : list nat) (results : list Expanding.cell)
: result (list Expanding.cell) :=
match end_points with
| [] => Ok results
| end_point :: rest =>
  let window_df :=
    Expanding.mkFrame (Expanding.columns df)
                      (firstn end_point (Expanding.rows df)) in
  if (min_periods <=? Z.of_nat (length (Expanding.rows window_df)))%Z
  then
    v <- func window_df ;;
    expanding_apply_loop func df min_periods rest
      (Expanding.set_nth (end_point - 1) v results)
  else expanding_apply_loop func df min_periods rest results
end.

(** The helper [expanding_apply], lines 604-613. *)
Definition expanding_apply (func : frame_aggregate) (df : Expanding.DataFrame)
(min_periods : Z) : result (list Expanding.cell) :=
let num_rows := length (Expanding.rows df) in
let results := repeat Expanding.NaN num_rows in
expanding_apply_loop func df min_periods (seq 1 num_rows) results.

(** The loop over [window_func], lines 618-624. *)
Fixpoint apply_window_funcs (min_periods : Z) (group_df : Expanding.DataFrame)
(window_func : list apply_fn) : result Expanding.DataFrame :=
match window_func with
| [] => Ok group_df
| func :: rest =>
  match func with
  | ApplyTuple func_name func =>
    let new_column_name := ("expanding_" ++ func_name)%string in
    vals <- expanding_apply func group_df min_periods ;;
    apply_window_funcs min_periods
      (Expanding.assign new_column_name vals group_df) rest
  | ApplyTupleBadLength => Raise ValueError
  | ApplyOther => Raise TypeError
  end
end.

(** [augment_expanding_apply], lines 589-631. *)
Definition augment_expanding_apply (data : Expanding.Input)
(date_column : string) (window_func : window_arg) (min_periods : option Z)
: result Expanding.DataFrame :=
let data_copy := Expanding.data_copy data in
grouped <-
  match data with
  | Expanding.GroupBy _ group_names =>
    sorted <- Expanding.sort_values (group_names ++ [date_column]) data_copy ;;
    Expanding.groupby group_names sorted
  | Expanding.Frame _ =>
    sorted <- Expanding.sort_values [date_column] data_copy ;;
    Ok [sorted]
  end ;;
let min_periods := match min_periods with None => 1%Z | Some m => m end in
result_dfs <-
  Expanding.mapM (fun group_df =>
                    apply_window_funcs min_periods group_df
                      (iterate window_func))
                 grouped ;;
result_df <- Expanding.concat result_dfs ;;
Ok (Expanding.sort_index result_df).

(** The labels assigned by [augment_expanding_apply] (line 621). *)
Definition new_column_names (window_func : list apply_fn) : list string :=
flat_map (fun func =>
            match func with
            | ApplyTuple func_name _ => [("expanding_" ++ func_name)%string]
            | _ => []
            end)
         window_func.

End ExpandingApply.

(** [df.iloc[: k]]. *)
Definition window (df : Expanding.DataFrame) (k : nat) : Expanding.DataFrame :=
  Expanding.mkFrame (Expanding.columns df) (firstn k (Expanding.rows df)).

(** The rows of the input that reach a group: all of them for a
    DataFrame; for a GroupBy object those whose group key holds no NaN. *)
Definition kept_rows (data : Expanding.Input) : list Expanding.Row :=
  match data with
  | Expanding.Frame df => Expanding.rows df
  | Expanding.GroupBy obj group_names =>
    match Expanding.positions group_names (Expanding.columns obj) with
    | Ok js =>
      filter (fun r => negb (existsb Expanding.is_nan (Expanding.key js r)))
             (Expanding.rows obj)
    | Raise _ => []
    end
  end.

(** ** pytimetk/feature_engineering/hilbert.py *)

Module Hilbert.

(** [h[i] = v]. *)
Fixpoint set_at (i : nat) (v : Q) (h : list Q) : list Q :=
match h, i with
| [], _ => []
| _ :: h', O => v :: h'
| x :: h', S i' => x :: set_at i' v h'
end.

(** [h[lo:hi] = v]. *)
Fixpoint set_slice (lo hi : nat) (v : Q) (h : list Q) {struct h} : list Q :=
match h with
| [] => []
| x :: h' =>
  match lo, hi with
  | _, O => h
  | O, S hi' => v :: set_slice O hi' v h'
  | S lo', S hi' => x :: set_slice lo' hi' v h'
  end
end.

(** The multiplier [h] of lines 191-197, for a signal of [N >= 1] points
  (numpy's FFT has already refused an empty signal). *)
Definition mask (N : nat) : list Q :=
let h := repeat 0 N in
if (N mod 2 =? 0)%nat
then
  let h := set_at 0 1 h in
  let h := set_at (N / 2) 1 h in
  set_slice 1 (N / 2) 2 h
else
  let h := set_at 0 1 h in
  set_slice 1 ((N + 1) / 2) 2 h.

(** The argument [value_column]: a list of names or one bare name. *)
Inductive value_arg : Type :=
| Names (cols : list string)
| OneName (col : string).

Section Fft.

(** numpy's complex numbers and transforms: [np.fft.fft] of the values of
a column (it raises for an empty or a non-numeric signal),
[np.fft.ifft], the product of a real and a complex number, and
[np.real], [np.imag]. *)
Variable complex : Type.
Variable fft : list Expanding.cell -> result (list complex).
Variable ifft : list complex -> list complex.
Variable scale : Q -> complex -> complex.
Variable real imag : complex -> Expanding.cell.

(** The local function [apply_hilbert], lines 176-207. *)
Fixpoint apply_hilbert (value_column : list string) (group : Expanding.DataFrame)
: result Expanding.DataFrame :=
match value_column with
| [] => Ok group
| col :: rest =>
signal <- Expanding.column col group ;;
let N := length signal in
Xf <- fft signal ;;
let h := mask N in
let Xf := map2 scale h Xf in
let x_analytic := ifft Xf in
let group :=
  Expanding.assign (col ++ "_hilbert_real")%string (map real x_analytic)
                   group in
let group :=
  Expanding.assign (col ++ "_hilbert_imag")%string (map imag x_analytic)
                   group in
apply_hilbert rest group
end.

(** [pd.concat(frames, ignore_index=True)]: the rows are renumbered from
0. *)
Definition concat_ignore_index (frames : list Expanding.DataFrame)
: result Expanding.DataFrame :=
match frames with
| [] => Raise ValueError
| f :: _ =>
let rows := flat_map Expanding.rows frames in
Ok (Expanding.mkFrame (Expanding.columns f)
      (map2 (fun i r => Expanding.mkRow (Z.of_nat i) (Expanding.cells r))
            (seq 0 (length rows)) rows))
end.

(** [_augment_hilbert_pandas], lines 154-212, for a DataFrame. *)
Definition _augment_hilbert_pandas (data : Expanding.DataFrame)
(date_column : string) (value_column : value_arg)
: result Expanding.DataFrame :=
match value_column with
| OneName _ => Raise TypeError
| Names value_column =>
if existsb (fun col => negb (Labels.mem col (Expanding.columns data)))
           value_column
then Raise KeyError
else
  data <- Expanding.sort_values [date_column] data ;;
  (* data.groupby(np.zeros(len(data))): one group, none for no row *)
  let groups :=
    match Expanding.rows data with
    | [] => []
    | _ => [data]
    end in
  frames <- Expanding.mapM (apply_hilbert value_column) groups ;;
  concat_ignore_index frames
end.

End Fft.

(** The labels assigned for the columns [value_column]. *)
Definition new_column_names (value_column : list string) : list string :=
flat_map (fun col => [(col ++ "_hilbert_real")%string;
                      (col ++ "_hilbert_imag")%string])
         value_column.

End Hilbert.

(** ** Inputs of the worked examples *)

Module Examples.

(** A flat series with one spike. *)
Definition spike : list (Z * Q) :=
[(1%Z, 0); (2%Z, 0); (3%Z, 100 # 1); (4%Z, 0); (5%Z, 0)].

(** Two groups whose rows are out of date order. *)
Definition sales : Expanding.DataFrame :=
Expanding.mkFrame ["id"; "date"; "value"]%string
  [Expanding.mkRow 0 [Expanding.Str "b"; Expanding.Timestamp 2;
                      Expanding.Float (10 # 1)];
   Expanding.mkRow 1 [Expanding.Str "a"; Expanding.Timestamp 5;
                      Expanding.Float 1];
   Expanding.mkRow 2 [Expanding.Str "b"; Expanding.Timestamp 1;
                      Expanding.Float (20 # 1)];
   Expanding.mkRow 3 [Expanding.Str "a"; Expanding.Timestamp 4;
                      Expanding.Float (2 # 1)]].

(** A two-point signal whose index labels are not 0, 1. *)
Definition signal : Expanding.DataFrame :=
Expanding.mkFrame ["date"; "value"]%string
  [Expanding.mkRow 7 [Expanding.Timestamp 2; Expanding.Float (3 # 1)];
   Expanding.mkRow 4 [Expanding.Timestamp 1; Expanding.Float (5 # 1)]].

(** A function for [augment_expanding_apply]: the number of rows of the
  window. *)
Definition count_rows : ExpandingApply.frame_aggregate :=
fun window_df =>
  Ok (Expanding.Int (Z.of_nat (length (Expanding.rows window_df)))).

(** The discrete Fourier transform of a signal of one or two points, over
  pairs of rationals; longer signals are outside the examples. *)
Definition to_float (c : Expanding.cell) : result Q :=
match c with
| Expanding.Float q => Ok q
| Expanding.Int z => Ok (inject_Z z)
| _ => Raise TypeError
end.

Definition fft (signal : list Expanding.cell) : result (list (Q * Q)) :=
values <- Expanding.mapM to_float signal ;;
match values with
| [x] => Ok [(x, 0)]
| [x; y] => Ok [(x + y, 0); (x - y, 0)]
| _ => Raise ValueError
end.

Definition ifft (Xf : list (Q * Q)) : list (Q * Q) :=
match Xf with
| [(a, b); (c, d)] => [((a + c) / 2, (b + d) / 2); ((a - c) / 2, (b - d) / 2)]
| _ => Xf
end.

Definition scale (h : Q) (z : Q * Q) : Q * Q := (h * fst z, h * snd z).

Definition real (z : Q * Q) : Expanding.cell := Expanding.Float (fst z).

Definition imag (z : Q * Q) : Expanding.cell := Expanding.Float (snd z).

End Examples.

(** * Properties *)

(** ** The error monad *)

Lemma bind_Ok_inv {A B : Type} (m : result A) (k : A -> result B) (b : B) :
  bind m k = Ok b -> exists a, m = Ok a /\ k a = Ok b.
Proof.
  destruct m as [a|e]; simpl; intros H.
  - exists a; split; [reflexivity | exact H].
  - discriminate H.
Qed.

Lemma Ok_inj {A : Type} (a b : A) : Ok a = Ok b -> a = b.
Proof. congruence. Qed.

Ltac inv_bind H :=
  let a := fresh "a" in
  let Ha := fresh "Ha" in
  apply bind_Ok_inv in H; destruct H as [a [Ha H]].

(** ** Comparisons of rationals *)

Lemma Qgtb_true (x y : Q) : Qgtb x y = true <-> y < x.
Proof.
  unfold Qgtb. rewrite negb_true_iff.
  split; intros H.
  - apply Qnot_le_lt. intros Hle. apply Qle_bool_iff in Hle. congruence.
  - destruct (Qle_bool x y) eqn:E; [|reflexivity].
    apply Qle_bool_iff in E. exfalso. apply (Qlt_not_le _ _ H E).
Qed.

Lemma Qgtb_false (x y : Q) : Qgtb x y = false <-> x <= y.
Proof.
  unfold Qgtb. rewrite negb_false_iff. apply Qle_bool_iff.
Qed.

Lemma Qltb_true (x y : Q) : Qltb x y = true <-> x < y.
Proof. unfold Qltb. apply (Qgtb_true y x). Qed.

Lemma Qltb_false (x y : Q) : Qltb x y = false <-> y <= x.
Proof. unfold Qltb. apply (Qgtb_false y x). Qed.

(** ** Lists *)

Lemma map2_length {A B C : Type} (f : A -> B -> C) (x : list A) (y : list B) :
  length (map2 f x y) = Nat.min (length x) (length y).
Proof.
  revert y. induction x as [|a x IH]; intros [|b y]; simpl; auto.
Qed.

Lemma nth_error_map2 {A B C : Type} (f : A -> B -> C) (x : list A)
  (y : list B) (i : nat) (c : C) :
  nth_error (map2 f x y) i = Some c <->
  exists a b, nth_error x i = Some a /\ nth_error y i = Some b /\ c = f a b.
Proof.
  revert y i. induction x as [|a x IH]; intros y i.
  - simpl. split.
    + destruct i; discriminate.
    + intros (a & b & Ha & _). destruct i; discriminate.
  - destruct y as [|b y].
    + simpl. split.
      * destruct i; discriminate.
      * intros (a' & b' & _ & Hb & _). destruct i; discriminate.
    + destruct i as [|i]; simpl.
      * split.
        -- intros H. injection H as <-. exists a, b. auto.
        -- intros (a' & b' & Ha & Hb & ->). congruence.
      * apply IH.
Qed.

Section SortingFacts.

Context {A : Type}.
Variable leb : A -> A -> bool.

Lemma insert_perm (x : A) (l : list A) : Permutation (x :: l) (insert leb x l).
Proof.
  induction l as [|y l IH]; simpl.
  - apply Permutation_refl.
  - destruct (leb x y).
    + apply Permutation_refl.
    + eapply Permutation_trans; [apply perm_swap|].
      apply perm_skip. exact IH.
Qed.

Lemma isort_perm (l : list A) : Permutation l (isort leb l).
Proof.
  induction l as [|x l IH]; simpl.
  - apply perm_nil.
  - eapply Permutation_trans; [|apply insert_perm].
    apply perm_skip. exact IH.
Qed.

Lemma isort_length (l : list A) : length (isort leb l) = length l.
Proof. symmetry. apply Permutation_length. apply isort_perm. Qed.

Hypothesis leb_total : forall x y, leb x y = true \/ leb y x = true.

Lemma insert_sorted (x : A) (l : list A) :
  Sorted (fun a b => leb a b = true) l ->
  Sorted (fun a b => leb a b = true) (insert leb x l).
Proof.
  induction l as [|y l IH]; simpl; intros Hs.
  - constructor; constructor.
  - destruct (leb x y) eqn:E.
    + constructor; [exact Hs|]. constructor. exact E.
    + inversion Hs as [|? ? Hs' Hhd]; subst.
      constructor; [apply IH; exact Hs'|].
      destruct l as [|z l]; simpl.
      * constructor. destruct (leb_total x y); congruence.
      * destruct (leb x z).
        -- constructor. destruct (leb_total x y); congruence.
        -- constructor. inversion Hhd; subst. assumption.
Qed.

Lemma isort_sorted (l : list A) :
  Sorted (fun a b => leb a b = true) (isort leb l).
Proof.
  induction l as [|x l IH]; simpl.
  - constructor.
  - apply insert_sorted. exact IH.
Qed.

End SortingFacts.

(** ** The outlier classifier *)

Lemma map_const_repeat {A B : Type} (c : B) (l : list A) :
  map (fun _ => c) l = repeat c (length l).
Proof. induction l as [|a l IH]; simpl; congruence. Qed.

Lemma Qfloor_int_or_lt (x : Q) :
  inject_Z (Qfloor x) == x \/ inject_Z (Qfloor x) < x.
Proof.
  destruct (Qle_lt_or_eq _ _ (Qfloor_le x)) as [H|H]; [right|left]; exact H.
Qed.

Lemma Qceiling_of_int (x : Q) : inject_Z (Qfloor x) == x -> Qceiling x = Qfloor x.
Proof.
  intros H. rewrite <- H at 1.
  unfold Qceiling. rewrite <- inject_Z_opp. rewrite Qfloor_Z. lia.
Qed.

Lemma Qceiling_of_frac (x : Q) :
  inject_Z (Qfloor x) < x -> Qceiling x = (Qfloor x + 1)%Z.
Proof.
  intros Hlt.
  pose proof (Qle_ceiling x) as Hc.
  pose proof (Qceiling_lt x) as Hc'.
  pose proof (Qlt_floor x) as Hf.
  assert (H1 : (Qfloor x < Qceiling x)%Z).
  { rewrite Zlt_Qlt. eapply Qlt_le_trans; eassumption. }
  assert (H2 : (Qceiling x - 1 < Qfloor x + 1)%Z).
  { rewrite Zlt_Qlt. eapply Qlt_trans; eassumption. }
  lia.
Qed.

(** The numpy percentile is the linear-interpolation percentile of the
    design document. *)
Lemma percentile_linear (a : list Q) (p : Q) :
  a <> [] -> 0 <= p -> p <= 100 ->
  Np.percentile a p == Spec.linear_percentile a p.
Proof.
  intros Ha Hp0 Hp1.
  unfold Np.percentile, Spec.linear_percentile.
  set (n := Z.of_nat (length a)).
  set (h := inject_Z (n - 1) * (p / 100)).
  assert (Hn : (1 <= n)%Z).
  { unfold n. destruct a; [congruence | simpl length; lia]. }
  assert (Hh : h <= inject_Z (n - 1)).
  { unfold h.
    assert (H0 : 0 <= inject_Z (n - 1)).
    { change 0 with (inject_Z 0). rewrite <- Zle_Qle. lia. }
    assert (H1 : p / 100 <= 1).
    { apply Qle_shift_div_r; [reflexivity|]. rewrite Qmult_1_l. exact Hp1. }
    generalize dependent (inject_Z (n - 1)). generalize dependent (p / 100).
    intros r Hr k Hk. nra. }
  destruct (Qfloor_int_or_lt h) as [Hint|Hfrac].
  - rewrite (Qceiling_of_int h Hint).
    setoid_replace (h - inject_Z (Qfloor h)) with 0 by (rewrite Hint; ring).
    ring.
  - rewrite (Qceiling_of_frac h Hfrac).
    assert (Hlt : (Qfloor h < n - 1)%Z).
    { rewrite Zlt_Qlt. eapply Qlt_le_trans; eassumption. }
    rewrite Z.min_l by lia.
    ring.
Qed.

(** C1.  For a non-empty remainder series and [alpha] in (0,1), the
    classifier returns a frame in which [remainder_l1] holds one constant
    on every row, the negated sum [-(Q1 + (0.15/alpha) * (Q3 - Q1))], and
    [remainder_l2] holds the constant [Q3 + (0.15/alpha) * (Q3 - Q1)],
    where [Q1] and [Q3] are the 25th and 75th linear-interpolation
    percentiles of the series. *)
Theorem iqr_fences (data : list Q) (alpha max_anoms : Q) :
  data <> [] -> 0 < alpha -> alpha < 1 ->
  exists out lower upper,
    Anomalize._iqr data alpha max_anoms = Ok out /\
    Anomalize.remainder_l1 out = repeat lower (length data) /\
    Anomalize.remainder_l2 out = repeat upper (length data) /\
    lower == - (Spec.linear_percentile data 25
                + ((15 # 100) / alpha)
                  * (Spec.linear_percentile data 75
                     - Spec.linear_percentile data 25)) /\
    upper == Spec.linear_percentile data 75
             + ((15 # 100) / alpha)
               * (Spec.linear_percentile data 75
                  - Spec.linear_percentile data 25).
Proof.
  intros Hdata Hpos Hlt.
  unfold Anomalize._iqr.
  destruct (Qeq_bool alpha 0) eqn:E.
  - apply Qeq_bool_iff in E. rewrite E in Hpos. discriminate Hpos.
  - eexists. eexists. eexists.
    split; [reflexivity|].
    cbn [Anomalize.remainder_l1 Anomalize.remainder_l2].
    split; [apply map_const_repeat|].
    split; [apply map_const_repeat|].
    assert (H25 : Np.percentile data 25 == Spec.linear_percentile data 25)
      by (apply percentile_linear; [assumption | discriminate | discriminate]).
    assert (H75 : Np.percentile data 75 == Spec.linear_percentile data 75)
      by (apply percentile_linear; [assumption | discriminate | discriminate]).
    rewrite <- H25, <- H75. split; ring.
Qed.

Lemma iqr_fences_witness :
  exists out lower upper,
    Anomalize._iqr [1; 2; 3; 4; 100] (5 # 100) (1 # 5) = Ok out /\
    Anomalize.remainder_l1 out = repeat lower 5 /\
    Anomalize.remainder_l2 out = repeat upper 5 /\
    lower == - (Spec.linear_percentile [1; 2; 3; 4; 100] 25
                + ((15 # 100) / (5 # 100))
                  * (Spec.linear_percentile [1; 2; 3; 4; 100] 75
                     - Spec.linear_percentile [1; 2; 3; 4; 100] 25)) /\
    upper == Spec.linear_percentile [1; 2; 3; 4; 100] 75
             + ((15 # 100) / (5 # 100))
               * (Spec.linear_percentile [1; 2; 3; 4; 100] 75
                  - Spec.linear_percentile [1; 2; 3; 4; 100] 25).
Proof.
  apply (iqr_fences [1; 2; 3; 4; 100] (5 # 100) (1 # 5)).
  - discriminate.
  - reflexivity.
  - reflexivity.
Defined.

(** C2.  On every row of the classifier's input, with the centerline
    halfway between the two fences: the score is the distance of the
    remainder from the centerline; the flag is "Yes" exactly when the
    remainder is strictly above the upper fence or strictly below the
    lower fence, and "No" when it lies between them; the direction is +1
    above the upper fence, else -1 below the lower fence, else 0. *)
Theorem iqr_classification (data : list Q) (alpha max_anoms : Q)
  (out : Anomalize.OutlierFrame) :
  Anomalize._iqr data alpha max_anoms = Ok out ->
  exists lower upper,
    Anomalize.remainder_l1 out = repeat lower (length data) /\
    Anomalize.remainder_l2 out = repeat upper (length data) /\
    forall (i : nat) (x : Q),
      nth_error data i = Some x ->
      exists (s : Q) (a : string) (d : Z),
        nth_error (Anomalize.score out) i = Some s /\
        nth_error (Anomalize.outlier_reported out) i = Some a /\
        nth_error (Anomalize.direction out) i = Some d /\
        s == Qabs (x - (lower + upper) / 2) /\
        (a = "Yes"%string <-> (upper < x \/ x < lower)) /\
        (lower <= x /\ x <= upper -> a = "No"%string) /\
        (upper < x -> d = 1%Z) /\
        (~ upper < x -> x < lower -> d = (-1)%Z) /\
        (~ upper < x -> ~ x < lower -> d = 0%Z).
Proof.
  unfold Anomalize._iqr.
  destruct (Qeq_bool alpha 0); [discriminate|].
  intros H. apply Ok_inj in H. subst out.
  eexists. eexists.
  cbn [Anomalize.remainder_l1 Anomalize.remainder_l2 Anomalize.score
       Anomalize.outlier_reported Anomalize.direction].
  split; [apply map_const_repeat|].
  split; [apply map_const_repeat|].
  intros i x Hx.
  rewrite !nth_error_map, Hx. cbn [option_map].
  eexists. eexists. eexists.
  split; [reflexivity|]. split; [reflexivity|]. split; [reflexivity|].
  set (lower := - (1) * _).
  set (upper := Np.percentile data 75 + _).
  split.
  { assert (E : x - (0 + lower + upper) / 2 == x - (lower + upper) / 2)
      by field.
    rewrite E. reflexivity. }
  unfold Np.where_.
  destruct (Qgtb x upper) eqn:Eu; destruct (Qltb x lower) eqn:El;
    try (apply Qgtb_true in Eu); try (apply Qgtb_false in Eu);
    try (apply Qltb_true in El); try (apply Qltb_false in El).
  - repeat split; auto; try tauto.
    intros [_ Hle]. exfalso. apply (Qlt_not_le _ _ Eu Hle).
  - repeat split; auto; try tauto.
    intros [_ Hle]. exfalso. apply (Qlt_not_le _ _ Eu Hle).
  - repeat split; auto; try tauto.
    + intros [Hle _]. exfalso. apply (Qlt_not_le _ _ El Hle).
    + intros Hu. exfalso. apply (Qlt_not_le _ _ Hu Eu).
  - repeat split; try discriminate; auto.
    + intros [Hu|Hl]; exfalso.
      * apply (Qlt_not_le _ _ Hu Eu).
      * apply (Qlt_not_le _ _ Hl El).
    + intros Hu. exfalso. apply (Qlt_not_le _ _ Hu Eu).
    + intros _ Hl. exfalso. apply (Qlt_not_le _ _ Hl El).
Qed.

Lemma iqr_classification_witness :
  exists out, Anomalize._iqr [1; 2; 3; 4; 100] (5 # 100) (1 # 5) = Ok out /\
  exists lower upper,
    Anomalize.remainder_l1 out = repeat lower 5 /\
    Anomalize.remainder_l2 out = repeat upper 5 /\
    forall (i : nat) (x : Q),
      nth_error [1; 2; 3; 4; 100] i = Some x ->
      exists (s : Q) (a : string) (d : Z),
        nth_error (Anomalize.score out) i = Some s /\
        nth_error (Anomalize.outlier_reported out) i = Some a /\
        nth_error (Anomalize.direction out) i = Some d /\
        s == Qabs (x - (lower + upper) / 2) /\
        (a = "Yes"%string <-> (upper < x \/ x < lower)) /\
        (lower <= x /\ x <= upper -> a = "No"%string) /\
        (upper < x -> d = 1%Z) /\
        (~ upper < x -> x < lower -> d = (-1)%Z) /\
        (~ upper < x -> ~ x < lower -> d = 0%Z).
Proof.
  eexists. split; [reflexivity|].
  apply (iqr_classification [1; 2; 3; 4; 100] (5 # 100) (1 # 5)).
  reflexivity.
Defined.

(** C9.  The classifier does not read [max_anoms]: two runs on the same
    remainder series with the same [alpha] return the same frame (flag,
    direction, score and both fences on every row), whatever the two
    bounds are. *)
Theorem iqr_ignores_max_anoms (data : list Q) (alpha max_anoms1 max_anoms2 : Q) :
  Anomalize._iqr data alpha max_anoms1 = Anomalize._iqr data alpha max_anoms2.
Proof. reflexivity. Qed.

(** ** The decomposition routine returns columns of the input's length *)

Lemma length_concat_repeat {A : Type} (l : list A) (k : nat) :
  length (concat (repeat l k)) = (k * length l)%nat.
Proof.
  induction k as [|k IH]; simpl; [reflexivity|].
  rewrite length_app, IH. reflexivity.
Qed.

Lemma first_valid_le (l1 l2 : list (option Q)) (v : Q) :
  (Sm.first_valid (l1 ++ Some v :: l2) <= length l1)%nat.
Proof.
  induction l1 as [|[w|] l1 IH]; simpl; lia.
Qed.

Lemma first_valid_bounds (t : list (option Q)) (v : Q) :
  In (Some v) t ->
  (Sm.first_valid t + Sm.first_valid (rev t) < length t)%nat.
Proof.
  intros Hin. apply in_split in Hin. destruct Hin as (l1 & l2 & ->).
  pose proof (first_valid_le l1 l2 v) as H1.
  rewrite rev_app_distr. simpl rev. rewrite <- app_assoc. simpl app.
  pose proof (first_valid_le (rev l2) (rev l1) v) as H2.
  rewrite length_rev in H2. rewrite length_app. simpl length. lia.
Qed.

Lemma _extrapolate_trend_length (t : list (option Q)) (npoints : nat) (v : Q) :
  In (Some v) t -> length (Sm._extrapolate_trend t npoints) = length t.
Proof.
  intros Hin. pose proof (first_valid_bounds t v Hin) as Hb.
  unfold Sm._extrapolate_trend.
  destruct (Sm.lstsq_line _ _) as [k1 n1].
  destruct (Sm.lstsq_line _ _) as [k2 n2].
  rewrite !length_app, !length_map, !length_seq, length_firstn, length_skipn.
  lia.
Qed.

Lemma convolve_valid_length (x filt : list Q) :
  length (Sm.convolve_valid x filt) = (length x + 1 - length filt)%nat.
Proof.
  unfold Sm.convolve_valid. rewrite length_map, length_seq. reflexivity.
Qed.

Lemma convolution_filter_length (x filt : list Q) :
  Nat.odd (length filt) = true -> (length filt <= length x + 1)%nat ->
  length (Sm.convolution_filter x filt) = length x.
Proof.
  intros Hodd Hle. unfold Sm.convolution_filter.
  rewrite !length_app, !repeat_length, length_map, convolve_valid_length.
  apply Nat.odd_spec in Hodd. destruct Hodd as [h Hh].
  rewrite Hh.
  replace (2 * h + 1 + 1)%nat with ((h + 1) * 2)%nat by lia.
  rewrite Nat.div_mul by lia.
  replace ((2 * h + 1) mod 2)%nat with 1%nat.
  - lia.
  - replace (2 * h + 1)%nat with (1 + h * 2)%nat by lia.
    rewrite Nat.Div0.mod_add. reflexivity.
Qed.

Lemma convolution_filter_valid (x filt : list Q) :
  (length filt <= length x)%nat ->
  exists v, In (Some v) (Sm.convolution_filter x filt).
Proof.
  intros Hle. unfold Sm.convolution_filter.
  destruct (Sm.convolve_valid x filt) as [|v l] eqn:E.
  - apply (f_equal (@length Q)) in E.
    rewrite convolve_valid_length in E. simpl in E. lia.
  - exists v. apply in_or_app. right. apply in_or_app. left. left. reflexivity.
Qed.

Lemma seasonal_decompose_lengths (x : list Q) (model : string) (period : positive)
  (res : Sm.DecomposeResult) :
  Sm.seasonal_decompose x model period = Ok res ->
  length (Sm.seasonal res) = length x /\ length (Sm.trend res) = length x.
Proof.
  unfold Sm.seasonal_decompose.
  set (p := Pos.to_nat period).
  assert (Hp : (1 <= p)%nat) by (unfold p; lia).
  destruct (Sm.multiplicative model && existsb _ x); [discriminate|].
  destruct (Nat.ltb_spec (length x) (2 * p)) as [|Hn]; [discriminate|].
  intros H. apply Ok_inj in H. subst res. cbn [Sm.seasonal Sm.trend].
  split.
  - rewrite length_firstn, length_concat_repeat.
    assert (Hpa : forall pa0 : list Q,
               length (if Sm.multiplicative model
                       then map (fun v => v / Np.mean pa0) pa0
                       else map (fun v => v - Np.mean pa0) pa0) = length pa0).
    { intros pa0. destruct (Sm.multiplicative model); apply length_map. }
    rewrite Hpa. unfold Sm.seasonal_mean. rewrite length_map, length_seq.
    pose proof (Nat.div_mod_eq (length x) p) as Hd.
    pose proof (Nat.mod_upper_bound (length x) p ltac:(lia)) as Hm.
    nia.
  - rewrite length_map.
    set (filt := if Nat.even p then _ else _).
    assert (Hf : Nat.odd (length filt) = true /\ (length filt <= p + 1)%nat).
    { unfold filt. destruct (Nat.even p) eqn:Ev.
      - rewrite length_map, !length_app, repeat_length. simpl length.
        replace (1 + (p - 1 + 1))%nat with (S p) by lia.
        rewrite Nat.odd_succ. split; [exact Ev | lia].
      - rewrite repeat_length. unfold Nat.odd. rewrite Ev. split; [reflexivity | lia]. }
    destruct Hf as [Hodd Hlen].
    assert (Hlen0 : length (Sm.convolution_filter x filt) = length x)
      by (apply convolution_filter_length; [exact Hodd | lia]).
    destruct (0 <? p - 1)%nat; [|exact Hlen0].
    destruct (convolution_filter_valid x filt ltac:(lia)) as [v Hv].
    rewrite (_extrapolate_trend_length _ _ v Hv). exact Hlen0.
Qed.

(** ** The labels of the median groups *)

Lemma repeat_sequence_length (sq : list nat) (n : nat) (labels : list nat) :
  Anomalize.repeat_sequence sq n = Ok labels -> length labels = n.
Proof.
  unfold Anomalize.repeat_sequence.
  destruct (length sq) as [|len] eqn:E; [discriminate|].
  intros H. apply Ok_inj in H. subst labels.
  rewrite length_app, length_concat_repeat, length_firstn, E.
  pose proof (Nat.div_mod_eq n (S len)) as Hd.
  pose proof (Nat.mod_upper_bound n (S len) ltac:(lia)) as Hm.
  nia.
Qed.

Lemma median_index_length (m : Z) (n : nat) (labels : list nat) :
  Anomalize.median_index m n = Ok labels -> length labels = n.
Proof.
  unfold Anomalize.median_index. intros H. inv_bind H.
  apply Ok_inj in H. subst labels. rewrite isort_length.
  eapply repeat_sequence_length; eassumption.
Qed.

Lemma groupby_transform_length (agg : list Q -> Q) (keys : list nat)
  (vals : list Q) :
  length keys = length vals ->
  length (Pd.groupby_transform agg keys vals) = length vals.
Proof.
  intros H. unfold Pd.groupby_transform.
  rewrite length_map, length_firstn. lia.
Qed.

(** Every decomposer returns six columns of the input's length. *)
Lemma decompose_lengths (dates : list Z) (series : list Q) (period : positive)
  (median_span : option Z) (model : string) (fr : Anomalize.DecompFrame) :
  length dates = length series ->
  Anomalize._twitter_decompose dates series period median_span model = Ok fr \/
  Anomalize._seasonal_decompose dates series model period = Ok fr ->
  Anomalize.d_date fr = dates /\
  Anomalize.d_observed fr = series /\
  length (Anomalize.d_seasonal fr) = length series /\
  length (Anomalize.d_seasadj fr) = length series /\
  length (Anomalize.d_trend fr) = length series /\
  length (Anomalize.d_remainder fr) = length series.
Proof.
  intros Hd [H|H].
  - unfold Anomalize._twitter_decompose in H.
    inv_bind H. rename a into res.
    destruct (seasonal_decompose_lengths _ _ _ _ Ha) as [Hs Ht].
    inv_bind H. rename a into labels.
    apply Ok_inj in H. subst fr.
    cbn [Anomalize.d_date Anomalize.d_observed Anomalize.d_seasonal
         Anomalize.d_seasadj Anomalize.d_trend Anomalize.d_remainder].
    apply median_index_length in Ha0.
    assert (Hsa : length (map2 Qminus series (Sm.seasonal res)) = length series)
      by (rewrite map2_length; lia).
    assert (Htr : length (Pd.groupby_transform Pd.median labels
                            (map2 Qminus series (Sm.seasonal res)))
                  = length series)
      by (rewrite groupby_transform_length; [exact Hsa | congruence]).
    repeat split; auto.
    rewrite map2_length. lia.
  - unfold Anomalize._seasonal_decompose in H.
    inv_bind H. rename a into res.
    destruct (seasonal_decompose_lengths _ _ _ _ Ha) as [Hs Ht].
    apply Ok_inj in H. subst fr.
    cbn [Anomalize.d_date Anomalize.d_observed Anomalize.d_seasonal
         Anomalize.d_seasadj Anomalize.d_trend Anomalize.d_remainder].
    assert (Hsa : length (map2 Qminus series (Sm.seasonal res)) = length series)
      by (rewrite map2_length; lia).
    repeat split; auto.
    rewrite map2_length. lia.
Qed.

(** C6.  Both decomposers return, for an input of [n] rows, columns of
    [n] rows in which, on every row, [seasadj = observed - seasonal],
    [remainder = seasadj - trend] and therefore
    [observed = seasonal + trend + remainder], exactly over the
    rationals. *)
Theorem additive_recomposition (dates : list Z) (series : list Q)
  (period : positive) (median_span : option Z) (model : string)
  (fr : Anomalize.DecompFrame) :
  length dates = length series ->
  Anomalize._twitter_decompose dates series period median_span model = Ok fr \/
  Anomalize._seasonal_decompose dates series model period = Ok fr ->
  forall i : nat, (i < length series)%nat ->
    exists o s sa t r : Q,
      nth_error series i = Some o /\
      nth_error (Anomalize.d_observed fr) i = Some o /\
      nth_error (Anomalize.d_seasonal fr) i = Some s /\
      nth_error (Anomalize.d_seasadj fr) i = Some sa /\
      nth_error (Anomalize.d_trend fr) i = Some t /\
      nth_error (Anomalize.d_remainder fr) i = Some r /\
      sa == o - s /\ r == sa - t /\ o == s + t + r.
Proof.
  intros Hd Hrun i Hi.
  destruct (decompose_lengths _ _ _ _ _ _ Hd Hrun)
    as (_ & Hobs & Hs & Hsa & Ht & Hr).
  assert (Hrem : exists x, nth_error (Anomalize.d_remainder fr) i = Some x).
  { destruct (nth_error (Anomalize.d_remainder fr) i) eqn:E; [eauto|].
    apply nth_error_None in E. lia. }
  destruct Hrem as [r Er].
  assert (Hshape :
    Anomalize.d_seasadj fr
      = map2 Qminus (Anomalize.d_observed fr) (Anomalize.d_seasonal fr) /\
    Anomalize.d_remainder fr
      = map2 Qminus (Anomalize.d_seasadj fr) (Anomalize.d_trend fr)).
  { destruct Hrun as [H|H].
    - unfold Anomalize._twitter_decompose in H.
      inv_bind H. inv_bind H. apply Ok_inj in H. subst fr. split; reflexivity.
    - unfold Anomalize._seasonal_decompose in H.
      inv_bind H. apply Ok_inj in H. subst fr. split; reflexivity. }
  destruct Hshape as [Esa Erem].
  rewrite Erem in Er. apply nth_error_map2 in Er.
  destruct Er as (sa & t & Hsa' & Ht' & ->).
  pose proof Hsa' as Hsa''.
  rewrite Esa in Hsa''. apply nth_error_map2 in Hsa''.
  destruct Hsa'' as (o & s & Ho & Hs' & ->).
  exists o, s, (o - s), t, (o - s - t).
  assert (Er : nth_error (Anomalize.d_remainder fr) i = Some (o - s - t)).
  { rewrite Erem. apply nth_error_map2. eauto. }
  split; [rewrite <- Hobs; exact Ho|].
  repeat split; auto; try reflexivity.
  ring.
Qed.

Lemma additive_recomposition_witness :
  exists fr,
    Anomalize._twitter_decompose [1; 2; 3; 4]%Z [1; 10; 2; 20] 1%positive
      (Some 2%Z) "additive" = Ok fr /\
    forall i : nat, (i < 4)%nat ->
      exists o s sa t r : Q,
        nth_error [1; 10; 2; 20] i = Some o /\
        nth_error (Anomalize.d_observed fr) i = Some o /\
        nth_error (Anomalize.d_seasonal fr) i = Some s /\
        nth_error (Anomalize.d_seasadj fr) i = Some sa /\
        nth_error (Anomalize.d_trend fr) i = Some t /\
        nth_error (Anomalize.d_remainder fr) i = Some r /\
        sa == o - s /\ r == sa - t /\ o == s + t + r.
Proof.
  eexists. split.
  - vm_compute. reflexivity.
  - apply (additive_recomposition [1; 2; 3; 4]%Z [1; 10; 2; 20] 1%positive
             (Some 2%Z) "additive").
    + reflexivity.
    + left. vm_compute. reflexivity.
Defined.

(** ** The median trend of the twitter decomposition *)

Lemma count_occ_seq (a len k : nat) :
  count_occ Nat.eq_dec (seq a len) k
  = if ((a <=? k) && (k <? a + len))%nat then 1%nat else 0%nat.
Proof.
  revert a. induction len as [|len IH]; intros a; simpl.
  - destruct (Nat.leb_spec a k); destruct (Nat.ltb_spec k (a + 0)); simpl;
      try reflexivity; lia.
  - rewrite IH.
    destruct (Nat.eq_dec a k) as [->|Hne].
    + destruct (Nat.leb_spec (S k) k); [lia|]. simpl.
      destruct (Nat.leb_spec k k); [|lia].
      destruct (Nat.ltb_spec k (k + S len)); [reflexivity | lia].
    + destruct (Nat.leb_spec (S a) k); destruct (Nat.leb_spec a k);
        destruct (Nat.ltb_spec k (S a + len));
        destruct (Nat.ltb_spec k (a + S len)); simpl; try reflexivity; lia.
Qed.

Lemma firstn_seq_min (r a len : nat) :
  firstn r (seq a len) = seq a (Nat.min r len).
Proof.
  revert a len. induction r as [|r IH]; intros a [|len]; simpl; try reflexivity.
  rewrite IH. reflexivity.
Qed.

Lemma count_occ_concat_repeat (l : list nat) (q k : nat) :
  count_occ Nat.eq_dec (concat (repeat l q)) k
  = (q * count_occ Nat.eq_dec l k)%nat.
Proof.
  induction q as [|q IH]; simpl; [reflexivity|].
  rewrite count_occ_app, IH. reflexivity.
Qed.

Lemma Nat_leb_total (x y : nat) : Nat.leb x y = true \/ Nat.leb y x = true.
Proof.
  destruct (Nat.leb_spec x y); [left; reflexivity|].
  right. apply Nat.leb_le. lia.
Qed.

Lemma Sorted_weaken {A : Type} (R R' : A -> A -> Prop) (l : list A) :
  (forall a b, R a b -> R' a b) -> Sorted R l -> Sorted R' l.
Proof.
  intros HR. induction 1 as [|a l Hs IH Hhd]; constructor; [exact IH|].
  destruct Hhd; constructor. apply HR. assumption.
Qed.

(** The labels produced at line 504 for a series of [n] points and
    [m] groups: an ascending list of length [n] in which group [k] occurs
    [n / m] times, once more for the first [n mod m] groups. *)
Lemma median_index_blocks (m : Z) (n : nat) (labels : list nat) :
  Anomalize.median_index m n = Ok labels ->
  length labels = n /\
  Sorted le labels /\
  (forall k : nat, In k labels -> (k < Z.to_nat m)%nat) /\
  (forall k : nat, (k < Z.to_nat m)%nat ->
     count_occ Nat.eq_dec labels k
     = (n / Z.to_nat m
        + if (k <? n mod Z.to_nat m)%nat then 1 else 0)%nat).
Proof.
  intros H. split; [eapply median_index_length; eassumption|].
  unfold Anomalize.median_index in H. inv_bind H. rename a into rs.
  apply Ok_inj in H. subst labels.
  unfold Anomalize.repeat_sequence, Anomalize.range in Ha.
  rewrite length_seq in Ha.
  set (m' := Z.to_nat m) in *.
  destruct m' as [|len] eqn:Em; [discriminate|].
  apply Ok_inj in Ha.
  assert (Hcount : forall k,
    count_occ Nat.eq_dec (isort Nat.leb rs) k
    = ((n / S len) * (if (k <? S len)%nat then 1 else 0)
       + if (k <? Nat.min (n mod S len) (S len))%nat then 1 else 0)%nat).
  { intros k.
    pose proof (isort_perm Nat.leb rs) as Hp.
    rewrite (Permutation_count_occ Nat.eq_dec) in Hp. rewrite <- Hp.
    rewrite <- Ha.
    rewrite count_occ_app, count_occ_concat_repeat, firstn_seq_min.
    rewrite !count_occ_seq. simpl Nat.leb. simpl andb. simpl Nat.add.
    reflexivity. }
  split; [|split].
  - eapply Sorted_weaken; [|apply isort_sorted; exact Nat_leb_total].
    intros a b Hab. apply Nat.leb_le. exact Hab.
  - intros k Hk.
    apply (count_occ_In Nat.eq_dec) in Hk. rewrite Hcount in Hk.
    destruct (Nat.ltb_spec k (S len)) as [Hlt|Hge]; [exact Hlt|].
    destruct (Nat.ltb_spec k (Nat.min (n mod S len) (S len))); lia.
  - intros k Hk. rewrite Hcount.
    destruct (Nat.ltb_spec k (S len)); [|lia].
    pose proof (Nat.mod_upper_bound n (S len) ltac:(lia)) as Hm.
    rewrite Nat.min_l by lia. lia.
Qed.

(** C3 (as amended).  The twitter decomposition labels the points of the
    seasonally-adjusted series with the round-robin sequence
    [0 .. median_span-1] repeated to the length of the series and then
    sorted: the labels ascend, so each group is a block of consecutive
    points, the first [n mod median_span] blocks holding one point more
    than [n / median_span].  The trend of every point is the median of
    the seasonally-adjusted values of its block. *)
Theorem twitter_trend_blocks (dates : list Z) (series : list Q)
  (period : positive) (median_span : Z) (model : string)
  (fr : Anomalize.DecompFrame) :
  Anomalize._twitter_decompose dates series period (Some median_span) model
    = Ok fr ->
  exists labels : list nat,
    Anomalize.median_index median_span (length series) = Ok labels /\
    length labels = length series /\
    Sorted le labels /\
    (forall k : nat, In k labels -> (k < Z.to_nat median_span)%nat) /\
    (forall k : nat, (k < Z.to_nat median_span)%nat ->
       count_occ Nat.eq_dec labels k
       = (length series / Z.to_nat median_span
          + if (k <? length series mod Z.to_nat median_span)%nat
            then 1 else 0)%nat) /\
    (forall (i k : nat), nth_error labels i = Some k ->
       nth_error (Anomalize.d_trend fr) i
       = Some (Pd.median
                 (Pd.group_values labels (Anomalize.d_seasadj fr) k))).
Proof.
  intros H. unfold Anomalize._twitter_decompose in H.
  inv_bind H. rename a into res.
  destruct (seasonal_decompose_lengths _ _ _ _ Ha) as [Hs _].
  inv_bind H. rename a into labels.
  apply Ok_inj in H. subst fr.
  cbn [Anomalize.d_trend Anomalize.d_seasadj].
  assert (Hsa : length (map2 Qminus series (Sm.seasonal res)) = length series)
    by (rewrite map2_length; lia).
  rewrite Hsa in Ha0.
  destruct (median_index_blocks _ _ _ Ha0) as (Hlen & Hsorted & Hin & Hcount).
  exists labels.
  repeat split; auto.
  intros i k Hk. unfold Pd.groupby_transform.
  rewrite firstn_all2 by lia.
  rewrite nth_error_map, Hk. reflexivity.
Qed.

Lemma twitter_trend_blocks_witness :
  exists fr,
    Anomalize._twitter_decompose [1; 2; 3; 4]%Z [1; 10; 2; 20] 1%positive
      (Some 2%Z) "additive" = Ok fr /\
    exists labels : list nat,
      Anomalize.median_index 2 4 = Ok labels /\
      length labels = 4%nat /\
      Sorted le labels /\
      (forall k : nat, In k labels -> (k < 2)%nat) /\
      (forall k : nat, (k < 2)%nat ->
         count_occ Nat.eq_dec labels k
         = (4 / 2 + if (k <? 4 mod 2)%nat then 1 else 0)%nat) /\
      (forall (i k : nat), nth_error labels i = Some k ->
         nth_error (Anomalize.d_trend fr) i
         = Some (Pd.median
                   (Pd.group_values labels (Anomalize.d_seasadj fr) k))).
Proof.
  eexists. split.
  - vm_compute. reflexivity.
  - apply (twitter_trend_blocks [1; 2; 3; 4]%Z [1; 10; 2; 20] 1%positive 2%Z
             "additive").
    vm_compute. reflexivity.
Defined.

(** C3 (as stated) fails: with two groups over four points the code gives
    the first two points one trend value and the last two another, whereas
    round-robin assignment pairs the points at even and at odd indexes. *)
Lemma twitter_trend_not_round_robin :
  exists (fr : Anomalize.DecompFrame) (t t' : Q),
    Anomalize._twitter_decompose [1; 2; 3; 4]%Z [1; 10; 2; 20] 1%positive
      (Some 2%Z) "additive" = Ok fr /\
    nth_error (Anomalize.d_trend fr) 0 = Some t /\
    nth_error (Spec.round_robin_trend (Anomalize.d_seasadj fr) 2) 0 = Some t' /\
    ~ t == t'.
Proof.
  eexists. eexists. eexists.
  split; [vm_compute; reflexivity|].
  split; [vm_compute; reflexivity|].
  split; [vm_compute; reflexivity|].
  intros H. vm_compute in H. discriminate H.
Qed.

(** ** The pipeline [_anomalize] *)

Lemma nth_error_of_length {A : Type} (l : list A) (i : nat) :
  (i < length l)%nat -> exists x, nth_error l i = Some x.
Proof.
  intros H. destruct (nth_error l i) eqn:E; [eauto|].
  apply nth_error_None in E. lia.
Qed.

Lemma nth_error_combine {A B : Type} (x : list A) (y : list B) (i : nat)
  (a : A) (b : B) :
  nth_error x i = Some a -> nth_error y i = Some b ->
  nth_error (combine x y) i = Some (a, b).
Proof.
  revert y i. induction x as [|a' x IH]; intros [|b' y] [|i]; simpl;
    try discriminate.
  - congruence.
  - apply IH.
Qed.

(** The shape of the frame returned by [_iqr]. *)
Lemma _iqr_inv (data : list Q) (alpha max_anoms : Q)
  (out : Anomalize.OutlierFrame) :
  Anomalize._iqr data alpha max_anoms = Ok out ->
  exists lower upper : Q,
    Anomalize.remainder_l1 out = map (fun _ => lower) data /\
    Anomalize.remainder_l2 out = map (fun _ => upper) data /\
    Anomalize.outlier_reported out
      = map (fun x => Np.where_ (Qgtb x upper) "Yes"%string
                        (Np.where_ (Qltb x lower) "Yes"%string "No"%string))
            data /\
    Anomalize.direction out
      = map (fun x => Np.where_ (Qgtb x upper) 1%Z
                        (Np.where_ (Qltb x lower) (-1)%Z 0%Z))
            data /\
    length (Anomalize.score out) = length data.
Proof.
  unfold Anomalize._iqr.
  destruct (Qeq_bool alpha 0); [discriminate|].
  intros H. apply Ok_inj in H. subst out.
  eexists. eexists.
  cbn [Anomalize.remainder_l1 Anomalize.remainder_l2 Anomalize.score
       Anomalize.outlier_reported Anomalize.direction].
  repeat split; try reflexivity. apply length_map.
Qed.

Section Pipeline.

Variable get_seasonal_frequency : list Z -> positive.
Variable get_trend_frequency : list Z -> Z.

Local Abbreviation _anomalize :=
  (Anomalize._anomalize get_seasonal_frequency get_trend_frequency).

Local Abbreviation decompose_step :=
  (Anomalize.decompose_step get_seasonal_frequency get_trend_frequency).

Lemma decompose_step_lengths data period trend method decomp fr :
  decompose_step data period trend method decomp = Ok fr ->
  Anomalize.d_observed fr = map snd data /\
  length (Anomalize.d_seasonal fr) = length data /\
  length (Anomalize.d_seasadj fr) = length data /\
  length (Anomalize.d_trend fr) = length data /\
  length (Anomalize.d_remainder fr) = length data.
Proof.
  unfold Anomalize.decompose_step. intros H.
  assert (Hd : length (map fst data) = length (map snd data))
    by (rewrite !length_map; reflexivity).
  assert (Hl : length (map snd data) = length data) by apply length_map.
  destruct (String.eqb method "twitter").
  - destruct (_ =? 0)%Z; [discriminate|].
    destruct (decompose_lengths _ _ _ _ _ _ Hd (or_introl H))
      as (_ & -> & ? & ? & ? & ?).
    rewrite <- Hl. auto.
  - destruct (decompose_lengths _ _ _ None _ _ Hd (or_intror H))
      as (_ & -> & ? & ? & ? & ?).
    rewrite <- Hl. auto.
Qed.

(** The frame returned by [_anomalize], column by column. *)
Lemma _anomalize_inv data period trend method decomp clean
  iqr_alpha clean_alpha max_anomalies f :
  _anomalize data period trend method decomp clean iqr_alpha clean_alpha
    max_anomalies = Ok f ->
  exists fr out,
    decompose_step data period trend method decomp = Ok fr /\
    Anomalize._iqr (Anomalize.d_remainder fr) iqr_alpha max_anomalies = Ok out /\
    Anomalize.date f = map fst data /\
    Anomalize.observed f = Anomalize.d_observed fr /\
    Anomalize.seasonal f = Anomalize.d_seasonal fr /\
    Anomalize.seasadj f = Anomalize.d_seasadj fr /\
    Anomalize.trend f = Anomalize.d_trend fr /\
    Anomalize.remainder f = Anomalize.d_remainder fr /\
    Anomalize.anomaly f = Anomalize.outlier_reported out /\
    Anomalize.anomaly_score f = Anomalize.score out /\
    Anomalize.anomaly_direction f = Anomalize.direction out /\
    Anomalize.recomposed_l1 f
      = map2 Qplus (map2 Qplus (Anomalize.d_seasonal fr) (Anomalize.d_trend fr))
          (Anomalize.remainder_l1 out) /\
    Anomalize.recomposed_l2 f
      = map2 Qplus (map2 Qplus (Anomalize.d_seasonal fr) (Anomalize.d_trend fr))
          (Anomalize.remainder_l2 out) /\
    (String.eqb clean "linear" = false ->
     Anomalize.observed_clean f
     = map2 (fun (d : Z) (v : Q * Q * Q) =>
               let '(l1, l2, obs) := v in
               Some (Np.where_ (d =? -1)%Z (clean_alpha * l1)
                       (Np.where_ (d =? 1)%Z (clean_alpha * l2) obs)))
            (Anomalize.anomaly_direction f)
            (combine (combine (Anomalize.recomposed_l1 f)
                              (Anomalize.recomposed_l2 f))
                     (Anomalize.observed f))).
Proof.
  unfold Anomalize._anomalize. intros H.
  inv_bind H. rename a into fr. inv_bind H. rename a into out.
  apply Ok_inj in H. subst f. exists fr, out.
  split; [exact Ha|]. split; [exact Ha0|].
  cbn [Anomalize.date Anomalize.observed Anomalize.seasonal Anomalize.seasadj
       Anomalize.trend Anomalize.remainder Anomalize.anomaly
       Anomalize.anomaly_score Anomalize.anomaly_direction
       Anomalize.recomposed_l1 Anomalize.recomposed_l2
       Anomalize.observed_clean].
  repeat split; try reflexivity.
  intros ->. reflexivity.
Qed.

(** C4.  Under the min_max cleaning policy (any [clean] other than
    "linear"), every row of the output has a cleaned value, which is
    [clean_alpha * recomposed_l1] when the direction is -1,
    [clean_alpha * recomposed_l2] when it is +1 and the observed value
    when it is 0; the direction of a row flagged "Yes" is not 0, so with
    [clean_alpha = 0] the cleaned value of every anomalous row is 0. *)
Theorem min_max_cleaning data period trend method decomp clean
  iqr_alpha clean_alpha max_anomalies f :
  clean <> "linear"%string ->
  _anomalize data period trend method decomp clean iqr_alpha clean_alpha
    max_anomalies = Ok f ->
  forall i : nat, (i < length data)%nat ->
    exists (a : string) (d : Z) (l1 l2 obs v : Q),
      nth_error (Anomalize.anomaly f) i = Some a /\
      nth_error (Anomalize.anomaly_direction f) i = Some d /\
      nth_error (Anomalize.recomposed_l1 f) i = Some l1 /\
      nth_error (Anomalize.recomposed_l2 f) i = Some l2 /\
      nth_error (Anomalize.observed f) i = Some obs /\
      nth_error (Anomalize.observed_clean f) i = Some (Some v) /\
      (d = (-1)%Z -> v == clean_alpha * l1) /\
      (d = 1%Z -> v == clean_alpha * l2) /\
      (d = 0%Z -> v == obs) /\
      (d = (-1)%Z \/ d = 0%Z \/ d = 1%Z) /\
      (a = "Yes"%string -> d <> 0%Z) /\
      (clean_alpha == 0 -> a = "Yes"%string -> v == 0).
Proof.
  intros Hclean Hrun i Hi.
  apply String.eqb_neq in Hclean.
  destruct (_anomalize_inv _ _ _ _ _ _ _ _ _ _ Hrun)
    as (fr & out & Hdec & Hiqr & _ & Hobs & _ & _ & _ & _ & Ha & _ & Hd
        & Hl1 & Hl2 & Hcl).
  specialize (Hcl Hclean).
  destruct (decompose_step_lengths _ _ _ _ _ _ Hdec)
    as (Eobs & Ls & Lsa & Lt & Lr).
  destruct (_iqr_inv _ _ _ _ Hiqr) as (lower & upper & El1 & El2 & Eflag & Edir & _).
  destruct (nth_error_of_length (Anomalize.d_remainder fr) i ltac:(lia))
    as [x Hx].
  destruct (nth_error_of_length (Anomalize.d_seasonal fr) i ltac:(lia))
    as [s Hs].
  destruct (nth_error_of_length (Anomalize.d_trend fr) i ltac:(lia))
    as [t Ht].
  destruct (nth_error_of_length (Anomalize.d_observed fr) i
              ltac:(rewrite Eobs, length_map; lia)) as [obs Ho].
  set (a := Np.where_ (Qgtb x upper) "Yes"%string
              (Np.where_ (Qltb x lower) "Yes"%string "No"%string)).
  set (d := Np.where_ (Qgtb x upper) 1%Z
              (Np.where_ (Qltb x lower) (-1)%Z 0%Z)).
  assert (Hai : nth_error (Anomalize.anomaly f) i = Some a).
  { rewrite Ha, Eflag, nth_error_map, Hx. reflexivity. }
  assert (Hdi : nth_error (Anomalize.anomaly_direction f) i = Some d).
  { rewrite Hd, Edir, nth_error_map, Hx. reflexivity. }
  assert (Hl1i : nth_error (Anomalize.recomposed_l1 f) i = Some (s + t + lower)).
  { rewrite Hl1. apply nth_error_map2. exists (s + t), lower.
    split; [apply nth_error_map2; eauto|].
    split; [|reflexivity].
    rewrite El1, nth_error_map, Hx. reflexivity. }
  assert (Hl2i : nth_error (Anomalize.recomposed_l2 f) i = Some (s + t + upper)).
  { rewrite Hl2. apply nth_error_map2. exists (s + t), upper.
    split; [apply nth_error_map2; eauto|].
    split; [|reflexivity].
    rewrite El2, nth_error_map, Hx. reflexivity. }
  assert (Hoi : nth_error (Anomalize.observed f) i = Some obs)
    by (rewrite Hobs; exact Ho).
  set (v := Np.where_ (d =? -1)%Z (clean_alpha * (s + t + lower))
              (Np.where_ (d =? 1)%Z (clean_alpha * (s + t + upper)) obs)).
  assert (Hvi : nth_error (Anomalize.observed_clean f) i = Some (Some v)).
  { rewrite Hcl. apply nth_error_map2.
    exists d, (s + t + lower, s + t + upper, obs).
    split; [exact Hdi|]. split; [|reflexivity].
    apply nth_error_combine; [|exact Hoi].
    apply nth_error_combine; assumption. }
  exists a, d, (s + t + lower), (s + t + upper), obs, v.
  repeat (split; [assumption|]).
  assert (Hcases :
    (d = 1%Z /\ a = "Yes"%string) \/ (d = (-1)%Z /\ a = "Yes"%string)
    \/ (d = 0%Z /\ a = "No"%string)).
  { unfold d, a, Np.where_.
    destruct (Qgtb x upper); [auto|]. destruct (Qltb x lower); auto. }
  unfold v, Np.where_.
  destruct Hcases as [[-> ->]|[[-> ->]|[-> ->]]]; simpl Z.eqb; cbv iota;
    repeat split; try discriminate; try reflexivity; try tauto; try lia.
  - intros E _. rewrite E. ring.
  - intros E _. rewrite E. ring.
Qed.

(** C7 (as amended).  When the series is shorter than two periods, in
    particular when the period is at least the length of the series,
    the pipeline raises for both methods before any row is produced:
    the [ValueError] of the decomposition routine, or a
    [ZeroDivisionError] when the twitter method is given a zero
    [trend]. *)
Theorem short_series_raises data period trend method decomp clean
  iqr_alpha clean_alpha max_anomalies :
  (length data < 2 * Pos.to_nat period)%nat ->
  _anomalize data (Some period) trend method decomp clean iqr_alpha
    clean_alpha max_anomalies
  = Raise (if String.eqb method "twitter"
              && (match trend with
                  | None => get_trend_frequency (map fst data)
                  | Some t => t
                  end =? 0)%Z
           then ZeroDivisionError else ValueError).
Proof.
  intros Hshort.
  assert (Hsm : forall model,
    Sm.seasonal_decompose (map snd data) model period = Raise ValueError).
  { intros model. unfold Sm.seasonal_decompose.
    destruct (Sm.multiplicative model && existsb _ _); [reflexivity|].
    rewrite length_map.
    destruct (Nat.ltb_spec (length data) (2 * Pos.to_nat period));
      [reflexivity | lia]. }
  unfold Anomalize._anomalize, Anomalize.decompose_step.
  destruct (String.eqb method "twitter"); simpl andb.
  - destruct (_ =? 0)%Z; [reflexivity|].
    unfold Anomalize._twitter_decompose. rewrite Hsm. reflexivity.
  - unfold Anomalize._seasonal_decompose. rewrite Hsm. reflexivity.
Qed.

End Pipeline.

(** ** Concrete runs of the pipeline

    The frequency helpers are not consulted when [period] and [trend] are
    given; the runs below pass constant ones. *)

Lemma min_max_cleaning_witness :
  exists f,
    Anomalize._anomalize (fun _ => 1%positive) (fun _ => 1%Z)
      [(1%Z, -10 # 1); (2%Z, -10 # 1); (3%Z, 0); (4%Z, 0); (5%Z, 0)]
      (Some 1%positive) (Some 5%Z) "twitter" "additive" "min_max"
      (1 # 2) 0 (1 # 5) = Ok f /\
    forall i : nat, (i < 5)%nat ->
      exists (a : string) (d : Z) (l1 l2 obs v : Q),
        nth_error (Anomalize.anomaly f) i = Some a /\
        nth_error (Anomalize.anomaly_direction f) i = Some d /\
        nth_error (Anomalize.recomposed_l1 f) i = Some l1 /\
        nth_error (Anomalize.recomposed_l2 f) i = Some l2 /\
        nth_error (Anomalize.observed f) i = Some obs /\
        nth_error (Anomalize.observed_clean f) i = Some (Some v) /\
        (d = (-1)%Z -> v == 0 * l1) /\
        (d = 1%Z -> v == 0 * l2) /\
        (d = 0%Z -> v == obs) /\
        (d = (-1)%Z \/ d = 0%Z \/ d = 1%Z) /\
        (a = "Yes"%string -> d <> 0%Z) /\
        (0 == 0 -> a = "Yes"%string -> v == 0).
Proof.
  eexists. split.
  - vm_compute. reflexivity.
  - apply (min_max_cleaning (fun _ => 1%positive) (fun _ => 1%Z)
             [(1%Z, -10 # 1); (2%Z, -10 # 1); (3%Z, 0); (4%Z, 0); (5%Z, 0)]
             (Some 1%positive) (Some 5%Z) "twitter" "additive" "min_max"
             (1 # 2) 0 (1 # 5)).
    + discriminate.
    + vm_compute. reflexivity.
Defined.

(** The order of the two fences: the lower fence is below the upper one
    exactly when [Q1 + Q3 + 2 * (0.15/alpha) * (Q3 - Q1)] is not
    negative. *)
Lemma fence_order_iff (q1 q3 k : Q) :
  - (1) * (q1 + k * (q3 - q1)) <= q3 + k * (q3 - q1)
  <-> 0 <= q1 + q3 + 2 * k * (q3 - q1).
Proof. split; intros H; lra. Qed.

Lemma Qeq_list_Forall2 (l l' : list Q) :
  Qeq_list l l' = true -> Forall2 Qeq l l'.
Proof.
  revert l'. induction l as [|x l IH]; intros [|y l']; simpl; intros H;
    try discriminate; constructor.
  - apply andb_true_iff in H. apply Qeq_bool_iff. apply H.
  - apply IH. apply andb_true_iff in H. apply H.
Qed.

(** C5 (the code at the failing input).  Eight observations, all 0 but a
    spike of 64 at the fourth, decomposed by the seasonal_decompose method
    with period 4 and the default [iqr_alpha = 0.05]: the remainder has
    Q1 = -8 and Q3 = -6, the lower fence is 2 and the upper fence 0, and
    the pipeline returns a frame in which [recomposed_l1], documented as
    the lower bound, is 2 above [recomposed_l2] on every row. *)
Theorem recomposed_bounds_crossed :
  exists f,
    Anomalize._anomalize (fun _ => 1%positive) (fun _ => 1%Z)
      [(1%Z, 0); (2%Z, 0); (3%Z, 0); (4%Z, 64 # 1);
       (5%Z, 0); (6%Z, 0); (7%Z, 0); (8%Z, 0)]
      (Some 4%positive) (Some 4%Z) "seasonal_decompose" "additive" "min_max"
      (5 # 100) (3 # 4) (1 # 5) = Ok f /\
    Forall2 Qeq (Anomalize.remainder f)
      [-7 # 1; -11 # 1; -7 # 1; 25 # 1; -7 # 1; -3 # 1; -7 # 1; -39 # 1] /\
    Forall2 Qeq (Anomalize.recomposed_l1 f)
      [9 # 1; 13 # 1; 9 # 1; 41 # 1; 9 # 1; 5 # 1; 9 # 1; 41 # 1] /\
    Forall2 Qeq (Anomalize.recomposed_l2 f)
      [7 # 1; 11 # 1; 7 # 1; 39 # 1; 7 # 1; 3 # 1; 7 # 1; 39 # 1] /\
    forall (i : nat) (l1 l2 : Q),
      nth_error (Anomalize.recomposed_l1 f) i = Some l1 ->
      nth_error (Anomalize.recomposed_l2 f) i = Some l2 ->
      ~ l1 <= l2.
Proof.
  set (expected_remainder :=
         [-7 # 1; -11 # 1; -7 # 1; 25 # 1; -7 # 1; -3 # 1; -7 # 1; -39 # 1]).
  set (expected_l1 := [9 # 1; 13 # 1; 9 # 1; 41 # 1; 9 # 1; 5 # 1; 9 # 1; 41 # 1]).
  set (expected_l2 := [7 # 1; 11 # 1; 7 # 1; 39 # 1; 7 # 1; 3 # 1; 7 # 1; 39 # 1]).
  assert (Hcheck :
    match Anomalize._anomalize (fun _ => 1%positive) (fun _ => 1%Z)
            [(1%Z, 0); (2%Z, 0); (3%Z, 0); (4%Z, 64 # 1);
             (5%Z, 0); (6%Z, 0); (7%Z, 0); (8%Z, 0)]
            (Some 4%positive) (Some 4%Z) "seasonal_decompose" "additive"
            "min_max" (5 # 100) (3 # 4) (1 # 5) with
    | Ok f =>
      Qeq_list (Anomalize.remainder f) expected_remainder
      && Qeq_list (Anomalize.recomposed_l1 f) expected_l1
      && Qeq_list (Anomalize.recomposed_l2 f) expected_l2
      && forallb (fun p => negb (Qle_bool (fst p) (snd p)))
                 (combine (Anomalize.recomposed_l1 f) (Anomalize.recomposed_l2 f))
    | Raise _ => false
    end = true) by (vm_compute; reflexivity).
  destruct (Anomalize._anomalize _ _ _ _ _ _ _ _ _ _ _) as [f|e];
    [|discriminate Hcheck].
  exists f. split; [reflexivity|].
  apply andb_true_iff in Hcheck. destruct Hcheck as [Hcheck Hgt].
  apply andb_true_iff in Hcheck. destruct Hcheck as [Hcheck H2].
  apply andb_true_iff in Hcheck. destruct Hcheck as [Hr H1].
  split; [apply Qeq_list_Forall2; exact Hr|].
  split; [apply Qeq_list_Forall2; exact H1|].
  split; [apply Qeq_list_Forall2; exact H2|].
  intros i l1 l2 E1 E2 Hle.
  rewrite forallb_forall in Hgt.
  specialize (Hgt (l1, l2)
                  (nth_error_In _ i (nth_error_combine _ _ i l1 l2 E1 E2))).
  cbn [fst snd] in Hgt. apply negb_true_iff in Hgt.
  apply Qle_bool_iff in Hle. congruence.
Qed.

(** The same defect with the twitter method: for the observations
    -10, -10, 0, 0, 0 with period 1, trend 5 and [iqr_alpha = 0.5] the
    lower bound is 7 and the upper bound 3 on every row. *)
Lemma recomposed_bounds_crossed_twitter :
  exists f,
    Anomalize._anomalize (fun _ => 1%positive) (fun _ => 1%Z)
      [(1%Z, -10 # 1); (2%Z, -10 # 1); (3%Z, 0); (4%Z, 0); (5%Z, 0)]
      (Some 1%positive) (Some 5%Z) "twitter" "additive" "min_max"
      (1 # 2) (3 # 4) (1 # 5) = Ok f /\
    Forall (fun l1 => l1 == 7) (Anomalize.recomposed_l1 f) /\
    Forall (fun l2 => l2 == 3) (Anomalize.recomposed_l2 f).
Proof.
  eexists. split; [vm_compute; reflexivity|]. split.
  - cbn [Anomalize.recomposed_l1].
    repeat (apply Forall_cons; [vm_compute; reflexivity|]). apply Forall_nil.
  - cbn [Anomalize.recomposed_l2].
    repeat (apply Forall_cons; [vm_compute; reflexivity|]). apply Forall_nil.
Qed.

(** The pipeline hands [max_anomalies] to the classifier only, so its
    result does not depend on it either. *)
Lemma anomalize_ignores_max_anomalies
  (get_seasonal_frequency : list Z -> positive)
  (get_trend_frequency : list Z -> Z) (data : list (Z * Q))
  (period : option positive) (trend : option Z) (method decomp clean : string)
  (iqr_alpha clean_alpha max_anomalies1 max_anomalies2 : Q) :
  Anomalize._anomalize get_seasonal_frequency get_trend_frequency data period
    trend method decomp clean iqr_alpha clean_alpha max_anomalies1
  = Anomalize._anomalize get_seasonal_frequency get_trend_frequency data period
      trend method decomp clean iqr_alpha clean_alpha max_anomalies2.
Proof. reflexivity. Qed.

(** C7 (as stated) fails: a period longer than the series makes both
    methods raise the [ValueError] of the decomposition routine, not a
    [ConfigurationError]. *)
Lemma short_series_not_configuration_error :
  Anomalize._anomalize (fun _ => 1%positive) (fun _ => 1%Z)
    [(1%Z, 1); (2%Z, 2); (3%Z, 3)]
    (Some 5%positive) (Some 1%Z) "twitter" "additive" "min_max"
    (5 # 100) (3 # 4) (1 # 5) <> Raise ConfigurationError /\
  Anomalize._anomalize (fun _ => 1%positive) (fun _ => 1%Z)
    [(1%Z, 1); (2%Z, 2); (3%Z, 3)]
    (Some 5%positive) (Some 1%Z) "seasonal_decompose" "additive" "min_max"
    (5 # 100) (3 # 4) (1 # 5) <> Raise ConfigurationError.
Proof.
  split; vm_compute; discriminate.
Qed.

Lemma short_series_raises_witness :
  Anomalize._anomalize (fun _ => 1%positive) (fun _ => 1%Z)
    [(1%Z, 1); (2%Z, 2); (3%Z, 3)]
    (Some 5%positive) (Some 1%Z) "twitter" "additive" "min_max"
    (5 # 100) (3 # 4) (1 # 5) = Raise ValueError.
Proof.
  apply (short_series_raises (fun _ => 1%positive) (fun _ => 1%Z)
           [(1%Z, 1); (2%Z, 2); (3%Z, 3)] 5%positive (Some 1%Z)
           "twitter" "additive" "min_max" (5 # 100) (3 # 4) (1 # 5)).
  simpl. lia.
Defined.

(** ** Column order *)

Lemma mem_cons (n c : string) (cols : list string) :
  Labels.mem n (c :: cols) = String.eqb n c || Labels.mem n cols.
Proof. reflexivity. Qed.

Lemma assign_fresh (n : string) (cols : list string) :
  Labels.mem n cols = false -> Labels.assign n cols = cols ++ [n].
Proof. unfold Labels.assign. intros ->. reflexivity. Qed.

Lemma filter_keeps_all {A : Type} (p : A -> bool) (l : list A) :
  (forall a, In a l -> p a = true) -> filter p l = l.
Proof.
  induction l as [|a l IH]; simpl; intros H; [reflexivity|].
  rewrite (H a (or_introl eq_refl)). f_equal. apply IH.
  intros b Hb. apply H. right. exact Hb.
Qed.

Lemma assign_present (n : string) (cols : list string) :
  Labels.mem n cols = true -> Labels.assign n cols = cols.
Proof. unfold Labels.assign. intros ->. reflexivity. Qed.

(** C8 (as amended).  When the timestamp label is not one of the result
    labels, a plain call returns the timestamp column followed by
    observed, seasonal, seasadj, trend, remainder, anomaly, anomaly_score,
    anomaly_direction, recomposed_l1, recomposed_l2 and observed_clean; a
    grouped call puts the grouping columns before them; and with
    [bind_data] a plain call returns the original input columns first,
    followed by the eleven result columns. *)
Theorem output_column_order (data_columns : list string) (date_column : string) :
  Labels.mem date_column Spec.result_columns = false ->
  Anomalize.anomalize_columns None data_columns date_column false
    = Ok (date_column :: Spec.result_columns) /\
  Anomalize.anomalize_columns None data_columns date_column true
    = Ok (data_columns ++ Spec.result_columns) /\
  forall group_names : list string,
    existsb (fun n => Labels.mem n (date_column :: Spec.result_columns))
            group_names = false ->
    Anomalize.anomalize_columns (Some group_names) data_columns date_column
      false
    = Ok (group_names ++ date_column :: Spec.result_columns).
Proof.
  intros Hdate.
  assert (Hneq : forall c, In c Spec.result_columns ->
                           String.eqb c date_column = false).
  { intros c Hc. apply String.eqb_neq. intros ->.
    unfold Labels.mem in Hdate.
    assert (Hex : existsb (String.eqb date_column) Spec.result_columns = true).
    { apply existsb_exists. exists date_column. split; [exact Hc|].
      apply String.eqb_refl. }
    congruence. }
  assert (Hplain : Anomalize._anomalize_columns data_columns date_column false
                   = Ok (date_column :: Spec.result_columns)).
  { unfold Anomalize._anomalize_columns, Anomalize.decompose_columns,
      Labels.reset_index.
    unfold Spec.result_columns in Hdate, Hneq.
    cbn [existsb].
    assert (H5 : Labels.mem date_column
                   ["observed"; "seasonal"; "seasadj"; "trend"; "remainder"]%string
                 = false).
    { unfold Labels.mem in *. cbn [existsb] in *.
      repeat (apply orb_false_iff in Hdate; destruct Hdate as [? Hdate]).
      repeat (apply orb_false_iff; split; auto). }
    rewrite H5. cbn [orb bind app]. cbv zeta.
    repeat
      match goal with
      | |- context [Labels.assign ?n (date_column :: ?l)] =>
        rewrite (assign_fresh n (date_column :: l))
          by (rewrite mem_cons, (Hneq n ltac:(simpl; tauto)); reflexivity);
        cbn [app]
      end.
    rewrite assign_present by (rewrite mem_cons, String.eqb_refl; reflexivity).
    reflexivity. }
  assert (Hbound : Anomalize._anomalize_columns data_columns date_column true
                   = Ok (data_columns ++ Spec.result_columns)).
  { revert Hplain.
    unfold Anomalize._anomalize_columns.
    destruct (Anomalize.decompose_columns date_column) as [r|e];
      cbn [bind]; [|discriminate].
    intros H. apply Ok_inj in H. rewrite H.
    unfold Labels.drop. rewrite mem_cons, String.eqb_refl. cbn [orb bind].
    unfold Labels.concat_axis1. f_equal. f_equal.
    cbn [filter]. rewrite String.eqb_refl. cbn [negb].
    apply filter_keeps_all. intros c Hc. rewrite (Hneq c Hc). reflexivity. }
  split; [exact Hplain|]. split; [exact Hbound|].
  intros group_names Hg.
  unfold Anomalize.anomalize_columns. rewrite Hplain. cbn [bind].
  unfold Labels.reset_index. rewrite Hg. reflexivity.
Qed.

Lemma output_column_order_witness :
  Anomalize.anomalize_columns None ["Date"; "Weekly_Sales"]%string "Date" false
    = Ok ("Date"%string :: Spec.result_columns) /\
  Anomalize.anomalize_columns None ["Date"; "Weekly_Sales"]%string "Date" true
    = Ok (["Date"; "Weekly_Sales"]%string ++ Spec.result_columns) /\
  forall group_names : list string,
    existsb (fun n => Labels.mem n ("Date"%string :: Spec.result_columns))
            group_names = false ->
    Anomalize.anomalize_columns (Some group_names)
      ["Date"; "Weekly_Sales"]%string "Date" false
    = Ok (group_names ++ "Date"%string :: Spec.result_columns).
Proof.
  apply (output_column_order ["Date"; "Weekly_Sales"]%string "Date"%string).
  reflexivity.
Defined.

(** C8 (as stated) fails: with [bind_data] the original input columns come
    first, not after the result columns. *)
Lemma bound_columns_come_first :
  Anomalize.anomalize_columns None ["Date"; "Weekly_Sales"]%string "Date" true
  <> Ok (Spec.output_columns [] ["Date"; "Weekly_Sales"]%string "Date" true).
Proof.
  vm_compute. discriminate.
Qed.

(** ** Expanding windows: the frame is only extended *)

Lemma position_lt (name : string) (cols : list string) (j : nat) :
  Expanding.position name cols = Some j -> (j < length cols)%nat.
Proof.
  revert j. induction cols as [|c cols IH]; simpl; intros j H; [discriminate|].
  destruct (String.eqb name c).
  - injection H as <-. lia.
  - destruct (Expanding.position name cols) as [j'|]; [|discriminate].
    injection H as <-. specialize (IH j' eq_refl). lia.
Qed.

Lemma position_firstn (name : string) (cols : list string) (j n : nat) :
  Expanding.position name cols = Some j -> (j < n)%nat ->
  Expanding.position name (firstn n cols) = Some j.
Proof.
  revert j n. induction cols as [|c cols IH]; simpl; intros j n H Hj;
    [discriminate|].
  destruct n as [|n]; [lia|]. simpl.
  destruct (String.eqb name c); [exact H|].
  destruct (Expanding.position name cols) as [j'|] eqn:E; [|discriminate].
  injection H as <-. rewrite (IH j' n eq_refl); [reflexivity | lia].
Qed.

Lemma position_None_not_In (name : string) (cols : list string) :
  Expanding.position name cols = None <-> ~ In name cols.
Proof.
  induction cols as [|c cols IH]; simpl.
  - split; [intros _ [] | reflexivity].
  - destruct (String.eqb_spec name c) as [->|Hne].
    + split; [discriminate | intros H; exfalso; apply H; left; reflexivity].
    + destruct (Expanding.position name cols) as [j|].
      * split; [discriminate|]. intros H. exfalso.
        destruct IH as [_ IH].
        assert (Hn : ~ In name cols) by (intros Hin; apply H; right; exact Hin).
        specialize (IH Hn). discriminate.
      * split; [|reflexivity]. intros _ [Hc|Hin]; [congruence|].
        destruct IH as [IH _]. apply (IH eq_refl Hin).
Qed.

Lemma set_nth_length (j : nat) (v : Expanding.cell) (l : list Expanding.cell) :
  length (Expanding.set_nth j v l) = length l.
Proof.
  revert j. induction l as [|x l IH]; intros [|j]; simpl; auto.
Qed.

Lemma firstn_set_nth (n j : nat) (v : Expanding.cell) (l : list Expanding.cell) :
  (n <= j)%nat -> firstn n (Expanding.set_nth j v l) = firstn n l.
Proof.
  revert n j. induction l as [|x l IH]; intros n j H.
  - destruct j; reflexivity.
  - destruct j as [|j].
    + assert (n = 0)%nat by lia. subst. reflexivity.
    + destruct n as [|n]; [reflexivity|]. simpl. f_equal. apply IH. lia.
Qed.

Lemma mapM_length {A B : Type} (f : A -> result B) (l : list A) (l' : list B) :
  Expanding.mapM f l = Ok l' -> length l' = length l.
Proof.
  revert l'. induction l as [|a l IH]; simpl; intros l' H.
  - apply Ok_inj in H. subst. reflexivity.
  - inv_bind H. inv_bind H. apply Ok_inj in H. subst l'.
    simpl. f_equal. apply IH. assumption.
Qed.

Lemma mapM_Forall2 {A B : Type} (f : A -> result B) (l : list A) (l' : list B) :
  Expanding.mapM f l = Ok l' -> Forall2 (fun a b => f a = Ok b) l l'.
Proof.
  revert l'. induction l as [|a l IH]; simpl; intros l' H.
  - apply Ok_inj in H. subst. constructor.
  - inv_bind H. inv_bind H. apply Ok_inj in H. subst l'.
    constructor; [assumption | apply IH; assumption].
Qed.

Lemma expanding_length (mp : nat) (f : Expanding.aggregate)
  (col vals : list Expanding.cell) :
  Expanding.expanding mp f col = Ok vals -> length vals = length col.
Proof.
  unfold Expanding.expanding. intros H.
  apply mapM_length in H. rewrite length_seq in H. exact H.
Qed.

Lemma column_length (name : string) (df : Expanding.DataFrame)
  (series : list Expanding.cell) :
  Expanding.column name df = Ok series ->
  length series = length (Expanding.rows df).
Proof.
  unfold Expanding.column.
  destruct (Expanding.position name (Expanding.columns df)); [|discriminate].
  intros H. apply Ok_inj in H. subst. apply length_map.
Qed.

Lemma on_error_Ok {A : Type} (e : exn) (m : result A) (a : A) :
  Expanding.on_error e m = Ok a -> m = Ok a.
Proof. destruct m; simpl; [auto | discriminate]. Qed.

Lemma map_map2_l {A B C D : Type} (f : A -> B -> C) (g : C -> D) (h : A -> D)
  (x : list A) (y : list B) :
  (forall a b, g (f a b) = h a) -> length y = length x ->
  map g (map2 f x y) = map h x.
Proof.
  intros Hg. revert y. induction x as [|a x IH]; intros [|b y] Hl; simpl in *;
    try reflexivity; try discriminate.
  rewrite Hg. f_equal. apply IH. lia.
Qed.

Lemma Forall_map2_l {A B C : Type} (f : A -> B -> C) (P : C -> Prop)
  (Q : A -> Prop) (x : list A) (y : list B) :
  (forall a b, Q a -> P (f a b)) -> Forall Q x -> Forall P (map2 f x y).
Proof.
  intros Hf Hx. revert y. induction Hx as [|a x Ha Hx IH]; intros [|b y];
    simpl; constructor; auto.
Qed.

Section Extension.

(** [orig] is the frame handed to [_augment_expanding_pandas] and
    [names] the labels the call may assign. *)
Variable orig : list string.
Variable names : list string.

Hypothesis names_fresh :
  forall n, In n names -> ~ In n orig.

Local Abbreviation extends_orig := (Expanding.extends_orig orig names).
Local Abbreviation prefix := (Expanding.prefix orig).

Lemma extends_orig_width (df : Expanding.DataFrame) :
  extends_orig df -> (length orig <= length (Expanding.columns df))%nat.
Proof.
  intros (Hc & _ & _).
  pose proof (firstn_le_length (length orig) (Expanding.columns df)) as H.
  apply (f_equal (@length string)) in Hc.
  rewrite length_firstn in Hc. lia.
Qed.

Lemma assign_extends (name : string) (vals : list Expanding.cell)
  (df : Expanding.DataFrame) :
  In name names -> length vals = length (Expanding.rows df) ->
  extends_orig df ->
  extends_orig (Expanding.assign name vals df) /\
  map prefix (Expanding.rows (Expanding.assign name vals df))
  = map prefix (Expanding.rows df).
Proof.
  intros Hname Hlen Hext.
  pose proof (extends_orig_width df Hext) as Hw.
  destruct Hext as (Hc & Hr & Hin).
  unfold Expanding.well_formed in Hr.
  unfold Expanding.assign, Expanding.extends_orig, Expanding.well_formed.
  destruct (Expanding.position name (Expanding.columns df)) as [j|] eqn:E.
  - assert (Hj : (length orig <= j)%nat).
    { destruct (Nat.le_gt_cases (length orig) j) as [|Hlt]; [assumption|].
      exfalso. apply (position_firstn _ _ _ _ E) in Hlt.
      rewrite Hc in Hlt.
      assert (Hnone : Expanding.position name orig = None)
        by (apply position_None_not_In; apply names_fresh; exact Hname).
      congruence. }
    split; [split; [|split]|]; cbn [Expanding.columns Expanding.rows].
    + exact Hc.
    + eapply Forall_map2_l; [|exact Hr].
      intros r v Hrw. cbn [Expanding.cells]. rewrite set_nth_length. exact Hrw.
    + exact Hin.
    + apply map_map2_l; [|exact Hlen].
      intros r v. unfold Expanding.prefix. cbn [Expanding.idx Expanding.cells].
      rewrite firstn_set_nth by exact Hj. reflexivity.
  - split; [split; [|split]|]; cbn [Expanding.columns Expanding.rows].
    + rewrite firstn_app.
      replace (length orig - length (Expanding.columns df))%nat with 0%nat
        by lia.
      simpl firstn. rewrite app_nil_r. exact Hc.
    + eapply Forall_map2_l with
        (Q := fun r => length (Expanding.cells r)
                       = length (Expanding.columns df)); [|exact Hr].
      intros r v Hrw. cbn [Expanding.cells].
      rewrite !length_app, Hrw. reflexivity.
    + intros c Hcin. apply in_app_or in Hcin.
      destruct Hcin as [Hcin|[<-|[]]]; [apply Hin; exact Hcin | right; exact Hname].
    + rewrite Forall_forall in Hr.
      revert Hlen Hr. generalize (Expanding.rows df). intros rs. revert vals.
      induction rs as [|r rs IH]; intros [|v vals] Hlen Hr; simpl in *;
        try reflexivity; try discriminate.
      f_equal.
      * unfold Expanding.prefix. cbn [Expanding.idx Expanding.cells].
        rewrite firstn_app.
        rewrite (Hr r (or_introl eq_refl)).
        replace (length orig - length (Expanding.columns df))%nat with 0%nat
          by lia.
        simpl firstn. rewrite app_nil_r. reflexivity.
      * apply IH; [lia|]. intros r' Hr'. apply Hr. right. exact Hr'.
Qed.

Variable expanding_method : string -> option (Expanding.kwargs -> Expanding.aggregate).

Lemma assign_expanding_extends (mp : nat) (f : Expanding.aggregate)
  (col name : string) (df df' : Expanding.DataFrame) :
  In name names -> extends_orig df ->
  (series <- Expanding.column col df ;;
   vals <- Expanding.expanding mp f series ;;
   Ok (Expanding.assign name vals df)) = Ok df' ->
  extends_orig df' /\
  map prefix (Expanding.rows df') = map prefix (Expanding.rows df).
Proof.
  intros Hname Hext H.
  inv_bind H. rename a into series. inv_bind H. rename a into vals.
  apply Ok_inj in H. subst df'.
  apply assign_extends; [exact Hname | | exact Hext].
  rewrite (expanding_length _ _ _ _ Ha0). eapply column_length. eassumption.
Qed.

Lemma apply_func_extends (mp : nat) (df df' : Expanding.DataFrame)
  (col : string) (func : Expanding.window_fn) :
  (forall n, Expanding.new_column_name col func = Some n -> In n names) ->
  extends_orig df ->
  Expanding.apply_func expanding_method mp df col func = Ok df' ->
  extends_orig df' /\
  map prefix (Expanding.rows df') = map prefix (Expanding.rows df).
Proof.
  intros Hn Hext H.
  destruct func as [func|user_func_name func| | |];
    cbn [Expanding.apply_func] in H; try discriminate.
  - cbn [Expanding.new_column_name] in Hn.
    destruct (String.eqb func "quantile") eqn:Eq.
    + inv_bind H. rename a into series.
      destruct (expanding_method "quantile") as [quantile|]; [|discriminate].
      eapply assign_expanding_extends; [apply Hn; reflexivity | exact Hext |].
      rewrite Ha. cbn [bind]. exact H.
    + inv_bind H. rename a into series.
      destruct (expanding_method func) as [ef|]; [|discriminate].
      eapply assign_expanding_extends; [apply Hn; reflexivity | exact Hext |].
      rewrite Ha. cbn [bind]. exact H.
  - cbn [Expanding.new_column_name] in Hn.
    destruct func as [f|func_name default_kwargs user_kwargs| |];
      try discriminate.
    + apply on_error_Ok in H.
      eapply assign_expanding_extends; [apply Hn; reflexivity | exact Hext |].
      exact H.
    + inv_bind H. rename a into series. apply on_error_Ok in Ha.
      destruct (expanding_method func_name) as [ef|].
      * apply on_error_Ok in H.
        eapply assign_expanding_extends; [apply Hn; reflexivity | exact Hext |].
        rewrite Ha. cbn [bind]. exact H.
      * apply Ok_inj in H. subst df'. split; [exact Hext | reflexivity].
Qed.

Lemma apply_funcs_extends (mp : nat) (col : string)
  (window_func : list Expanding.window_fn) (df df' : Expanding.DataFrame) :
  (forall func n, In func window_func ->
                  Expanding.new_column_name col func = Some n -> In n names) ->
  extends_orig df ->
  Expanding.apply_funcs expanding_method mp df col window_func = Ok df' ->
  extends_orig df' /\
  map prefix (Expanding.rows df') = map prefix (Expanding.rows df).
Proof.
  revert df. induction window_func as [|func rest IH]; intros df Hn Hext H;
    cbn [Expanding.apply_funcs] in H.
  - apply Ok_inj in H. subst. split; [exact Hext | reflexivity].
  - inv_bind H. rename a into df1.
    destruct (apply_func_extends mp df df1 col func) as [Hext1 Hp1];
      [intros n; apply Hn; left; reflexivity | exact Hext | exact Ha |].
    destruct (IH df1) as [Hext' Hp'];
      [intros f n Hf; apply Hn; right; exact Hf | exact Hext1 | exact H |].
    split; [exact Hext' | congruence].
Qed.

Lemma apply_columns_extends (mp : nat) (value_column : list string)
  (window_func : list Expanding.window_fn) (df df' : Expanding.DataFrame) :
  (forall col func n, In col value_column -> In func window_func ->
                      Expanding.new_column_name col func = Some n ->
                      In n names) ->
  extends_orig df ->
  Expanding.apply_columns expanding_method mp df value_column window_func
    = Ok df' ->
  extends_orig df' /\
  map prefix (Expanding.rows df') = map prefix (Expanding.rows df).
Proof.
  revert df. induction value_column as [|col rest IH]; intros df Hn Hext H;
    cbn [Expanding.apply_columns] in H.
  - apply Ok_inj in H. subst. split; [exact Hext | reflexivity].
  - inv_bind H. rename a into df1.
    destruct (apply_funcs_extends mp col window_func df df1) as [Hext1 Hp1];
      [intros f n Hf; apply Hn; [left; reflexivity | exact Hf]
      | exact Hext | exact Ha |].
    destruct (IH df1) as [Hext' Hp'];
      [intros c f n Hc; apply Hn; right; exact Hc | exact Hext1 | exact H |].
    split; [exact Hext' | congruence].
Qed.

End Extension.

(** ** Grouping is a rearrangement of the rows *)

Section Partition.

Context {A K : Type}.
Variable key : A -> K.
Variable eqb : K -> K -> bool.

Hypothesis eqb_sym : forall x y, eqb x y = eqb y x.
Hypothesis eqb_trans :
  forall x y z, eqb x y = true -> eqb y z = true -> eqb x z = true.

Local Abbreviation gather := (groups_of key eqb).

Lemma groups_of_miss (ks : list K) (r : A) (l : list A) :
  (forall k, In k ks -> eqb k (key r) = false) ->
  gather ks (r :: l) = gather ks l.
Proof.
  unfold groups_of. induction ks as [|k ks IH]; intros H; simpl;
    [reflexivity|].
  rewrite (H k (or_introl eq_refl)). f_equal.
  apply IH. intros k' Hk'. apply H. right. exact Hk'.
Qed.

Lemma groups_of_hit (ks : list K) (r : A) (l : list A) :
  ForallOrdPairs (fun a b => eqb a b = false) ks ->
  (exists k, In k ks /\ eqb k (key r) = true) ->
  Permutation (gather ks (r :: l)) (r :: gather ks l).
Proof.
  induction 1 as [|k ks Hk Hks IH]; intros (k0 & Hin & Hk0).
  - destruct Hin.
  - change (gather (k :: ks) (r :: l))
      with (filter (fun r' => eqb k (key r')) (r :: l) ++ gather ks (r :: l)).
    change (gather (k :: ks) l)
      with (filter (fun r' => eqb k (key r')) l ++ gather ks l).
    cbn [filter].
    destruct (eqb k (key r)) eqn:E.
    + rewrite groups_of_miss; [apply Permutation_refl|].
      intros k' Hk'.
      destruct (eqb k' (key r)) eqn:E'; [|reflexivity].
      rewrite Forall_forall in Hk. specialize (Hk k' Hk').
      assert (Hkk : eqb k k' = true).
      { apply (eqb_trans k (key r) k'); [exact E|].
        rewrite eqb_sym. exact E'. }
      congruence.
    + destruct Hin as [->|Hin]; [congruence|].
      eapply Permutation_trans.
      * apply Permutation_app_head. apply IH. exists k0. auto.
      * apply Permutation_sym. apply Permutation_middle.
Qed.

Lemma groups_of_perm (ks : list K) (l : list A) :
  ForallOrdPairs (fun a b => eqb a b = false) ks ->
  (forall r, In r l -> exists k, In k ks /\ eqb k (key r) = true) ->
  Permutation (gather ks l) l.
Proof.
  intros Hsep. induction l as [|r l IH]; intros Hcov.
  - unfold groups_of. clear. induction ks as [|k ks IH]; simpl;
      [apply perm_nil | exact IH].
  - eapply Permutation_trans.
    + apply groups_of_hit; [exact Hsep|]. apply Hcov. left. reflexivity.
    + apply perm_skip. apply IH. intros r' Hr'. apply Hcov. right. exact Hr'.
Qed.

Lemma filter_ForallOrdPairs (R : K -> K -> Prop) (p : K -> bool) (l : list K) :
  ForallOrdPairs R l -> ForallOrdPairs R (filter p l).
Proof.
  induction 1 as [|a l Ha Hl IH]; simpl; [constructor|].
  destruct (p a); [|exact IH].
  constructor; [|exact IH].
  rewrite Forall_forall in *. intros x Hx. apply Ha.
  apply filter_In in Hx. apply Hx.
Qed.

Lemma distinct_separated (ks : list K) :
  ForallOrdPairs (fun a b => eqb a b = false) (distinct eqb ks).
Proof.
  induction ks as [|k ks IH]; simpl; constructor.
  - rewrite Forall_forall. intros x Hx. apply filter_In in Hx.
    destruct Hx as [_ Hx]. apply negb_true_iff in Hx. exact Hx.
  - apply filter_ForallOrdPairs. exact IH.
Qed.

Lemma distinct_covers (ks : list K) :
  (forall k, In k ks -> eqb k k = true) ->
  forall k, In k ks -> exists k', In k' (distinct eqb ks) /\ eqb k' k = true.
Proof.
  induction ks as [|k0 ks IH]; intros Hrefl k Hk; [destruct Hk|].
  simpl. destruct (eqb k0 k) eqn:E.
  - exists k0. split; [left; reflexivity | exact E].
  - destruct Hk as [->|Hk].
    + rewrite (Hrefl k (or_introl eq_refl)) in E. discriminate.
    + destruct (IH (fun x Hx => Hrefl x (or_intror Hx)) k Hk) as (k' & Hk' & Ek').
      exists k'. split; [|exact Ek'].
      right. apply filter_In. split; [exact Hk'|].
      apply negb_true_iff.
      destruct (eqb k0 k') eqn:E0; [|reflexivity].
      rewrite (eqb_trans k0 k' k E0 Ek') in E. discriminate.
Qed.

End Partition.

Lemma Qeq_bool_sym' (x y : Q) : Qeq_bool x y = Qeq_bool y x.
Proof.
  destruct (Qeq_bool x y) eqn:E; destruct (Qeq_bool y x) eqn:E';
    try reflexivity.
  - apply Qeq_bool_iff in E. symmetry in E. apply Qeq_bool_iff in E. congruence.
  - apply Qeq_bool_iff in E'. symmetry in E'. apply Qeq_bool_iff in E'.
    congruence.
Qed.

Lemma cell_eqb_sym (a b : Expanding.cell) :
  Expanding.cell_eqb a b = Expanding.cell_eqb b a.
Proof.
  destruct a, b; simpl; try reflexivity.
  - apply Qeq_bool_sym'.
  - apply Z.eqb_sym.
  - apply String.eqb_sym.
  - apply Z.eqb_sym.
Qed.

Lemma cell_eqb_trans (a b c : Expanding.cell) :
  Expanding.cell_eqb a b = true -> Expanding.cell_eqb b c = true ->
  Expanding.cell_eqb a c = true.
Proof.
  destruct a, b; simpl; try discriminate; destruct c; simpl; try discriminate.
  - intros H1 H2. apply Qeq_bool_iff in H1, H2. apply Qeq_bool_iff.
    rewrite H1. exact H2.
  - intros H1 H2. apply Z.eqb_eq in H1, H2. apply Z.eqb_eq. congruence.
  - intros H1 H2. apply String.eqb_eq in H1, H2. apply String.eqb_eq. congruence.
  - intros H1 H2. apply Z.eqb_eq in H1, H2. apply Z.eqb_eq. congruence.
Qed.

Lemma cell_eqb_refl (a : Expanding.cell) :
  Expanding.is_nan a = false -> Expanding.cell_eqb a a = true.
Proof.
  destruct a; simpl; try discriminate; intros _.
  - apply Qeq_bool_iff. reflexivity.
  - apply Z.eqb_refl.
  - apply String.eqb_refl.
  - apply Z.eqb_refl.
Qed.

Lemma key_eqb_sym (a b : list Expanding.cell) :
  Expanding.key_eqb a b = Expanding.key_eqb b a.
Proof.
  revert b. induction a as [|x a IH]; intros [|y b]; simpl; try reflexivity.
  rewrite cell_eqb_sym, IH. reflexivity.
Qed.

Lemma key_eqb_trans (a b c : list Expanding.cell) :
  Expanding.key_eqb a b = true -> Expanding.key_eqb b c = true ->
  Expanding.key_eqb a c = true.
Proof.
  revert b c. induction a as [|x a IH]; intros [|y b] [|z c]; simpl;
    try discriminate; try reflexivity.
  intros H1 H2. apply andb_true_iff in H1, H2.
  destruct H1 as [H1 H1']. destruct H2 as [H2 H2'].
  apply andb_true_iff. split.
  - eapply cell_eqb_trans; eassumption.
  - eapply IH; eassumption.
Qed.

Lemma key_eqb_refl (a : list Expanding.cell) :
  existsb Expanding.is_nan a = false -> Expanding.key_eqb a a = true.
Proof.
  induction a as [|x a IH]; simpl; [reflexivity|].
  intros H. apply orb_false_iff in H. destruct H as [Hx Ha].
  rewrite (cell_eqb_refl x Hx), (IH Ha). reflexivity.
Qed.

(** ** A list sorted on distinct keys has one arrangement *)

Section SortedUnique.

Context {A : Type}.
Variable k : A -> Z.

Lemma sorted_perm_unique (l1 l2 : list A) :
  Permutation l1 l2 ->
  StronglySorted (fun a b => (k a < k b)%Z) l1 ->
  Sorted (fun a b => (k a <= k b)%Z) l2 ->
  l1 = l2.
Proof.
  intros Hp H1 H2.
  assert (H2' : StronglySorted (fun a b => (k a <= k b)%Z) l2).
  { apply Sorted_StronglySorted; [|exact H2].
    intros x y z Hxy Hyz. lia. }
  clear H2. revert l2 Hp H2'.
  induction H1 as [|a l1 Hs1 IH Ha]; intros l2 Hp H2.
  - apply Permutation_nil in Hp. subst. reflexivity.
  - destruct l2 as [|b l2].
    + apply Permutation_sym, Permutation_nil in Hp. discriminate.
    + inversion H2 as [|? ? Hs2 Hb]; subst.
      assert (Hab : a = b).
      { assert (Hbin : In b (a :: l1))
          by (eapply Permutation_in; [apply Permutation_sym; exact Hp|];
              left; reflexivity).
        assert (Hain : In a (b :: l2))
          by (eapply Permutation_in; [exact Hp|]; left; reflexivity).
        destruct Hbin as [Heq|Hbin]; [exact Heq|].
        destruct Hain as [Heq|Hain]; [symmetry; exact Heq|].
        rewrite Forall_forall in Ha, Hb.
        specialize (Ha b Hbin). specialize (Hb a Hain). lia. }
      subst b. f_equal. apply IH; [|exact Hs2].
      eapply Permutation_cons_inv. exact Hp.
Qed.

End SortedUnique.

Lemma Sorted_map {A B : Type} (f : A -> B) (R : B -> B -> Prop) (l : list A) :
  Sorted (fun a b => R (f a) (f b)) l -> Sorted R (map f l).
Proof.
  induction 1 as [|a l Hs IH Hhd]; simpl; constructor; [exact IH|].
  destruct Hhd; simpl; constructor. assumption.
Qed.

Lemma StronglySorted_map {A B : Type} (f : A -> B) (R : B -> B -> Prop)
  (l : list A) :
  StronglySorted R (map f l) -> StronglySorted (fun a b => R (f a) (f b)) l.
Proof.
  induction l as [|a l IH]; simpl; intros H; [constructor|].
  inversion H as [|? ? Hs Hall]; subst.
  constructor; [apply IH; exact Hs|].
  rewrite Forall_forall in *. intros x Hx. apply Hall. apply in_map. exact Hx.
Qed.

(** ** [_augment_expanding_pandas] *)

Lemma sort_values_inv (by_ : list string) (df sorted : Expanding.DataFrame) :
  Expanding.sort_values by_ df = Ok sorted ->
  Expanding.columns sorted = Expanding.columns df /\
  Permutation (Expanding.rows df) (Expanding.rows sorted).
Proof.
  unfold Expanding.sort_values. intros H. inv_bind H.
  apply Ok_inj in H. subst sorted. split; [reflexivity|].
  cbn [Expanding.rows]. apply isort_perm.
Qed.

Lemma flat_map_rows_map (cols : list string)
  (f : list Expanding.cell -> list Expanding.Row) (ks : list (list Expanding.cell)) :
  flat_map Expanding.rows (map (fun k => Expanding.mkFrame cols (f k)) ks)
  = flat_map f ks.
Proof.
  induction ks as [|k ks IH]; simpl; [reflexivity|]. rewrite IH. reflexivity.
Qed.

Lemma groupby_inv (names : list string) (df : Expanding.DataFrame)
  (gs : list Expanding.DataFrame) :
  (forall js, Expanding.positions names (Expanding.columns df) = Ok js ->
              Forall (fun r => existsb Expanding.is_nan (Expanding.key js r) = false)
                     (Expanding.rows df)) ->
  Expanding.groupby names df = Ok gs ->
  Forall (fun g => Expanding.columns g = Expanding.columns df /\
                   incl (Expanding.rows g) (Expanding.rows df)) gs /\
  Permutation (flat_map Expanding.rows gs) (Expanding.rows df).
Proof.
  intros Hnan H. unfold Expanding.groupby in H.
  inv_bind H. rename a into js. specialize (Hnan js Ha).
  rewrite Forall_forall in Hnan.
  rewrite (filter_keeps_all _ (Expanding.rows df)) in H
    by (intros r Hr; rewrite (Hnan r Hr); reflexivity).
  apply Ok_inj in H. subst gs. split.
  - apply Forall_forall. intros g Hg. apply in_map_iff in Hg.
    destruct Hg as (k & <- & _). split; [reflexivity|].
    cbn [Expanding.rows]. intros r Hr. apply filter_In in Hr. apply Hr.
  - rewrite flat_map_rows_map.
    apply (groups_of_perm (Expanding.key js) Expanding.key_eqb
             key_eqb_sym key_eqb_trans).
    + apply distinct_separated.
    + intros r Hr.
      destruct (distinct_covers Expanding.key_eqb key_eqb_trans
                  (map (Expanding.key js) (Expanding.rows df)))
        with (k := Expanding.key js r) as (k' & Hk' & Ek').
      * intros k Hk. apply in_map_iff in Hk. destruct Hk as (r' & <- & Hr').
        apply key_eqb_refl. apply Hnan. exact Hr'.
      * apply in_map. exact Hr.
      * exists k'. split; [exact Hk' | exact Ek'].
Qed.

Lemma Forall_perm {A : Type} (P : A -> Prop) (l l' : list A) :
  Permutation l l' -> Forall P l -> Forall P l'.
Proof.
  intros Hp H. rewrite Forall_forall in *. intros x Hx. apply H.
  eapply Permutation_in; [apply Permutation_sym; exact Hp | exact Hx].
Qed.

Lemma map_prefix_flat_map (orig : list string)
  (gs gs' : list Expanding.DataFrame) :
  Forall2 (fun g g' => map (Expanding.prefix orig) (Expanding.rows g')
                       = map (Expanding.prefix orig) (Expanding.rows g)) gs gs' ->
  map (Expanding.prefix orig) (flat_map Expanding.rows gs')
  = map (Expanding.prefix orig) (flat_map Expanding.rows gs).
Proof.
  induction 1 as [|g g' gs gs' Hg Hgs IH]; simpl; [reflexivity|].
  rewrite !map_app, Hg, IH. reflexivity.
Qed.

(** C10 (as amended).  For a frame whose index labels are strictly
    increasing, whose rows are as wide as its columns, whose group keys
    hold no NaN and whose labels are distinct from the labels the call
    assigns, a successful call of [_augment_expanding_pandas] returns the
    rows in the original order with their original index labels, every
    original column in its place with its original values, and besides
    them only columns labelled [<col>_expanding_<name>], or
    [<col>_expanding_quantile_50] for the function given as
    ["quantile"]. *)
Theorem augment_expanding_extends
  (expanding_method : string -> option (Expanding.kwargs -> Expanding.aggregate))
  (data : Expanding.Input) (date_column : string)
  (value_column : list string) (window_func : list Expanding.window_fn)
  (min_periods : nat) (out : Expanding.DataFrame) :
  Expanding.well_formed (Expanding.data_copy data) ->
  StronglySorted Z.lt
    (map Expanding.idx (Expanding.rows (Expanding.data_copy data))) ->
  (forall n, In n (Expanding.new_column_names value_column window_func) ->
             ~ In n (Expanding.columns (Expanding.data_copy data))) ->
  Expanding.no_nan_keys data ->
  Expanding._augment_expanding_pandas expanding_method data date_column
    value_column window_func min_periods = Ok out ->
  map Expanding.idx (Expanding.rows out)
  = map Expanding.idx (Expanding.rows (Expanding.data_copy data)) /\
  map (fun r => firstn (length (Expanding.columns (Expanding.data_copy data)))
                       (Expanding.cells r))
      (Expanding.rows out)
  = map Expanding.cells (Expanding.rows (Expanding.data_copy data)) /\
  firstn (length (Expanding.columns (Expanding.data_copy data)))
         (Expanding.columns out)
  = Expanding.columns (Expanding.data_copy data) /\
  (forall c, In c (Expanding.columns out) ->
             In c (Expanding.columns (Expanding.data_copy data)) \/
             In c (Expanding.new_column_names value_column window_func)).
Proof.
  set (df := Expanding.data_copy data).
  set (orig := Expanding.columns df).
  set (names := Expanding.new_column_names value_column window_func).
  intros Hwf Hinc Hfresh Hnan Hrun.
  unfold Expanding._augment_expanding_pandas in Hrun. fold df in Hrun.
  inv_bind Hrun. rename a into grouped.
  inv_bind Hrun. rename a into result_dfs.
  inv_bind Hrun. rename a into result_df.
  apply Ok_inj in Hrun. subst out.
  (* the groups: frames over the original columns, a rearrangement of the rows *)
  assert (Hgrouped :
    Forall (fun g => Expanding.columns g = orig /\
                     incl (Expanding.rows g) (Expanding.rows df)) grouped /\
    Permutation (flat_map Expanding.rows grouped) (Expanding.rows df)).
  { destruct data as [d|obj group_names]; cbn [Expanding.data_copy] in *.
    - inv_bind Ha. rename a into sorted. apply Ok_inj in Ha. subst grouped.
      destruct (sort_values_inv _ _ _ Ha2) as [Hc Hp].
      split.
      + constructor; [|constructor]. split; [exact Hc|].
        intros r Hr. eapply Permutation_in; [apply Permutation_sym; exact Hp|].
        exact Hr.
      + simpl. rewrite app_nil_r. apply Permutation_sym. exact Hp.
    - inv_bind Ha. rename a into sorted.
      destruct (sort_values_inv _ _ _ Ha2) as [Hc Hp].
      destruct (groupby_inv group_names sorted grouped) as [Hall Hperm].
      + intros js Hjs. rewrite Hc in Hjs.
        eapply Forall_perm; [exact Hp|]. apply Hnan. exact Hjs.
      + exact Ha.
      + split.
        * eapply Forall_impl; [|exact Hall].
          intros g [Hgc Hgr]. split; [rewrite Hgc; exact Hc|].
          intros r Hr. eapply Permutation_in; [apply Permutation_sym; exact Hp|].
          apply Hgr. exact Hr.
        * eapply Permutation_trans; [exact Hperm|].
          apply Permutation_sym. exact Hp. }
  destruct Hgrouped as [Hall Hperm].
  (* every group is only extended *)
  assert (Hnames : forall col func n, In col value_column -> In func window_func ->
            Expanding.new_column_name col func = Some n -> In n names).
  { intros col func n Hcol Hfunc Hn. unfold names, Expanding.new_column_names.
    apply in_flat_map. exists col. split; [exact Hcol|].
    apply in_flat_map. exists func. split; [exact Hfunc|].
    rewrite Hn. left. reflexivity. }
  assert (Hstep : Forall2
    (fun g g' => Expanding.extends_orig orig names g' /\
                 map (Expanding.prefix orig) (Expanding.rows g')
                 = map (Expanding.prefix orig) (Expanding.rows g))
    grouped result_dfs).
  { apply mapM_Forall2 in Ha0.
    clear Hperm Ha1 Ha. revert Hall.
    induction Ha0 as [|g g' gs gs' Hg Hgs IH]; intros Hall; constructor.
    - inversion Hall as [|? ? [Hgc Hgr] _]; subst.
      eapply (apply_columns_extends orig names Hfresh expanding_method);
        [exact Hnames | | exact Hg].
      split; [|split].
      + rewrite Hgc. apply firstn_all.
      + unfold Expanding.well_formed in *. rewrite Forall_forall in *.
        intros r Hr. rewrite Hgc. apply Hwf. apply Hgr. exact Hr.
      + intros c Hc. left. rewrite <- Hgc. exact Hc.
    - apply IH. inversion Hall; assumption. }
  assert (Hprefix :
    map (Expanding.prefix orig) (flat_map Expanding.rows result_dfs)
    = map (Expanding.prefix orig) (flat_map Expanding.rows grouped)).
  { apply map_prefix_flat_map. eapply Forall2_impl; [|exact Hstep].
    intros g g' [_ H]. exact H. }
  (* the frames are concatenated and sorted on the index *)
  unfold Expanding.concat in Ha1.
  destruct result_dfs as [|first rest] eqn:Eres; [discriminate|].
  apply Ok_inj in Ha1. subst result_df.
  cbn [Expanding.sort_index Expanding.columns Expanding.rows].
  set (concatenated := flat_map Expanding.rows (first :: rest)) in *.
  set (final := isort (fun a b => (Expanding.idx a <=? Expanding.idx b)%Z)
                      concatenated).
  assert (Hwide : forall r, In r (Expanding.rows df) ->
            firstn (length orig) (Expanding.cells r) = Expanding.cells r).
  { intros r Hr. unfold Expanding.well_formed in Hwf.
    rewrite Forall_forall in Hwf. apply firstn_all2.
    rewrite (Hwf r Hr). unfold orig. lia. }
  assert (Heq : map (Expanding.prefix orig) (Expanding.rows df)
                = map (Expanding.prefix orig) final).
  { apply (sorted_perm_unique fst).
    - apply Permutation_trans
        with (map (Expanding.prefix orig) (flat_map Expanding.rows grouped)).
      + apply Permutation_map. apply Permutation_sym. exact Hperm.
      + rewrite <- Hprefix. apply Permutation_map. apply isort_perm.
    - apply StronglySorted_map.
      rewrite map_map. cbn [Expanding.prefix fst]. exact Hinc.
    - apply Sorted_map with (f := Expanding.prefix orig)
                            (R := fun a b => (fst a <= fst b)%Z).
      cbn [Expanding.prefix fst].
      eapply Sorted_weaken; [|apply isort_sorted].
      + intros a b Hab. apply Z.leb_le. exact Hab.
      + intros x y. destruct (Z.leb_spec (Expanding.idx x) (Expanding.idx y));
          [left; reflexivity|]. right. apply Z.leb_le. lia. }
  assert (Hfirst : Expanding.extends_orig orig names first).
  { inversion Hstep as [|? ? ? ? [H _] _]; subst. exact H. }
  destruct Hfirst as (Hcols & _ & Hlabels).
  split; [|split; [|split]].
  - apply (f_equal (map fst)) in Heq. rewrite !map_map in Heq.
    cbn [Expanding.prefix fst] in Heq. symmetry. exact Heq.
  - apply (f_equal (map snd)) in Heq. rewrite !map_map in Heq.
    cbn [Expanding.prefix snd] in Heq. rewrite <- Heq.
    apply map_ext_in. intros r Hr. apply Hwide. exact Hr.
  - exact Hcols.
  - exact Hlabels.
Qed.

Lemma augment_expanding_extends_witness :
  exists out,
    Expanding._augment_expanding_pandas Expanding.pandas_methods
      (Expanding.GroupBy
         (Expanding.mkFrame ["id"; "date"; "value"]%string
            [Expanding.mkRow 0 [Expanding.Str "b"; Expanding.Timestamp 2;
                                Expanding.Float 10];
             Expanding.mkRow 1 [Expanding.Str "a"; Expanding.Timestamp 5;
                                Expanding.Float 1];
             Expanding.mkRow 2 [Expanding.Str "b"; Expanding.Timestamp 1;
                                Expanding.Float 20];
             Expanding.mkRow 3 [Expanding.Str "a"; Expanding.Timestamp 4;
                                Expanding.Float 2]])
         ["id"%string])
      "date" ["value"%string]
      [Expanding.FuncStr "mean"; Expanding.FuncStr "quantile"] 1 = Ok out /\
    map Expanding.idx (Expanding.rows out) = [0; 1; 2; 3]%Z /\
    map (fun r => firstn 3 (Expanding.cells r)) (Expanding.rows out)
    = [[Expanding.Str "b"; Expanding.Timestamp 2; Expanding.Float 10];
       [Expanding.Str "a"; Expanding.Timestamp 5; Expanding.Float 1];
       [Expanding.Str "b"; Expanding.Timestamp 1; Expanding.Float 20];
       [Expanding.Str "a"; Expanding.Timestamp 4; Expanding.Float 2]] /\
    firstn 3 (Expanding.columns out) = ["id"; "date"; "value"]%string /\
    (forall c, In c (Expanding.columns out) ->
               In c ["id"; "date"; "value"]%string \/
               In c ["value_expanding_mean";
                     "value_expanding_quantile_50"]%string).
Proof.
  eexists. split.
  - vm_compute. reflexivity.
  - apply (augment_expanding_extends Expanding.pandas_methods
             (Expanding.GroupBy
                (Expanding.mkFrame ["id"; "date"; "value"]%string
                   [Expanding.mkRow 0 [Expanding.Str "b"; Expanding.Timestamp 2;
                                       Expanding.Float 10];
                    Expanding.mkRow 1 [Expanding.Str "a"; Expanding.Timestamp 5;
                                       Expanding.Float 1];
                    Expanding.mkRow 2 [Expanding.Str "b"; Expanding.Timestamp 1;
                                       Expanding.Float 20];
                    Expanding.mkRow 3 [Expanding.Str "a"; Expanding.Timestamp 4;
                                       Expanding.Float 2]])
                ["id"%string])
             "date"%string ["value"%string]
             [Expanding.FuncStr "mean"; Expanding.FuncStr "quantile"] 1%nat).
    + repeat constructor.
    + repeat constructor; reflexivity.
    + intros n Hn. simpl in Hn.
      destruct Hn as [<-|[<-|[]]]; simpl; intros [H|[H|[H|[]]]]; discriminate H.
    + intros js Hjs. vm_compute in Hjs. injection Hjs as <-.
      repeat constructor.
    + vm_compute. reflexivity.
Defined.

(** C10 (as stated) fails: a frame whose index labels are 1, 0 comes back
    with its rows in the order 0, 1, and the function given as
    ["quantile"] adds the column [value_expanding_quantile_50], not
    [value_expanding_quantile]. *)
Lemma augment_expanding_reorders_rows :
  exists out,
    Expanding._augment_expanding_pandas Expanding.pandas_methods
      (Expanding.Frame
         (Expanding.mkFrame ["date"; "value"]%string
            [Expanding.mkRow 1 [Expanding.Timestamp 1; Expanding.Float 5];
             Expanding.mkRow 0 [Expanding.Timestamp 2; Expanding.Float 7]]))
      "date" ["value"%string] [Expanding.FuncStr "quantile"] 1 = Ok out /\
    map Expanding.idx (Expanding.rows out) <> [1; 0]%Z /\
    map (fun r => firstn 2 (Expanding.cells r)) (Expanding.rows out)
    <> [[Expanding.Timestamp 1; Expanding.Float 5];
        [Expanding.Timestamp 2; Expanding.Float 7]] /\
    ~ In "value_expanding_quantile"%string (Expanding.columns out).
Proof.
  eexists. split; [vm_compute; reflexivity|].
  split; [|split].
  - vm_compute. discriminate.
  - vm_compute. discriminate.
  - simpl. intros [H|[H|[H|[]]]]; discriminate H.
Qed.

(** * Further properties of the anomaly pipeline *)

(** ** The cleaning step *)

Lemma interpolate_from_length (prev : option (nat * Q)) (x : list (option Q)) :
  length (Anomalize.interpolate_from prev x) = length x.
Proof.
  revert prev. induction x as [|[v|] x IH]; intros prev; simpl;
    [reflexivity | |]; rewrite IH; reflexivity.
Qed.

Lemma interpolate_from_keeps (prev : option (nat * Q)) (x : list (option Q))
  (i : nat) (v : Q) :
  nth_error x i = Some (Some v) ->
  nth_error (Anomalize.interpolate_from prev x) i = Some (Some v).
Proof.
  revert prev i. induction x as [|[w|] x IH]; intros prev [|i]; simpl;
    try discriminate; auto.
Qed.

Lemma next_valid_In (x : list (option Q)) (d : nat) (v : Q) :
  Anomalize.next_valid x = Some (d, v) -> In (Some v) x.
Proof.
  revert d. induction x as [|[w|] x IH]; intros d; simpl; [discriminate | |].
  - intros H. injection H as _ <-. left. reflexivity.
  - destruct (Anomalize.next_valid x) as [[d' v']|]; [|discriminate].
    intros H. injection H as _ <-. right. eapply IH. reflexivity.
Qed.

Lemma next_valid_None (x : list (option Q)) (v : Q) :
  Anomalize.next_valid x = None -> ~ In (Some v) x.
Proof.
  induction x as [|[w|] x IH]; simpl; [auto | discriminate |].
  destruct (Anomalize.next_valid x) as [[d' v']|]; [discriminate|].
  intros _ [H|H]; [discriminate | apply IH; auto].
Qed.

(** Once a value has been seen, or when one is still to come, linear
    interpolation in both directions leaves no NaN. *)
Lemma interpolate_from_fills (prev : option (nat * Q)) (x : list (option Q)) :
  (prev <> None \/ exists v, In (Some v) x) ->
  Forall (fun o => o <> None) (Anomalize.interpolate_from prev x).
Proof.
  revert prev. induction x as [|[w|] x IH]; intros prev H; simpl.
  - constructor.
  - constructor; [discriminate|]. apply IH. left. discriminate.
  - constructor.
    + destruct prev as [[dp a]|].
      * destruct (Anomalize.next_valid x) as [[dn b]|]; discriminate.
      * destruct H as [H|[v [H|H]]]; [congruence | discriminate |].
        destruct (Anomalize.next_valid x) as [[dn b]|] eqn:E; [discriminate|].
        exfalso. apply (next_valid_None x v E H).
    + apply IH. destruct prev as [[dp a]|].
      * left. discriminate.
      * right. destruct H as [H|[v [H|H]]]; [congruence | discriminate | eauto].
Qed.

Lemma convex_between (lo hi a b t : Q) :
  lo <= a -> a <= hi -> lo <= b -> b <= hi -> 0 <= t -> t <= 1 ->
  lo <= a + (b - a) * t /\ a + (b - a) * t <= hi.
Proof. intros. split; nra. Qed.

Lemma natQ_ratio (dp dn : nat) :
  0 <= Sm.natQ dp / Sm.natQ (dp + dn + 1) /\
  Sm.natQ dp / Sm.natQ (dp + dn + 1) <= 1.
Proof.
  unfold Sm.natQ.
  assert (Hpos : 0 < inject_Z (Z.of_nat (dp + dn + 1))).
  { change 0 with (inject_Z 0). rewrite <- Zlt_Qlt. lia. }
  assert (H0 : 0 <= inject_Z (Z.of_nat dp)).
  { change 0 with (inject_Z 0). rewrite <- Zle_Qle. lia. }
  assert (H1 : inject_Z (Z.of_nat dp) <= inject_Z (Z.of_nat (dp + dn + 1))).
  { rewrite <- Zle_Qle. lia. }
  split.
  - apply Qle_shift_div_l; [exact Hpos|]. rewrite Qmult_0_l. exact H0.
  - apply Qle_shift_div_r; [exact Hpos|]. rewrite Qmult_1_l. exact H1.
Qed.

(** Interpolated values stay within any interval that holds the defined
    values. *)
Lemma interpolate_from_bounds (lo hi : Q) (prev : option (nat * Q))
  (x : list (option Q)) :
  (forall d a, prev = Some (d, a) -> lo <= a /\ a <= hi) ->
  (forall v, In (Some v) x -> lo <= v /\ v <= hi) ->
  forall v, In (Some v) (Anomalize.interpolate_from prev x) ->
            lo <= v /\ v <= hi.
Proof.
  revert prev. induction x as [|[w|] x IH]; intros prev Hprev Hx v; simpl.
  - intros [].
  - intros [H|H].
    + injection H as <-. apply Hx. left. reflexivity.
    + apply (IH (Some (1%nat, w))); [| |exact H].
      * intros d a E. injection E as _ <-. apply Hx. left. reflexivity.
      * intros u Hu. apply Hx. right. exact Hu.
  - intros [H|H].
    + destruct prev as [[dp a]|].
      * destruct (Hprev dp a eq_refl) as [Ha1 Ha2].
        destruct (Anomalize.next_valid x) as [[dn b]|] eqn:E.
        -- injection H as <-.
           destruct (Hx b (or_intror (next_valid_In x dn b E))) as [Hb1 Hb2].
           destruct (natQ_ratio dp dn) as [Ht0 Ht1].
           apply convex_between; assumption.
        -- injection H as <-. auto.
      * destruct (Anomalize.next_valid x) as [[dn b]|] eqn:E; [|discriminate].
        injection H as <-. apply Hx. right. eapply next_valid_In. exact E.
    + eapply IH; [| |exact H].
      * intros d a E. destruct prev as [[dp a']|]; [|discriminate].
        injection E as _ <-. eapply Hprev. reflexivity.
      * intros u Hu. apply Hx. right. exact Hu.
Qed.

Lemma nth_error_map_inv {A B : Type} (f : A -> B) (l : list A) (i : nat) (b : B) :
  nth_error (map f l) i = Some b ->
  exists a, nth_error l i = Some a /\ f a = b.
Proof.
  rewrite nth_error_map. destruct (nth_error l i) as [a|]; simpl; intros H.
  - injection H as <-. exists a. auto.
  - discriminate.
Qed.

Lemma mask_nth (cond : list bool) (x : list Q) (i : nat) (c : bool) (v : Q) :
  nth_error cond i = Some c -> nth_error x i = Some v ->
  nth_error (Anomalize.mask cond x) i = Some (if c then Some v else None).
Proof.
  intros Hc Hx. unfold Anomalize.mask. apply nth_error_map2.
  exists c, v. auto.
Qed.

Lemma mask_In (cond : list bool) (x : list Q) (v : Q) :
  In (Some v) (Anomalize.mask cond x) ->
  exists i, nth_error cond i = Some true /\ nth_error x i = Some v.
Proof.
  intros H. apply In_nth_error in H. destruct H as [i Hi].
  unfold Anomalize.mask in Hi. apply nth_error_map2 in Hi.
  destruct Hi as (c & w & Hc & Hw & E). exists i.
  destruct c; [|discriminate]. injection E as <-. auto.
Qed.

Section PipelineShape.

Variable get_seasonal_frequency : list Z -> positive.
Variable get_trend_frequency : list Z -> Z.

Local Abbreviation _anomalize :=
(Anomalize._anomalize get_seasonal_frequency get_trend_frequency).

Lemma _anomalize_linear_inv data period trend method decomp
iqr_alpha clean_alpha max_anomalies f :
_anomalize data period trend method decomp "linear" iqr_alpha clean_alpha
  max_anomalies = Ok f ->
Anomalize.observed_clean f
= Anomalize.interpolate
    (Anomalize.mask (map (fun a => String.eqb a "No") (Anomalize.anomaly f))
                    (Anomalize.observed f)).
Proof.
unfold Anomalize._anomalize. intros H.
inv_bind H. inv_bind H. apply Ok_inj in H. subst f. reflexivity.
Qed.

Lemma pipeline_lengths data period trend method decomp clean
iqr_alpha clean_alpha max_anomalies f :
_anomalize data period trend method decomp clean iqr_alpha clean_alpha
  max_anomalies = Ok f ->
Anomalize.date f = map fst data /\
Anomalize.observed f = map snd data /\
length (Anomalize.seasonal f) = length data /\
length (Anomalize.seasadj f) = length data /\
length (Anomalize.trend f) = length data /\
length (Anomalize.remainder f) = length data /\
length (Anomalize.anomaly f) = length data /\
length (Anomalize.anomaly_score f) = length data /\
length (Anomalize.anomaly_direction f) = length data /\
length (Anomalize.recomposed_l1 f) = length data /\
length (Anomalize.recomposed_l2 f) = length data /\
length (Anomalize.observed_clean f) = length data.
Proof.
intros Hrun.
destruct (_anomalize_inv _ _ _ _ _ _ _ _ _ _ _ _ Hrun)
  as (fr & out & Hdec & Hiqr & Hdate & Hobs & Hs & Hsa & Ht & Hr & Ha & Hsc
      & Hd & Hl1 & Hl2 & Hcl).
destruct (decompose_step_lengths _ _ _ _ _ _ _ _ Hdec)
  as (Eobs & Ls & Lsa & Lt & Lr).
destruct (_iqr_inv _ _ _ _ Hiqr) as (lower & upper & El1 & El2 & Eflag & Edir & Lsc).
assert (La : length (Anomalize.anomaly f) = length data)
  by (rewrite Ha, Eflag, length_map; exact Lr).
assert (Ld : length (Anomalize.anomaly_direction f) = length data)
  by (rewrite Hd, Edir, length_map; exact Lr).
assert (Lo : length (Anomalize.observed f) = length data)
  by (rewrite Hobs, Eobs, length_map; reflexivity).
assert (L1 : length (Anomalize.recomposed_l1 f) = length data)
  by (rewrite Hl1, !map2_length, El1, length_map; lia).
assert (L2 : length (Anomalize.recomposed_l2 f) = length data)
  by (rewrite Hl2, !map2_length, El2, length_map; lia).
repeat split; try congruence.
destruct (String.eqb clean "linear") eqn:Ec.
- apply String.eqb_eq in Ec. subst clean.
  rewrite (_anomalize_linear_inv _ _ _ _ _ _ _ _ _ Hrun).
  unfold Anomalize.interpolate, Anomalize.mask.
  rewrite interpolate_from_length, map2_length, length_map. lia.
- rewrite (Hcl eq_refl), map2_length, !length_combine. lia.
Qed.

(** X1.  A successful run of the pipeline returns twelve columns with one
  row per input row: the date and observed columns are the input's date
  and value columns, and every other column has the input's length. *)
Theorem anomalize_shape data period trend method decomp clean
iqr_alpha clean_alpha max_anomalies f :
_anomalize data period trend method decomp clean iqr_alpha clean_alpha
  max_anomalies = Ok f ->
Anomalize.date f = map fst data /\
Anomalize.observed f = map snd data /\
length (Anomalize.seasonal f) = length data /\
length (Anomalize.seasadj f) = length data /\
length (Anomalize.trend f) = length data /\
length (Anomalize.remainder f) = length data /\
length (Anomalize.anomaly f) = length data /\
length (Anomalize.anomaly_score f) = length data /\
length (Anomalize.anomaly_direction f) = length data /\
length (Anomalize.recomposed_l1 f) = length data /\
length (Anomalize.recomposed_l2 f) = length data /\
length (Anomalize.observed_clean f) = length data.
Proof. apply pipeline_lengths. Qed.

Lemma _iqr_score (xs : list Q) (alpha max_anoms : Q) (out : Anomalize.OutlierFrame) :
Anomalize._iqr xs alpha max_anoms = Ok out ->
exists c : Q, Anomalize.score out = map (fun x => Qabs (x - c)) xs.
Proof.
unfold Anomalize._iqr. destruct (Qeq_bool alpha 0); [discriminate|].
intros H. apply Ok_inj in H. subst out. eexists. reflexivity.
Qed.

(** X2.  On every row of the pipeline's output the flag is "Yes" or "No",
  the direction is -1, 0 or +1, the flag is "Yes" exactly when the
  direction is not 0, and the score is not negative. *)
Theorem anomaly_flag_matches_direction data period trend method decomp clean
iqr_alpha clean_alpha max_anomalies f :
_anomalize data period trend method decomp clean iqr_alpha clean_alpha
  max_anomalies = Ok f ->
forall i : nat, (i < length data)%nat ->
  exists (a : string) (d : Z) (s : Q),
    nth_error (Anomalize.anomaly f) i = Some a /\
    nth_error (Anomalize.anomaly_direction f) i = Some d /\
    nth_error (Anomalize.anomaly_score f) i = Some s /\
    (a = "Yes"%string \/ a = "No"%string) /\
    (d = (-1)%Z \/ d = 0%Z \/ d = 1%Z) /\
    (a = "Yes"%string <-> d <> 0%Z) /\
    0 <= s.
Proof.
intros Hrun i Hi.
destruct (_anomalize_inv _ _ _ _ _ _ _ _ _ _ _ _ Hrun)
  as (fr & out & Hdec & Hiqr & _ & _ & _ & _ & _ & _ & Ha & Hsc & Hd & _).
destruct (decompose_step_lengths _ _ _ _ _ _ _ _ Hdec) as (_ & _ & _ & _ & Lr).
destruct (nth_error_of_length (Anomalize.d_remainder fr) i ltac:(lia))
  as [x Hx].
destruct (_iqr_inv _ _ _ _ Hiqr) as (lower' & upper' & _ & _ & Eflag & Edir & _).
destruct (_iqr_score _ _ _ _ Hiqr) as (c & Escore).
set (a := Np.where_ (Qgtb x upper') "Yes"%string
            (Np.where_ (Qltb x lower') "Yes"%string "No"%string)).
set (d := Np.where_ (Qgtb x upper') 1%Z
            (Np.where_ (Qltb x lower') (-1)%Z 0%Z)).
exists a, d, (Qabs (x - c)).
rewrite Ha, Hd, Hsc, Eflag, Edir, Escore, !nth_error_map, Hx.
repeat (split; [reflexivity|]).
assert (Hcases :
  (a = "Yes"%string /\ d <> 0%Z /\ (d = 1%Z \/ d = (-1)%Z)) \/
  (a = "No"%string /\ d = 0%Z)).
{ unfold a, d, Np.where_.
  destruct (Qgtb x upper'); [left; repeat split; auto; discriminate|].
  destruct (Qltb x lower'); [left; repeat split; auto; discriminate|].
  right. auto. }
split; [tauto|]. split; [tauto|]. split.
- destruct Hcases as [(-> & Hd0 & _)|(-> & ->)]; split; auto; try discriminate.
  intros H. exfalso. apply H. reflexivity.
- apply Qabs_nonneg.
Qed.

Lemma normal_rows_kept data period trend method decomp clean
iqr_alpha clean_alpha max_anomalies f :
_anomalize data period trend method decomp clean iqr_alpha clean_alpha
  max_anomalies = Ok f ->
forall (i : nat) (obs : Q),
  nth_error (Anomalize.anomaly f) i = Some "No"%string ->
  nth_error (Anomalize.observed f) i = Some obs ->
  exists v, nth_error (Anomalize.observed_clean f) i = Some (Some v) /\
            v == obs.
Proof.
intros Hrun i obs Ha Hobs.
destruct (String.eqb clean "linear") eqn:Ec.
- apply String.eqb_eq in Ec. subst clean.
  rewrite (_anomalize_linear_inv _ _ _ _ _ _ _ _ _ Hrun).
  exists obs. split; [|reflexivity].
  unfold Anomalize.interpolate. apply interpolate_from_keeps.
  rewrite (mask_nth _ _ i true obs); [reflexivity | | exact Hobs].
  rewrite nth_error_map, Ha. reflexivity.
- destruct (_anomalize_inv _ _ _ _ _ _ _ _ _ _ _ _ Hrun)
    as (fr & out & Hdec & Hiqr & _ & _ & _ & _ & _ & _ & Han & _ & Hd
        & _ & _ & Hcl).
  specialize (Hcl Ec).
  destruct (pipeline_lengths _ _ _ _ _ _ _ _ _ _ Hrun)
    as (_ & _ & _ & _ & _ & _ & La & _ & Ld & L1 & L2 & _).
  assert (Hi : (i < length data)%nat).
  { rewrite <- La. apply nth_error_Some. congruence. }
  destruct (_iqr_inv _ _ _ _ Hiqr) as (lower & upper & _ & _ & Eflag & Edir & _).
  assert (Hdi : nth_error (Anomalize.anomaly_direction f) i = Some 0%Z).
  { rewrite Han, Eflag, nth_error_map in Ha.
    rewrite Hd, Edir, nth_error_map.
    destruct (nth_error (Anomalize.d_remainder fr) i) as [x|]; [|discriminate].
    cbn [option_map] in *. revert Ha. unfold Np.where_.
    destruct (Qgtb x upper); [discriminate|].
    destruct (Qltb x lower); [discriminate|]. reflexivity. }
  destruct (nth_error_of_length (Anomalize.recomposed_l1 f) i ltac:(lia))
    as [l1 Hl1].
  destruct (nth_error_of_length (Anomalize.recomposed_l2 f) i ltac:(lia))
    as [l2 Hl2].
  exists obs. split; [|reflexivity].
  rewrite Hcl. apply nth_error_map2.
  exists 0%Z, (l1, l2, obs).
  split; [exact Hdi|]. split; [|reflexivity].
  apply nth_error_combine; [|exact Hobs].
  apply nth_error_combine; assumption.
Qed.

(** X3.  Under either cleaning policy a row that is not flagged keeps its
  observed value as its cleaned value. *)
Theorem cleaning_keeps_normal_rows data period trend method decomp clean
iqr_alpha clean_alpha max_anomalies f :
_anomalize data period trend method decomp clean iqr_alpha clean_alpha
  max_anomalies = Ok f ->
forall (i : nat) (obs : Q),
  nth_error (Anomalize.anomaly f) i = Some "No"%string ->
  nth_error (Anomalize.observed f) i = Some obs ->
  exists v, nth_error (Anomalize.observed_clean f) i = Some (Some v) /\
            v == obs.
Proof. apply normal_rows_kept. Qed.

(** X4.  Under the linear policy, when at least one row is not flagged,
  every row receives a cleaned value, and every cleaned value lies
  within any interval that holds the observed values of the rows that
  are not flagged. *)
Theorem linear_cleaning_fills_within_range data period trend method decomp
iqr_alpha clean_alpha max_anomalies f (lo hi : Q) :
_anomalize data period trend method decomp "linear" iqr_alpha clean_alpha
  max_anomalies = Ok f ->
(exists j, nth_error (Anomalize.anomaly f) j = Some "No"%string) ->
(forall j obs, nth_error (Anomalize.anomaly f) j = Some "No"%string ->
               nth_error (Anomalize.observed f) j = Some obs ->
               lo <= obs /\ obs <= hi) ->
forall i : nat, (i < length data)%nat ->
  exists v, nth_error (Anomalize.observed_clean f) i = Some (Some v) /\
            lo <= v /\ v <= hi.
Proof.
intros Hrun [j Hj] Hrange i Hi.
destruct (pipeline_lengths _ _ _ _ _ _ _ _ _ _ Hrun)
  as (_ & _ & _ & _ & _ & _ & La & _ & _ & _ & _ & Lc).
pose proof (_anomalize_linear_inv _ _ _ _ _ _ _ _ _ Hrun) as Ecl.
set (masked := Anomalize.mask
                 (map (fun a => String.eqb a "No") (Anomalize.anomaly f))
                 (Anomalize.observed f)) in *.
assert (Hmasked : forall v, In (Some v) masked -> lo <= v /\ v <= hi).
{ intros v Hv. apply mask_In in Hv. destruct Hv as (k & Hk & Hobs).
  apply nth_error_map_inv in Hk.
  destruct Hk as (a & Hak & Heq). apply String.eqb_eq in Heq. subst a.
  eapply Hrange; eassumption. }
assert (Hsome : exists v, In (Some v) masked).
{ destruct (normal_rows_kept _ _ _ _ _ _ _ _ _ _ Hrun j) with
    (obs := nth j (Anomalize.observed f) 0) as (v & _ & _).
  - exact Hj.
  - apply nth_error_nth'.
    destruct (pipeline_lengths _ _ _ _ _ _ _ _ _ _ Hrun) as (_ & Eo & _).
    rewrite Eo, length_map, <- La. apply nth_error_Some. congruence.
  - exists (nth j (Anomalize.observed f) 0).
    eapply nth_error_In with (n := j). unfold masked.
    rewrite (mask_nth _ _ j true (nth j (Anomalize.observed f) 0));
      [reflexivity | rewrite nth_error_map, Hj; reflexivity |].
    apply nth_error_nth'.
    destruct (pipeline_lengths _ _ _ _ _ _ _ _ _ _ Hrun) as (_ & Eo & _).
    rewrite Eo, length_map, <- La. apply nth_error_Some. congruence. }
destruct (nth_error_of_length (Anomalize.observed_clean f) i ltac:(lia))
  as [o Ho].
pose proof (nth_error_In _ _ Ho) as Hin. rewrite Ecl in Hin.
pose proof (interpolate_from_fills None masked (or_intror Hsome)) as Hfill.
rewrite Forall_forall in Hfill. specialize (Hfill o Hin).
destruct o as [v|]; [|congruence].
exists v. split; [exact Ho|].
apply (interpolate_from_bounds lo hi None masked); [discriminate | exact Hmasked | exact Hin].
Qed.

End PipelineShape.

(** ** The quartiles and the fences *)

Lemma Qle_bool_total (x y : Q) : Qle_bool x y = true \/ Qle_bool y x = true.
Proof.
  destruct (Qlt_le_dec y x) as [Hlt|Hle].
  - right. apply Qle_bool_iff. apply Qlt_le_weak. exact Hlt.
  - left. apply Qle_bool_iff. exact Hle.
Qed.

Lemma sort_sorted (a : list Q) : StronglySorted Qle (Np.sort a).
Proof.
  apply Sorted_StronglySorted.
  - intros x y z. apply Qle_trans.
  - eapply Sorted_weaken; [|apply isort_sorted; exact Qle_bool_total].
    intros x y H. apply Qle_bool_iff. exact H.
Qed.

Lemma sorted_nth_le (s : list Q) (i j : nat) :
  StronglySorted Qle s -> (i <= j)%nat -> (j < length s)%nat ->
  nth i s 0 <= nth j s 0.
Proof.
  intros Hs. revert i j. induction Hs as [|x s Hs IH Hall]; intros i j Hij Hj.
  - simpl in Hj. lia.
  - destruct j as [|j].
    + assert (i = 0)%nat by lia. subst. apply Qle_refl.
    + destruct i as [|i].
      * simpl. rewrite Forall_forall in Hall. apply Hall.
        apply nth_In. simpl in Hj. lia.
      * simpl. apply IH; simpl in Hj; lia.
Qed.

Lemma lerp_monotone (lo hi g1 g2 : Q) :
  lo <= hi -> g1 <= g2 -> lo + (hi - lo) * g1 <= lo + (hi - lo) * g2.
Proof. intros. nra. Qed.

Lemma lerp_between (lo hi g : Q) :
  lo <= hi -> 0 <= g -> g <= 1 ->
  lo <= lo + (hi - lo) * g /\ lo + (hi - lo) * g <= hi.
Proof. intros. split; nra. Qed.

(** The numpy percentile of a non-empty array does not decrease with the
    requested percentage. *)
Lemma percentile_monotone (a : list Q) (q1 q2 : Q) :
  a <> [] -> 0 <= q1 -> q1 <= q2 -> q2 <= 100 ->
  Np.percentile a q1 <= Np.percentile a q2.
Proof.
  intros Ha H0 H12 H100.
  unfold Np.percentile.
  set (s := Np.sort a).
  set (n := Z.of_nat (length a)).
  assert (Hn : (1 <= n)%Z).
  { unfold n. destruct a; [congruence | simpl length; lia]. }
  assert (Hlen : length s = length a) by apply isort_length.
  assert (Hsorted : StronglySorted Qle s) by apply sort_sorted.
  set (h1 := inject_Z (n - 1) * (q1 / 100)).
  set (h2 := inject_Z (n - 1) * (q2 / 100)).
  assert (Hk : 0 <= inject_Z (n - 1)).
  { change 0 with (inject_Z 0). rewrite <- Zle_Qle. lia. }
  assert (Hr1 : 0 <= q1 / 100)
    by (apply Qle_shift_div_l; [reflexivity | rewrite Qmult_0_l; exact H0]).
  assert (Hr12 : q1 / 100 <= q2 / 100).
  { apply Qle_shift_div_l; [reflexivity|].
    setoid_replace (q1 / 100 * 100) with q1 by field. exact H12. }
  assert (Hr2 : q2 / 100 <= 1)
    by (apply Qle_shift_div_r; [reflexivity | rewrite Qmult_1_l; exact H100]).
  assert (Hh1 : 0 <= h1) by (unfold h1; nra).
  assert (Hh12 : h1 <= h2) by (unfold h1, h2; nra).
  assert (Hh2 : h2 <= inject_Z (n - 1)) by (unfold h2; nra).
  set (p1 := Qfloor h1). set (p2 := Qfloor h2).
  assert (Hp1 : (0 <= p1)%Z).
  { unfold p1. change 0%Z with (Qfloor 0). apply Qfloor_resp_le. exact Hh1. }
  assert (Hp12 : (p1 <= p2)%Z) by (apply Qfloor_resp_le; exact Hh12).
  assert (Hp2 : (p2 <= n - 1)%Z).
  { unfold p2. rewrite <- (Qfloor_Z (n - 1)). apply Qfloor_resp_le. exact Hh2. }
  pose proof (Qfloor_le h1) as Hf1. pose proof (Qlt_floor h1) as Hl1.
  pose proof (Qfloor_le h2) as Hf2. pose proof (Qlt_floor h2) as Hl2.
  fold p1 in Hf1, Hl1. fold p2 in Hf2, Hl2.
  rewrite inject_Z_plus in Hl1, Hl2.
  change (inject_Z 1) with 1 in Hl1, Hl2.
  set (nx1 := Z.min (p1 + 1) (n - 1)). set (nx2 := Z.min (p2 + 1) (n - 1)).
  assert (Hnth : forall i j : Z, (0 <= i)%Z -> (i <= j)%Z -> (j <= n - 1)%Z ->
                   nth (Z.to_nat i) s 0 <= nth (Z.to_nat j) s 0).
  { intros i j Hi Hij Hj. apply sorted_nth_le; [exact Hsorted | lia |].
    rewrite Hlen. unfold n in Hj. lia. }
  assert (Hlo1 : nth (Z.to_nat p1) s 0 <= nth (Z.to_nat nx1) s 0)
    by (apply Hnth; unfold nx1; lia).
  assert (Hlo2 : nth (Z.to_nat p2) s 0 <= nth (Z.to_nat nx2) s 0)
    by (apply Hnth; unfold nx2; lia).
  assert (Hg1 : 0 <= h1 - inject_Z p1 /\ h1 - inject_Z p1 <= 1) by (split; lra).
  assert (Hg2 : 0 <= h2 - inject_Z p2 /\ h2 - inject_Z p2 <= 1) by (split; lra).
  destruct (Z.eq_dec p1 p2) as [Heq|Hne].
  - unfold nx1, nx2 in *. rewrite <- Heq in *.
    apply lerp_monotone; [exact Hlo1 | lra].
  - assert (Hmid : nth (Z.to_nat nx1) s 0 <= nth (Z.to_nat p2) s 0)
      by (apply Hnth; unfold nx1; lia).
    destruct (lerp_between _ _ _ Hlo1 (proj1 Hg1) (proj2 Hg1)) as [_ Hv1].
    destruct (lerp_between _ _ _ Hlo2 (proj1 Hg2) (proj2 Hg2)) as [Hv2 _].
    eapply Qle_trans; [exact Hv1|]. eapply Qle_trans; [exact Hmid | exact Hv2].
Qed.

(** X5.  For a positive [alpha' <= alpha] the fences computed with
    [alpha'] enclose the fences computed with [alpha], and every row that
    the classifier flags with [alpha'] is also flagged with [alpha]:
    lowering the significance level never reports more outliers. *)
Theorem lower_alpha_flags_fewer (data : list Q) (alpha alpha' max_anoms : Q)
  (out out' : Anomalize.OutlierFrame) :
  0 < alpha' -> alpha' <= alpha ->
  Anomalize._iqr data alpha max_anoms = Ok out ->
  Anomalize._iqr data alpha' max_anoms = Ok out' ->
  forall i : nat,
    (forall l1' l1, nth_error (Anomalize.remainder_l1 out') i = Some l1' ->
                    nth_error (Anomalize.remainder_l1 out) i = Some l1 ->
                    l1' <= l1) /\
    (forall l2' l2, nth_error (Anomalize.remainder_l2 out') i = Some l2' ->
                    nth_error (Anomalize.remainder_l2 out) i = Some l2 ->
                    l2 <= l2') /\
    (nth_error (Anomalize.outlier_reported out') i = Some "Yes"%string ->
     nth_error (Anomalize.outlier_reported out) i = Some "Yes"%string).
Proof.
  intros Hpos Hle Hrun Hrun' i.
  destruct data as [|x0 data0] eqn:Edata.
  { unfold Anomalize._iqr in Hrun, Hrun'.
    destruct (Qeq_bool alpha 0); [discriminate|].
    destruct (Qeq_bool alpha' 0); [discriminate|].
    apply Ok_inj in Hrun, Hrun'. subst out out'. simpl.
    repeat split; intros; destruct i; discriminate. }
  rewrite <- Edata in *.
  assert (Hne : data <> []) by (rewrite Edata; discriminate).
  assert (Hiq : Np.percentile data 25 <= Np.percentile data 75)
    by (apply percentile_monotone; [exact Hne | discriminate | discriminate | discriminate]).
  assert (Hpos_a : 0 < alpha) by (eapply Qlt_le_trans; eassumption).
  assert (Hk : (15 # 100) / alpha <= (15 # 100) / alpha').
  { apply Qle_shift_div_l; [exact Hpos|].
    setoid_replace ((15 # 100) / alpha * alpha')
      with ((15 # 100) * (alpha' / alpha))
      by (field; intros E; rewrite E in Hpos_a; discriminate Hpos_a).
    assert (Hratio : alpha' / alpha <= 1)
      by (apply Qle_shift_div_r; [exact Hpos_a | rewrite Qmult_1_l; exact Hle]).
    nra. }
  unfold Anomalize._iqr in Hrun, Hrun'.
  destruct (Qeq_bool alpha 0); [discriminate|].
  destruct (Qeq_bool alpha' 0); [discriminate|].
  apply Ok_inj in Hrun, Hrun'. subst out out'.
  cbn [Anomalize.remainder_l1 Anomalize.remainder_l2 Anomalize.outlier_reported].
  set (q1 := Np.percentile data 25) in *. set (q3 := Np.percentile data 75) in *.
  generalize dependent ((15 # 100) / alpha).
  generalize dependent ((15 # 100) / alpha').
  intros k' k Hkk.
  rewrite !nth_error_map.
  destruct (nth_error data i) as [x|]; cbn [option_map];
    [|repeat split; intros; discriminate].
  split; [|split].
  - intros l1' l1 E' E. injection E' as <-. injection E as <-. nra.
  - intros l2' l2 E' E. injection E' as <-. injection E as <-. nra.
  - unfold Np.where_.
    destruct (Qgtb x (q3 + k' * (q3 - q1))) eqn:Eu'.
    + apply Qgtb_true in Eu'.
      assert (Hu : Qgtb x (q3 + k * (q3 - q1)) = true)
        by (apply Qgtb_true; nra).
      rewrite Hu. reflexivity.
    + destruct (Qltb x (- (1) * (q1 + k' * (q3 - q1)))) eqn:El'; [|discriminate].
      apply Qltb_true in El'.
      assert (Hl : Qltb x (- (1) * (q1 + k * (q3 - q1))) = true)
        by (apply Qltb_true; nra).
      rewrite Hl. destruct (Qgtb x (q3 + k * (q3 - q1))); reflexivity.
Qed.

(** ** The median groups of the twitter decomposition *)

Lemma round_nonpositive (x : Q) : x <= 1 # 2 -> (Np.round x <= 0)%Z.
Proof.
  intros Hx. unfold Np.round.
  pose proof (Qfloor_le x) as Hf. pose proof (Qlt_floor x) as Hl.
  rewrite inject_Z_plus in Hl. change (inject_Z 1) with 1 in Hl.
  assert (Hf0 : (Qfloor x <= 0)%Z).
  { change 0%Z with (Qfloor (1 # 2)). apply Qfloor_resp_le. exact Hx. }
  destruct (Qcompare (x - inject_Z (Qfloor x)) (1 # 2)) eqn:E.
  - destruct (Z.even (Qfloor x)) eqn:Ev; [exact Hf0|].
    destruct (Z.eq_dec (Qfloor x) 0) as [H0|H0]; [rewrite H0 in Ev; discriminate|].
    lia.
  - exact Hf0.
  - apply Qgt_alt in E.
    destruct (Z.eq_dec (Qfloor x) 0) as [H0|H0]; [|lia].
    rewrite H0 in E. change (inject_Z 0) with 0 in E. exfalso. lra.
Qed.

(** X6.  With the twitter method, a [trend] that is zero, negative, or at
    least twice the number of rows gives no median group: the call raises
    [ZeroDivisionError] (for a non-zero trend, once the seasonal
    decomposition of an additive model over at least two periods has
    succeeded). *)
Theorem twitter_trend_out_of_range_raises
  (get_seasonal_frequency : list Z -> positive)
  (get_trend_frequency : list Z -> Z) (data : list (Z * Q))
  (period : positive) (trend : Z) (decomp clean : string)
  (iqr_alpha clean_alpha max_anomalies : Q) :
  Sm.multiplicative decomp = false ->
  (2 * Pos.to_nat period <= length data)%nat ->
  (trend <= 0 \/ 2 * Z.of_nat (length data) <= trend)%Z ->
  Anomalize._anomalize get_seasonal_frequency get_trend_frequency data
    (Some period) (Some trend) "twitter" decomp clean iqr_alpha clean_alpha
    max_anomalies = Raise ZeroDivisionError.
Proof.
  intros Hadd Hlen Htrend.
  unfold Anomalize._anomalize, Anomalize.decompose_step.
  cbn [String.eqb Ascii.eqb Bool.eqb].
  destruct (Z.eqb_spec trend 0) as [|Hne]; [reflexivity|].
  set (span := Np.round (inject_Z (Z.of_nat (length data)) / inject_Z trend)).
  assert (Hspan : (span <= 0)%Z).
  { apply round_nonpositive.
    destruct Htrend as [Hneg|Hbig].
    - apply Qle_trans with 0; [|discriminate].
      assert (Hn : 0 <= inject_Z (Z.of_nat (length data)))
        by (change 0 with (inject_Z 0); rewrite <- Zle_Qle; lia).
      assert (Ht : inject_Z trend < 0)
        by (change 0 with (inject_Z 0); rewrite <- Zlt_Qlt; lia).
      assert (Hinv : / inject_Z trend < 0).
      { destruct (inject_Z trend) as [[|p|p] d]; try discriminate Ht.
        reflexivity. }
      unfold Qdiv. nra.
    - assert (Ht : 0 < inject_Z trend)
        by (change 0 with (inject_Z 0); rewrite <- Zlt_Qlt; lia).
      apply Qle_shift_div_r; [exact Ht|].
      setoid_replace ((1 # 2) * inject_Z trend) with (inject_Z trend / 2)
        by field.
      apply Qle_shift_div_l; [reflexivity|].
      rewrite Qmult_comm. change 2 with (inject_Z 2).
      rewrite <- inject_Z_mult, <- Zle_Qle. exact Hbig. }
  unfold Anomalize._twitter_decompose.
  destruct (Sm.seasonal_decompose (map snd data) decomp period) as [res|e] eqn:E.
  - cbn [bind]. unfold Anomalize.median_index, Anomalize.repeat_sequence,
      Anomalize.range.
    rewrite length_seq. replace (Z.to_nat span) with 0%nat by lia.
    reflexivity.
  - exfalso. unfold Sm.seasonal_decompose in E. rewrite Hadd in E.
    cbn [andb] in E. rewrite length_map in E.
    destruct (Nat.ltb_spec (length data) (2 * Pos.to_nat period));
      [lia | discriminate E].
Qed.

Lemma insert_map {A B : Type} (f : A -> B) (leb : A -> A -> bool)
  (leb' : B -> B -> bool) (x : A) (l : list A) :
  (forall a b, leb' (f a) (f b) = leb a b) ->
  insert leb' (f x) (map f l) = map f (insert leb x l).
Proof.
  intros H. induction l as [|y l IH]; simpl; [reflexivity|].
  rewrite H. destruct (leb x y); simpl; [reflexivity|]. rewrite IH. reflexivity.
Qed.

Lemma isort_map {A B : Type} (f : A -> B) (leb : A -> A -> bool)
  (leb' : B -> B -> bool) (l : list A) :
  (forall a b, leb' (f a) (f b) = leb a b) ->
  isort leb' (map f l) = map f (isort leb l).
Proof.
  intros H. induction l as [|x l IH]; simpl; [reflexivity|].
  rewrite IH. apply insert_map. exact H.
Qed.

Lemma Qle_bool_shift (c x y : Q) : Qle_bool (x - c) (y - c) = Qle_bool x y.
Proof.
  destruct (Qle_bool x y) eqn:E.
  - apply Qle_bool_iff in E. apply Qle_bool_iff. lra.
  - destruct (Qle_bool (x - c) (y - c)) eqn:E'; [|reflexivity].
    apply Qle_bool_iff in E'.
    assert (H : x <= y) by lra. apply Qle_bool_iff in H. congruence.
Qed.

(** The median of a shifted Series is the shifted median. *)
Lemma median_shift (c : Q) (l : list Q) :
  l <> [] -> Pd.median (map (fun x => x - c) l) == Pd.median l - c.
Proof.
  intros Hne. unfold Pd.median, Np.sort.
  rewrite (isort_map (fun x => x - c) Qle_bool Qle_bool)
    by (intros a b; apply Qle_bool_shift).
  rewrite length_map.
  set (s := isort Qle_bool l).
  assert (Hlen : length s = length l) by apply isort_length.
  assert (Hpos : (0 < length l)%nat) by (destruct l; [congruence | simpl; lia]).
  assert (Hnth : forall i, (i < length l)%nat ->
                   nth i (map (fun x => x - c) s) 0 = nth i s 0 - c).
  { intros i Hi.
    rewrite (nth_indep _ 0 (0 - c)) by (rewrite length_map; lia).
    apply (map_nth (fun x => x - c)). }
  assert (Hhalf : (length l / 2 < length l)%nat)
    by (apply Nat.div_lt; lia).
  destruct (Nat.even (length l)).
  - rewrite !Hnth by lia. field.
  - rewrite Hnth by lia. reflexivity.
Qed.

Lemma group_values_shift (g : nat -> Q) (keys : list nat) (vals : list Q) (k : nat) :
  Pd.group_values keys (map2 Qminus vals (map g keys)) k
  = map (fun x => x - g k) (Pd.group_values keys vals k).
Proof.
  unfold Pd.group_values. revert vals.
  induction keys as [|key keys IH]; intros [|v vals]; simpl; try reflexivity.
  destruct (Nat.eqb_spec key k) as [->|Hne]; simpl; rewrite IH; reflexivity.
Qed.

Lemma group_values_nonempty (keys : list nat) (vals : list Q) (k : nat) :
  length keys = length vals -> In k keys -> Pd.group_values keys vals k <> [].
Proof.
  unfold Pd.group_values. revert vals.
  induction keys as [|key keys IH]; intros [|v vals] Hlen Hin; simpl in *;
    try discriminate; [destruct Hin|].
  destruct (Nat.eqb_spec key k) as [->|Hne]; simpl; [discriminate|].
  destruct Hin as [Heq|Hin]; [congruence|]. apply IH; [lia | exact Hin].
Qed.

(** X7.  The twitter decomposition centres every median group: within
    each group of consecutive points the median of the remainder is 0. *)
Theorem twitter_remainder_centred (dates : list Z) (series : list Q)
  (period : positive) (median_span : Z) (model : string)
  (fr : Anomalize.DecompFrame) :
  Anomalize._twitter_decompose dates series period (Some median_span) model
    = Ok fr ->
  exists labels : list nat,
    Anomalize.median_index median_span (length series) = Ok labels /\
    forall k : nat, In k labels ->
      Pd.median (Pd.group_values labels (Anomalize.d_remainder fr) k) == 0.
Proof.
  intros H. unfold Anomalize._twitter_decompose in H.
  inv_bind H. rename a into res.
  destruct (seasonal_decompose_lengths _ _ _ _ Ha) as [Hs _].
  inv_bind H. rename a into labels.
  apply Ok_inj in H. subst fr. cbn [Anomalize.d_remainder].
  set (seasadj := map2 Qminus series (Sm.seasonal res)) in *.
  assert (Hsa : length seasadj = length series)
    by (unfold seasadj; rewrite map2_length; lia).
  rewrite Hsa in Ha0. exists labels. split; [exact Ha0|].
  apply median_index_length in Ha0.
  intros k Hk. unfold Pd.groupby_transform.
  rewrite firstn_all2 by lia.
  rewrite (group_values_shift
             (fun k' => Pd.median (Pd.group_values labels seasadj k'))).
  rewrite median_shift by (apply group_values_nonempty; [lia | exact Hk]).
  ring.
Qed.

(** ** A timestamp label that clashes with a result label *)

(** X8.  When the timestamp column carries the label of one of the five
    decomposition columns the call raises [ValueError]; when it carries
    the label of one of the six later result columns the call succeeds
    but returns eleven columns only, the timestamps standing in the place
    of that result. *)
Theorem timestamp_label_clash (data_columns : list string)
  (date_column : string) (bind_data : bool) :
  (In date_column ["observed"; "seasonal"; "seasadj"; "trend"; "remainder"]%string ->
   Anomalize.anomalize_columns None data_columns date_column bind_data
   = Raise ValueError) /\
  (In date_column ["anomaly"; "anomaly_score"; "anomaly_direction";
                   "recomposed_l1"; "recomposed_l2"; "observed_clean"]%string ->
   Anomalize.anomalize_columns None data_columns date_column false
   = Ok (date_column
         :: ["observed"; "seasonal"; "seasadj"; "trend"; "remainder"]%string
         ++ filter (fun c => negb (String.eqb c date_column))
              ["anomaly"; "anomaly_score"; "anomaly_direction";
               "recomposed_l1"; "recomposed_l2"; "observed_clean"]%string)).
Proof.
  split; intros Hin; simpl in Hin.
  - repeat (destruct Hin as [<-|Hin]; [reflexivity|]). destruct Hin.
  - repeat (destruct Hin as [<-|Hin]; [vm_compute; reflexivity|]). destruct Hin.
Qed.

(** * Further properties of the expanding-window augmenters *)

Lemma Permutation_filter {A : Type} (p : A -> bool) (l l' : list A) :
  Permutation l l' -> Permutation (filter p l) (filter p l').
Proof.
  induction 1 as [|x l l' H IH|x y l|l l' l'' H1 IH1 H2 IH2]; simpl.
  - apply perm_nil.
  - destruct (p x); [apply perm_skip|]; exact IH.
  - destruct (p x), (p y); try apply Permutation_refl. apply perm_swap.
  - eapply Permutation_trans; eassumption.
Qed.

(** The groups of a frame hold, between them, the rows whose key has no
    NaN. *)
Lemma groupby_perm (names : list string) (df : Expanding.DataFrame)
  (gs : list Expanding.DataFrame) (js : list nat) :
  Expanding.positions names (Expanding.columns df) = Ok js ->
  Expanding.groupby names df = Ok gs ->
  Forall (fun g => Expanding.columns g = Expanding.columns df /\
                   incl (Expanding.rows g) (Expanding.rows df)) gs /\
  Permutation (flat_map Expanding.rows gs)
    (filter (fun r => negb (existsb Expanding.is_nan (Expanding.key js r)))
            (Expanding.rows df)).
Proof.
  intros Hjs H. unfold Expanding.groupby in H. rewrite Hjs in H. cbn [bind] in H.
  apply Ok_inj in H. subst gs.
  set (kept := filter _ (Expanding.rows df)).
  split.
  - apply Forall_forall. intros g Hg. apply in_map_iff in Hg.
    destruct Hg as (k & <- & _). split; [reflexivity|].
    cbn [Expanding.rows]. intros r Hr. apply filter_In in Hr.
    destruct Hr as [Hr _]. apply filter_In in Hr. apply Hr.
  - rewrite flat_map_rows_map.
    apply (groups_of_perm (Expanding.key js) Expanding.key_eqb
             key_eqb_sym key_eqb_trans).
    + apply distinct_separated.
    + assert (Hnan : forall r, In r kept ->
                existsb Expanding.is_nan (Expanding.key js r) = false).
      { intros r Hr. apply filter_In in Hr. destruct Hr as [_ Hr].
        apply negb_true_iff in Hr. exact Hr. }
      intros r Hr.
      destruct (distinct_covers Expanding.key_eqb key_eqb_trans
                  (map (Expanding.key js) kept))
        with (k := Expanding.key js r) as (k' & Hk' & Ek').
      * intros k Hk. apply in_map_iff in Hk. destruct Hk as (r' & <- & Hr').
        apply key_eqb_refl. apply Hnan. exact Hr'.
      * apply in_map. exact Hr.
      * exists k'. split; [exact Hk' | exact Ek'].
Qed.

Lemma positions_app_inv (a b cols : list string) (js : list nat) :
  Expanding.positions (a ++ b) cols = Ok js ->
  exists ja, Expanding.positions a cols = Ok ja.
Proof.
  revert js. induction a as [|n a IH]; simpl; intros js H; [eauto|].
  destruct (Expanding.position n cols) as [j|]; [|discriminate].
  inv_bind H. destruct (IH _ Ha) as [ja Hja]. rewrite Hja. simpl. eauto.
Qed.

Lemma positions_exist (names cols : list string) :
  (forall n, In n names -> In n cols) ->
  exists js, Expanding.positions names cols = Ok js.
Proof.
  induction names as [|n names IH]; intros H; simpl; [eauto|].
  destruct (Expanding.position n cols) as [j|] eqn:E.
  - destruct IH as [js Hjs]; [intros m Hm; apply H; right; exact Hm|].
    rewrite Hjs. simpl. eauto.
  - exfalso. apply position_None_not_In in E. apply E. apply H. left. reflexivity.
Qed.

(** The frames handed to the per-group loop: they carry the columns of
    the input and hold, between them, the rows that are kept. *)
Lemma grouped_frames (data : Expanding.Input) (date_column : string)
  (grouped : list Expanding.DataFrame) :
  match data with
  | Expanding.GroupBy _ group_names =>
    sorted <- Expanding.sort_values (group_names ++ [date_column])
                (Expanding.data_copy data) ;;
    Expanding.groupby group_names sorted
  | Expanding.Frame _ =>
    sorted <- Expanding.sort_values [date_column] (Expanding.data_copy data) ;;
    Ok [sorted]
  end = Ok grouped ->
  Forall (fun g => Expanding.columns g
                   = Expanding.columns (Expanding.data_copy data) /\
                   incl (Expanding.rows g)
                        (Expanding.rows (Expanding.data_copy data))) grouped /\
  Permutation (flat_map Expanding.rows grouped) (kept_rows data).
Proof.
  intros H. destruct data as [d|obj group_names];
    cbn [Expanding.data_copy kept_rows] in *.
  - inv_bind H. rename a into sorted. apply Ok_inj in H. subst grouped.
    destruct (sort_values_inv _ _ _ Ha) as [Hc Hp]. split.
    + constructor; [|constructor]. split; [exact Hc|].
      intros r Hr. eapply Permutation_in; [apply Permutation_sym; exact Hp|].
      exact Hr.
    + simpl. rewrite app_nil_r. apply Permutation_sym. exact Hp.
  - inv_bind H. rename a into sorted.
    destruct (sort_values_inv _ _ _ Ha) as [Hc Hp].
    pose proof Ha as Hpos. unfold Expanding.sort_values in Hpos.
    inv_bind Hpos. destruct (positions_app_inv _ _ _ _ Ha0) as [js Hjs].
    rewrite Hjs.
    destruct (groupby_perm group_names sorted grouped js) as [Hall Hperm];
      [rewrite Hc; exact Hjs | exact H |].
    split.
    + eapply Forall_impl; [|exact Hall].
      intros g [Hgc Hgr]. split; [rewrite Hgc; exact Hc|].
      intros r Hr. eapply Permutation_in; [apply Permutation_sym; exact Hp|].
      apply Hgr. exact Hr.
    + eapply Permutation_trans; [exact Hperm|].
      apply Permutation_filter. apply Permutation_sym. exact Hp.
Qed.

Section GroupLoop.

(** The per-group loop of either augmenter, as a function [step] that only
  extends a frame over the columns [orig] by labels from [names]. *)
Variable orig : list string.
Variable names : list string.
Variable step : Expanding.DataFrame -> result Expanding.DataFrame.

Hypothesis step_extends :
forall g g', Expanding.extends_orig orig names g -> step g = Ok g' ->
             Expanding.extends_orig orig names g' /\
             map (Expanding.prefix orig) (Expanding.rows g')
             = map (Expanding.prefix orig) (Expanding.rows g).

Lemma group_loop_sorted (grouped result_dfs : list Expanding.DataFrame)
(result_df : Expanding.DataFrame) :
Forall (fun g => Expanding.columns g = orig /\ Expanding.well_formed g)
       grouped ->
Expanding.mapM step grouped = Ok result_dfs ->
Expanding.concat result_dfs = Ok result_df ->
Permutation
  (map (Expanding.prefix orig) (Expanding.rows (Expanding.sort_index result_df)))
  (map (Expanding.prefix orig) (flat_map Expanding.rows grouped)) /\
Sorted Z.le
  (map Expanding.idx (Expanding.rows (Expanding.sort_index result_df))) /\
firstn (length orig) (Expanding.columns (Expanding.sort_index result_df))
= orig /\
(forall c, In c (Expanding.columns (Expanding.sort_index result_df)) ->
           In c orig \/ In c names).
Proof.
intros Hall HmapM Hconcat.
assert (Hstep : Forall2
  (fun g g' => Expanding.extends_orig orig names g' /\
               map (Expanding.prefix orig) (Expanding.rows g')
               = map (Expanding.prefix orig) (Expanding.rows g))
  grouped result_dfs).
{ apply mapM_Forall2 in HmapM. clear Hconcat. revert Hall.
  induction HmapM as [|g g' gs gs' Hg Hgs IH]; intros Hall; constructor.
  - inversion Hall as [|? ? [Hgc Hwf] _]; subst.
    apply step_extends; [|exact Hg].
    split; [|split].
    + apply firstn_all.
    + exact Hwf.
    + intros c Hc. left. exact Hc.
  - apply IH. inversion Hall; assumption. }
assert (Hprefix :
  map (Expanding.prefix orig) (flat_map Expanding.rows result_dfs)
  = map (Expanding.prefix orig) (flat_map Expanding.rows grouped)).
{ apply map_prefix_flat_map. eapply Forall2_impl; [|exact Hstep].
  intros g g' [_ H]. exact H. }
unfold Expanding.concat in Hconcat.
destruct result_dfs as [|first rest] eqn:Eres; [discriminate|].
apply Ok_inj in Hconcat. subst result_df.
cbn [Expanding.sort_index Expanding.columns Expanding.rows].
assert (Hfirst : Expanding.extends_orig orig names first).
{ inversion Hstep as [|? ? ? ? [H _] _]; subst. exact H. }
destruct Hfirst as (Hcols & _ & Hlabels).
split; [|split; [|split]].
- rewrite <- Hprefix. apply Permutation_map. apply Permutation_sym.
  apply isort_perm.
- apply Sorted_map with (f := Expanding.idx) (R := Z.le).
  eapply Sorted_weaken; [|apply isort_sorted].
  + intros a b Hab. apply Z.leb_le. exact Hab.
  + intros x y. destruct (Z.leb_spec (Expanding.idx x) (Expanding.idx y));
      [left; reflexivity|]. right. apply Z.leb_le. lia.
- exact Hcols.
- exact Hlabels.
Qed.

End GroupLoop.

Lemma grouped_well_formed (df : Expanding.DataFrame)
  (grouped : list Expanding.DataFrame) :
  Expanding.well_formed df ->
  Forall (fun g => Expanding.columns g = Expanding.columns df /\
                   incl (Expanding.rows g) (Expanding.rows df)) grouped ->
  Forall (fun g => Expanding.columns g = Expanding.columns df /\
                   Expanding.well_formed g) grouped.
Proof.
  intros Hwf Hall. eapply Forall_impl; [|exact Hall].
  intros g [Hc Hincl]. split; [exact Hc|].
  unfold Expanding.well_formed in *. rewrite Forall_forall in *.
  intros r Hr. rewrite Hc. apply Hwf. apply Hincl. exact Hr.
Qed.

Lemma prefix_of_well_formed (df : Expanding.DataFrame) (l : list Expanding.Row) :
  Expanding.well_formed df -> incl l (Expanding.rows df) ->
  map (Expanding.prefix (Expanding.columns df)) l
  = map (fun r => (Expanding.idx r, Expanding.cells r)) l.
Proof.
  intros Hwf Hincl. apply map_ext_in. intros r Hr.
  unfold Expanding.prefix. f_equal. apply firstn_all2.
  unfold Expanding.well_formed in Hwf. rewrite Forall_forall in Hwf.
  rewrite (Hwf r (Hincl r Hr)). lia.
Qed.

Lemma kept_rows_incl (data : Expanding.Input) :
  incl (kept_rows data) (Expanding.rows (Expanding.data_copy data)).
Proof.
  destruct data as [d|obj group_names]; cbn [kept_rows Expanding.data_copy].
  - apply incl_refl.
  - destruct (Expanding.positions group_names (Expanding.columns obj));
      [|intros r []].
    intros r Hr. apply filter_In in Hr. apply Hr.
Qed.

(** X9.  Whatever the index of the input, a successful call of
    [_augment_expanding_pandas] on a frame whose labels differ from the
    assigned ones returns the kept rows (all rows of a DataFrame; for a
    grouped input the rows whose group key holds no NaN), each with its
    index label and its original cells, rearranged in ascending order of
    the index label; the original columns stay in place and every other
    column carries an assigned label. *)
Theorem augment_expanding_sorts_kept_rows
  (expanding_method : string -> option (Expanding.kwargs -> Expanding.aggregate))
  (data : Expanding.Input) (date_column : string)
  (value_column : list string) (window_func : list Expanding.window_fn)
  (min_periods : nat) (out : Expanding.DataFrame) :
  Expanding.well_formed (Expanding.data_copy data) ->
  (forall n, In n (Expanding.new_column_names value_column window_func) ->
             ~ In n (Expanding.columns (Expanding.data_copy data))) ->
  Expanding._augment_expanding_pandas expanding_method data date_column
    value_column window_func min_periods = Ok out ->
  Permutation
    (map (fun r => (Expanding.idx r,
                    firstn (length (Expanding.columns (Expanding.data_copy data)))
                           (Expanding.cells r)))
         (Expanding.rows out))
    (map (fun r => (Expanding.idx r, Expanding.cells r)) (kept_rows data)) /\
  Sorted Z.le (map Expanding.idx (Expanding.rows out)) /\
  length (Expanding.rows out) = length (kept_rows data) /\
  firstn (length (Expanding.columns (Expanding.data_copy data)))
         (Expanding.columns out)
  = Expanding.columns (Expanding.data_copy data) /\
  (forall c, In c (Expanding.columns out) ->
             In c (Expanding.columns (Expanding.data_copy data)) \/
             In c (Expanding.new_column_names value_column window_func)).
Proof.
  intros Hwf Hfresh Hrun.
  unfold Expanding._augment_expanding_pandas in Hrun.
  inv_bind Hrun. rename a into grouped.
  inv_bind Hrun. rename a into result_dfs.
  inv_bind Hrun. rename a into result_df.
  apply Ok_inj in Hrun. subst out.
  destruct (grouped_frames _ _ _ Ha) as [Hall Hperm].
  set (orig := Expanding.columns (Expanding.data_copy data)) in *.
  set (names := Expanding.new_column_names value_column window_func) in *.
  destruct (group_loop_sorted orig names
              (fun group_df =>
                 Expanding.apply_columns expanding_method min_periods group_df
                   value_column window_func))
    with (grouped := grouped) (result_dfs := result_dfs) (result_df := result_df)
    as (Hp & Hs & Hc & Hl).
  - intros g g' Hext Hg.
    eapply (apply_columns_extends orig names Hfresh expanding_method);
      [|exact Hext | exact Hg].
    intros col func n Hcol Hfunc Hn. unfold names, Expanding.new_column_names.
    apply in_flat_map. exists col. split; [exact Hcol|].
    apply in_flat_map. exists func. split; [exact Hfunc|].
    rewrite Hn. left. reflexivity.
  - apply grouped_well_formed; assumption.
  - exact Ha0.
  - exact Ha1.
  - assert (Hperm' : Permutation
      (map (Expanding.prefix orig) (Expanding.rows (Expanding.sort_index result_df)))
      (map (fun r => (Expanding.idx r, Expanding.cells r)) (kept_rows data))).
    { eapply Permutation_trans; [exact Hp|].
      rewrite <- (prefix_of_well_formed (Expanding.data_copy data))
        by (try exact Hwf; apply kept_rows_incl).
      apply Permutation_map. exact Hperm. }
    split; [exact Hperm'|]. split; [exact Hs|]. split; [|split; assumption].
    apply Permutation_length in Hperm'. rewrite !length_map in Hperm'.
    exact Hperm'.
Qed.

(** X10.  A grouped call on a frame without rows finds no group and
    raises [ValueError] (there is nothing to concatenate), provided the
    grouping and date columns exist. *)
Theorem augment_expanding_empty_groups_raise
  (expanding_method : string -> option (Expanding.kwargs -> Expanding.aggregate))
  (columns group_names : list string) (date_column : string)
  (value_column : list string) (window_func : list Expanding.window_fn)
  (min_periods : nat) :
  (forall n, In n (group_names ++ [date_column]) -> In n columns) ->
  Expanding._augment_expanding_pandas expanding_method
    (Expanding.GroupBy (Expanding.mkFrame columns []) group_names)
    date_column value_column window_func min_periods = Raise ValueError.
Proof.
  intros Hcols.
  destruct (positions_exist _ _ Hcols) as [js Hjs].
  destruct (positions_app_inv _ _ _ _ Hjs) as [jg Hjg].
  unfold Expanding._augment_expanding_pandas, Expanding.sort_values,
    Expanding.groupby.
  cbn [Expanding.data_copy Expanding.columns Expanding.rows].
  rewrite Hjs. cbn [bind isort Expanding.columns Expanding.rows].
  rewrite Hjg. reflexivity.
Qed.

(** ** [augment_expanding_apply] *)

Lemma nth_error_set_nth (j i : nat) (v : Expanding.cell) (l : list Expanding.cell) :
  nth_error (Expanding.set_nth j v l) i
  = if (i =? j)%nat && (j <? length l)%nat then Some v else nth_error l i.
Proof.
  revert j i. induction l as [|x l IH]; intros j i.
  - destruct j; simpl; rewrite andb_false_r; reflexivity.
  - destruct j as [|j], i as [|i]; simpl; try reflexivity.
    rewrite IH. reflexivity.
Qed.

(** The loop over the end points [a, a+1, ..., a+k-1] writes the rows
    [a-1 .. a+k-2] and leaves the others as they are. *)
Lemma expanding_apply_loop_spec (func : ExpandingApply.frame_aggregate)
  (df : Expanding.DataFrame) (min_periods : Z) (k : nat) :
  forall (a : nat) (results out : list Expanding.cell),
    length results = length (Expanding.rows df) ->
    (1 <= a)%nat -> (a + k <= length (Expanding.rows df) + 1)%nat ->
    ExpandingApply.expanding_apply_loop func df min_periods (seq a k) results
      = Ok out ->
    length out = length (Expanding.rows df) /\
    forall i : nat,
      nth_error out i
      = if ((a - 1 <=? i) && (i <? a - 1 + k))%nat
           && (min_periods <=? Z.of_nat (i + 1))%Z
        then match func (window df (i + 1)) with
             | Ok v => Some v
             | Raise _ => None
             end
        else nth_error results i.
Proof.
  induction k as [|k IH]; intros a results out Hlen Ha Hak H.
  - cbn [seq ExpandingApply.expanding_apply_loop] in H. apply Ok_inj in H.
    subst out. split; [exact Hlen|]. intros i.
    destruct (Nat.leb_spec (a - 1) i); destruct (Nat.ltb_spec i (a - 1 + 0));
      simpl; try reflexivity; lia.
  - cbn [seq ExpandingApply.expanding_apply_loop] in H.
    cbn [Expanding.rows] in H.
    rewrite length_firstn, Nat.min_l in H by lia.
    destruct (min_periods <=? Z.of_nat a)%Z eqn:Emp.
    + inv_bind H. rename a0 into v.
      destruct (IH (S a) (Expanding.set_nth (a - 1) v results) out) as [Hl Hi];
        [rewrite set_nth_length; exact Hlen | lia | lia | exact H |].
      split; [exact Hl|]. intros i. rewrite Hi, nth_error_set_nth.
      replace (S a - 1)%nat with a by lia.
      destruct (Nat.eqb_spec i (a - 1)) as [->|Hne].
      * replace (a - 1 + 1)%nat with a by lia.
        fold (window df a) in Ha0. rewrite Ha0, Emp.
        destruct (Nat.leb_spec a (a - 1)); [lia|].
        destruct (Nat.leb_spec (a - 1) (a - 1)); [|lia].
        destruct (Nat.ltb_spec (a - 1) (a - 1 + S k)); [|lia].
        destruct (Nat.ltb_spec (a - 1) (length results)); [|lia].
        reflexivity.
      * cbn [andb].
        destruct (Nat.leb_spec a i); destruct (Nat.leb_spec (a - 1) i);
          destruct (Nat.ltb_spec i (a + k)); destruct (Nat.ltb_spec i (a - 1 + S k));
          cbn [andb]; try reflexivity; lia.
    + destruct (IH (S a) results out) as [Hl Hi];
        [exact Hlen | lia | lia | exact H |].
      split; [exact Hl|]. intros i. rewrite Hi.
      replace (S a - 1)%nat with a by lia.
      destruct (Nat.eqb_spec i (a - 1)) as [->|Hne].
      * replace (a - 1 + 1)%nat with a by lia. rewrite Emp.
        rewrite !andb_false_r. reflexivity.
      * destruct (Nat.leb_spec a i); destruct (Nat.leb_spec (a - 1) i);
          destruct (Nat.ltb_spec i (a + k)); destruct (Nat.ltb_spec i (a - 1 + S k));
          cbn [andb]; try reflexivity; lia.
Qed.

(** X11.  The helper [expanding_apply] returns one value per row of the
    frame: row [i] (counted from 0) holds the result of the function on
    the first [i+1] rows when [i+1 >= min_periods], and NaN otherwise. *)
Theorem expanding_apply_rows (func : ExpandingApply.frame_aggregate)
  (df : Expanding.DataFrame) (min_periods : Z) (out : list Expanding.cell) :
  ExpandingApply.expanding_apply func df min_periods = Ok out ->
  length out = length (Expanding.rows df) /\
  forall i : nat, (i < length (Expanding.rows df))%nat ->
    if (min_periods <=? Z.of_nat (i + 1))%Z
    then exists v,
           func (Expanding.mkFrame (Expanding.columns df)
                   (firstn (i + 1) (Expanding.rows df))) = Ok v /\
           nth_error out i = Some v
    else nth_error out i = Some Expanding.NaN.
Proof.
  unfold ExpandingApply.expanding_apply. intros H.
  destruct (expanding_apply_loop_spec func df min_periods
              (length (Expanding.rows df)) 1
              (repeat Expanding.NaN (length (Expanding.rows df))) out)
    as [Hl Hi]; [apply repeat_length | lia | lia | exact H |].
  split; [exact Hl|]. intros i Hlt.
  specialize (Hi i). cbn [Nat.sub] in Hi.
  destruct (Nat.leb_spec 0 i); [|lia].
  destruct (Nat.ltb_spec i (0 + length (Expanding.rows df))); [|lia].
  cbn [andb] in Hi.
  destruct (min_periods <=? Z.of_nat (i + 1))%Z.
  - unfold window in Hi.
    destruct (func _) as [v|e] eqn:E.
    + exists v. split; [reflexivity | exact Hi].
    + exfalso. apply nth_error_None in Hi. lia.
  - rewrite Hi. apply nth_error_repeat. exact Hlt.
Qed.

Lemma expanding_apply_length (func : ExpandingApply.frame_aggregate)
  (df : Expanding.DataFrame) (min_periods : Z) (out : list Expanding.cell) :
  ExpandingApply.expanding_apply func df min_periods = Ok out ->
  length out = length (Expanding.rows df).
Proof.
  unfold ExpandingApply.expanding_apply. intros H.
  apply (expanding_apply_loop_spec func df min_periods
           (length (Expanding.rows df)) 1
           (repeat Expanding.NaN (length (Expanding.rows df))) out);
    [apply repeat_length | lia | lia | exact H].
Qed.

Lemma apply_window_funcs_extends (orig names : list string)
  (min_periods : Z) (window_func : list ExpandingApply.apply_fn) :
  (forall n, In n names -> ~ In n orig) ->
  (forall n, In n (ExpandingApply.new_column_names window_func) -> In n names) ->
  forall g g',
    Expanding.extends_orig orig names g ->
    ExpandingApply.apply_window_funcs min_periods g window_func = Ok g' ->
    Expanding.extends_orig orig names g' /\
    map (Expanding.prefix orig) (Expanding.rows g')
    = map (Expanding.prefix orig) (Expanding.rows g).
Proof.
  intros Hfresh. induction window_func as [|func rest IH]; intros Hn g g' Hext H;
    cbn [ExpandingApply.apply_window_funcs] in H.
  - apply Ok_inj in H. subst. split; [exact Hext | reflexivity].
  - destruct func as [func_name func| |]; try discriminate.
    inv_bind H. rename a into vals.
    pose proof (expanding_apply_length _ _ _ _ Ha) as Hlen.
    destruct (assign_extends orig names Hfresh
                ("expanding_" ++ func_name)%string vals g) as [Hext1 Hp1];
      [apply Hn; left; reflexivity | exact Hlen | exact Hext |].
    destruct (IH (fun n Hin => Hn n (or_intror Hin)) _ _ Hext1 H) as [Hext' Hp'].
    split; [exact Hext' | congruence].
Qed.

(** X12.  A successful call of [augment_expanding_apply] on a frame whose
    labels differ from the assigned ones returns the kept rows, each with
    its index label and its original cells, in ascending order of the
    index label; the original columns stay in place and every other
    column is labelled [expanding_<name>]. *)
Theorem augment_expanding_apply_sorts_kept_rows
  (data : Expanding.Input) (date_column : string)
  (window_func : list ExpandingApply.apply_fn) (min_periods : option Z)
  (out : Expanding.DataFrame) :
  Expanding.well_formed (Expanding.data_copy data) ->
  (forall n, In n (ExpandingApply.new_column_names window_func) ->
             ~ In n (Expanding.columns (Expanding.data_copy data))) ->
  ExpandingApply.augment_expanding_apply data date_column
    (ExpandingApply.Tuples window_func) min_periods = Ok out ->
  Permutation
    (map (fun r => (Expanding.idx r,
                    firstn (length (Expanding.columns (Expanding.data_copy data)))
                           (Expanding.cells r)))
         (Expanding.rows out))
    (map (fun r => (Expanding.idx r, Expanding.cells r)) (kept_rows data)) /\
  Sorted Z.le (map Expanding.idx (Expanding.rows out)) /\
  length (Expanding.rows out) = length (kept_rows data) /\
  firstn (length (Expanding.columns (Expanding.data_copy data)))
         (Expanding.columns out)
  = Expanding.columns (Expanding.data_copy data) /\
  (forall c, In c (Expanding.columns out) ->
             In c (Expanding.columns (Expanding.data_copy data)) \/
             In c (ExpandingApply.new_column_names window_func)).
Proof.
  intros Hwf Hfresh Hrun.
  unfold ExpandingApply.augment_expanding_apply in Hrun.
  inv_bind Hrun. rename a into grouped.
  inv_bind Hrun. rename a into result_dfs.
  inv_bind Hrun. rename a into result_df.
  apply Ok_inj in Hrun. subst out.
  destruct (grouped_frames _ _ _ Ha) as [Hall Hperm].
  set (orig := Expanding.columns (Expanding.data_copy data)) in *.
  set (names := ExpandingApply.new_column_names window_func) in *.
  destruct (group_loop_sorted orig names
              (fun group_df =>
                 ExpandingApply.apply_window_funcs
                   match min_periods with None => 1%Z | Some m => m end
                   group_df window_func))
    with (grouped := grouped) (result_dfs := result_dfs) (result_df := result_df)
    as (Hp & Hs & Hc & Hl).
  - intros g g' Hext Hg.
    eapply (apply_window_funcs_extends orig names); [exact Hfresh | | exact Hext | exact Hg].
    intros n Hn. exact Hn.
  - apply grouped_well_formed; assumption.
  - exact Ha0.
  - exact Ha1.
  - assert (Hperm' : Permutation
      (map (Expanding.prefix orig) (Expanding.rows (Expanding.sort_index result_df)))
      (map (fun r => (Expanding.idx r, Expanding.cells r)) (kept_rows data))).
    { eapply Permutation_trans; [exact Hp|].
      rewrite <- (prefix_of_well_formed (Expanding.data_copy data))
        by (try exact Hwf; apply kept_rows_incl).
      apply Permutation_map. exact Hperm. }
    split; [exact Hperm'|]. split; [exact Hs|]. split; [|split; assumption].
    apply Permutation_length in Hperm'. rewrite !length_map in Hperm'.
    exact Hperm'.
Qed.

(** X13.  [augment_expanding_apply] does not wrap a single
    [(name, func)] tuple in a list: on a DataFrame that holds the date
    column, iterating the tuple meets its name, which is not a tuple, and
    the call raises [TypeError]. *)
Theorem augment_expanding_apply_single_tuple_raises
  (df : Expanding.DataFrame) (date_column func_name : string)
  (func : ExpandingApply.frame_aggregate) (min_periods : option Z) :
  In date_column (Expanding.columns df) ->
  ExpandingApply.augment_expanding_apply (Expanding.Frame df) date_column
    (ExpandingApply.SingleTuple func_name func) min_periods = Raise TypeError.
Proof.
  intros Hdate.
  destruct (positions_exist [date_column] (Expanding.columns df)) as [js Hjs].
  { intros n [<-|[]]. exact Hdate. }
  unfold ExpandingApply.augment_expanding_apply, Expanding.sort_values.
  cbn [Expanding.data_copy]. rewrite Hjs. reflexivity.
Qed.

(** ** [_augment_hilbert_pandas] *)

Lemma set_at_length (i : nat) (v : Q) (h : list Q) :
  length (Hilbert.set_at i v h) = length h.
Proof.
  revert i. induction h as [|x h IH]; intros [|i]; simpl; auto.
Qed.

Lemma set_slice_length (lo hi : nat) (v : Q) (h : list Q) :
  length (Hilbert.set_slice lo hi v h) = length h.
Proof.
  revert lo hi. induction h as [|x h IH]; intros [|lo] [|hi]; simpl; auto.
Qed.

Lemma nth_set_at (i j : nat) (v d : Q) (h : list Q) :
  nth i (Hilbert.set_at j v h) d
  = if (i =? j)%nat && (j <? length h)%nat then v else nth i h d.
Proof.
  revert i j. induction h as [|x h IH]; intros i j.
  - destruct j, i; simpl; rewrite ?andb_false_r; reflexivity.
  - destruct j as [|j], i as [|i]; simpl; try reflexivity.
    rewrite IH. reflexivity.
Qed.

Lemma nth_set_slice (i lo hi : nat) (v d : Q) (h : list Q) :
  nth i (Hilbert.set_slice lo hi v h) d
  = if (lo <=? i)%nat && (i <? hi)%nat && (i <? length h)%nat
    then v else nth i h d.
Proof.
  revert i lo hi. induction h as [|x h IH]; intros i lo hi.
  - destruct i; simpl; rewrite ?andb_false_r; reflexivity.
  - destruct lo as [|lo], hi as [|hi], i as [|i];
      cbn [Hilbert.set_slice nth length]; try rewrite IH;
      try reflexivity.
    destruct (S lo <=? S i)%nat; reflexivity.
Qed.

Lemma nth_repeat_0 (k N : nat) : nth k (repeat 0 N) 0 = 0.
Proof.
  revert k. induction N as [|N IH]; intros [|k]; simpl; auto.
Qed.

(** The multiplier in closed form. *)
Lemma mask_closed (N k : nat) :
  (k < N)%nat ->
  nth k (Hilbert.mask N) 0
  = if (k =? 0)%nat then 1
    else if (2 * k <? N)%nat then 2
    else if (2 * k =? N)%nat then 1
    else 0.
Proof.
  intros Hk. unfold Hilbert.mask.
  destruct (Nat.eqb_spec (N mod 2) 0) as [Heven|Hodd].
  - assert (HN : N = (2 * (N / 2))%nat).
    { pose proof (Nat.div_mod_eq N 2). lia. }
    rewrite nth_set_slice, !nth_set_at, nth_repeat_0.
    rewrite !set_at_length, repeat_length.
    destruct (Nat.eqb_spec k 0) as [->|Hk0].
    + destruct (Nat.eqb_spec 0 (N / 2)); destruct (Nat.ltb_spec 0 N);
        destruct (Nat.ltb_spec (N / 2) N); cbn [andb Nat.leb]; try reflexivity; lia.
    + destruct (Nat.leb_spec 1 k); [|lia].
      destruct (Nat.ltb_spec k (N / 2)); destruct (Nat.ltb_spec k N);
        destruct (Nat.ltb_spec (2 * k) N); destruct (Nat.eqb_spec (2 * k) N);
        destruct (Nat.eqb_spec k (N / 2)); destruct (Nat.ltb_spec (N / 2) N);
        destruct (Nat.ltb_spec 0 N);
        cbn [andb]; try reflexivity; lia.
  - assert (HN : N = (2 * (N / 2) + 1)%nat).
    { pose proof (Nat.div_mod_eq N 2).
      pose proof (Nat.mod_upper_bound N 2). lia. }
    assert (Hh : ((N + 1) / 2 = N / 2 + 1)%nat).
    { rewrite HN at 1.
      replace (2 * (N / 2) + 1 + 1)%nat with ((N / 2 + 1) * 2)%nat by lia.
      apply Nat.div_mul. lia. }
    rewrite nth_set_slice, !nth_set_at, nth_repeat_0.
    rewrite !set_at_length, repeat_length, Hh.
    destruct (Nat.eqb_spec k 0) as [->|Hk0].
    + destruct (Nat.ltb_spec 0 N); cbn [andb Nat.leb]; try reflexivity; lia.
    + destruct (Nat.leb_spec 1 k); [|lia].
      destruct (Nat.ltb_spec k (N / 2 + 1)); destruct (Nat.ltb_spec k N);
        destruct (Nat.ltb_spec (2 * k) N); destruct (Nat.eqb_spec (2 * k) N);
        destruct (Nat.ltb_spec 0 N);
        cbn [andb]; try reflexivity; lia.
Qed.

Lemma mask_length (N : nat) : length (Hilbert.mask N) = N.
Proof.
  unfold Hilbert.mask. destruct (N mod 2 =? 0)%nat;
    rewrite set_slice_length, ?set_at_length, repeat_length; reflexivity.
Qed.

(** X14.  The multiplier [h] built for a signal of [N] points has [N]
    entries; it is 0 at every negative frequency ([k > N/2]), and an
    entry and its mirror image [h[(N - k) mod N]] add up to 2. *)
Theorem hilbert_mask_one_sided (N k : nat) :
  (k < N)%nat ->
  length (Hilbert.mask N) = N /\
  ((N < 2 * k)%nat -> nth k (Hilbert.mask N) 0 = 0) /\
  nth k (Hilbert.mask N) 0 + nth ((N - k) mod N) (Hilbert.mask N) 0 == 2.
Proof.
  intros Hk. split; [apply mask_length|]. split.
  - intros Hneg. rewrite mask_closed by exact Hk.
    destruct (Nat.eqb_spec k 0); [lia|].
    destruct (Nat.ltb_spec (2 * k) N); [lia|].
    destruct (Nat.eqb_spec (2 * k) N); [lia|]. reflexivity.
  - destruct (Nat.eq_dec k 0) as [->|Hk0].
    + rewrite Nat.sub_0_r, Nat.Div0.mod_same.
      rewrite mask_closed by exact Hk. reflexivity.
    + rewrite Nat.mod_small by lia.
      rewrite !mask_closed by lia.
      destruct (Nat.eqb_spec k 0); [lia|].
      destruct (Nat.eqb_spec (N - k) 0); [lia|].
      destruct (Nat.ltb_spec (2 * k) N); destruct (Nat.ltb_spec (2 * (N - k)) N);
        destruct (Nat.eqb_spec (2 * k) N); destruct (Nat.eqb_spec (2 * (N - k)) N);
        try reflexivity; lia.
Qed.

Lemma cell_leb_total (a b : Expanding.cell) :
  Expanding.cell_leb a b = true \/ Expanding.cell_leb b a = true.
Proof.
  destruct a, b; simpl; auto.
  - apply Qle_bool_total.
  - destruct (Z.leb_spec z z0); [left; reflexivity|]. right. apply Z.leb_le. lia.
  - apply String.leb_total.
  - destruct (Z.leb_spec t t0); [left; reflexivity|]. right. apply Z.leb_le. lia.
Qed.

Lemma cell_eqb_leb (a b : Expanding.cell) :
  Expanding.cell_eqb a b = true -> Expanding.cell_leb a b = true.
Proof.
  destruct a, b; simpl; try discriminate.
  - intros H. apply Qeq_bool_iff in H. apply Qle_bool_iff. rewrite H.
    apply Qle_refl.
  - intros H. apply Z.eqb_eq in H. apply Z.leb_le. lia.
  - intros H. apply String.eqb_eq in H. subst.
    destruct (String.leb_total s0 s0); assumption.
  - intros H. apply Z.eqb_eq in H. apply Z.leb_le. lia.
Qed.

Lemma firstn_nth {A : Type} (n j : nat) (l : list A) (d : A) :
  (j < n)%nat -> nth j (firstn n l) d = nth j l d.
Proof.
  revert n j. induction l as [|x l IH]; intros [|n] [|j] H; simpl;
    try reflexivity; try lia.
  apply IH. lia.
Qed.

Lemma Sorted_Forall2_transfer {A B : Type} (R : A -> A -> Prop) (S' : B -> B -> Prop)
  (T : A -> B -> Prop) (l : list A) (l' : list B) :
  (forall a a' b b', T a b -> T a' b' -> R a a' -> S' b b') ->
  Forall2 T l l' -> Sorted R l -> Sorted S' l'.
Proof.
  intros HT HF. induction HF as [|a b l l' Hab HF IH]; intros Hs.
  - constructor.
  - inversion Hs as [|? ? Hs' Hhd]; subst. constructor; [apply IH; exact Hs'|].
    destruct HF as [|a' b' l l' Hab' HF]; constructor.
    inversion Hhd; subst. eapply HT; eassumption.
Qed.

Lemma map_eq_Forall2 {A B : Type} (f : A -> B) (l l' : list A) :
  map f l = map f l' -> Forall2 (fun a b => f a = f b) l l'.
Proof.
  revert l'. induction l as [|a l IH]; intros [|b l'] H; simpl in H;
    try discriminate; constructor.
  - congruence.
  - apply IH. congruence.
Qed.

Section HilbertFrame.

Variable complex : Type.
Variable fft : list Expanding.cell -> result (list complex).
Variable ifft : list complex -> list complex.
Variable scale : Q -> complex -> complex.
Variable real imag : complex -> Expanding.cell.

(** Both transforms return as many points as they receive. *)
Hypothesis fft_length :
forall signal Xf, fft signal = Ok Xf -> length Xf = length signal.
Hypothesis ifft_length :
forall Xf, length (ifft Xf) = length Xf.

Local Abbreviation apply_hilbert :=
(Hilbert.apply_hilbert complex fft ifft scale real imag).
Local Abbreviation _augment_hilbert_pandas :=
(Hilbert._augment_hilbert_pandas complex fft ifft scale real imag).

Lemma apply_hilbert_extends (orig names : list string) (value_column : list string) :
(forall n, In n names -> ~ In n orig) ->
(forall n, In n (Hilbert.new_column_names value_column) -> In n names) ->
forall g g',
  Expanding.extends_orig orig names g ->
  apply_hilbert value_column g = Ok g' ->
  Expanding.extends_orig orig names g' /\
  map (Expanding.prefix orig) (Expanding.rows g')
  = map (Expanding.prefix orig) (Expanding.rows g).
Proof.
intros Hfresh. induction value_column as [|col rest IH]; intros Hn g g' Hext H;
  cbn [Hilbert.apply_hilbert] in H.
- apply Ok_inj in H. subst. split; [exact Hext | reflexivity].
- inv_bind H. rename a into signal. inv_bind H. rename a into Xf.
  pose proof (column_length _ _ _ Ha) as Hsig.
  pose proof (fft_length _ _ Ha0) as HXf.
  assert (Hlen : length (ifft (map2 scale (Hilbert.mask (length signal)) Xf))
                 = length (Expanding.rows g)).
  { rewrite ifft_length, map2_length, mask_length. lia. }
  destruct (assign_extends orig names Hfresh
              (col ++ "_hilbert_real")%string
              (map real (ifft (map2 scale (Hilbert.mask (length signal)) Xf))) g)
    as [Hext1 Hp1];
    [apply Hn; left; reflexivity | rewrite length_map; exact Hlen | exact Hext |].
  destruct (assign_extends orig names Hfresh
              (col ++ "_hilbert_imag")%string
              (map imag (ifft (map2 scale (Hilbert.mask (length signal)) Xf)))
              (Expanding.assign (col ++ "_hilbert_real")%string
                 (map real (ifft (map2 scale (Hilbert.mask (length signal)) Xf))) g))
    as [Hext2 Hp2];
    [apply Hn; right; left; reflexivity | | exact Hext1 |].
  { rewrite length_map, Hlen.
    apply (f_equal (@length _)) in Hp1. rewrite !length_map in Hp1.
    symmetry. exact Hp1. }
  destruct (IH (fun n Hin => Hn n (or_intror (or_intror Hin))) _ _ Hext2 H)
    as [Hext' Hp'].
  split; [exact Hext' | congruence].
Qed.

Lemma renumber_spec (rows : list Expanding.Row) (a : nat) :
map Expanding.idx
    (map2 (fun i r => Expanding.mkRow (Z.of_nat i) (Expanding.cells r))
          (seq a (length rows)) rows)
= map Z.of_nat (seq a (length rows)) /\
map Expanding.cells
    (map2 (fun i r => Expanding.mkRow (Z.of_nat i) (Expanding.cells r))
          (seq a (length rows)) rows)
= map Expanding.cells rows.
Proof.
revert a. induction rows as [|r rows IH]; intros a; simpl.
- split; reflexivity.
- destruct (IH (S a)) as [H1 H2]. rewrite H1, H2. split; reflexivity.
Qed.

(** X15.  A successful call of [_augment_hilbert_pandas] on a DataFrame
  whose labels differ from the assigned ones returns as many rows as it
  received, relabelled 0, 1, 2, ...; their cells under the original
  columns are the rows of the input in ascending order of the date
  column, and every further column is labelled [<col>_hilbert_real] or
  [<col>_hilbert_imag]. *)
Theorem hilbert_sorts_and_renumbers
(data : Expanding.DataFrame) (date_column : string)
(value_column : list string) (out : Expanding.DataFrame) :
Expanding.well_formed data ->
(forall n, In n (Hilbert.new_column_names value_column) ->
           ~ In n (Expanding.columns data)) ->
_augment_hilbert_pandas data date_column (Hilbert.Names value_column) = Ok out ->
map Expanding.idx (Expanding.rows out)
= map Z.of_nat (seq 0 (length (Expanding.rows data))) /\
Permutation
  (map (fun r => firstn (length (Expanding.columns data)) (Expanding.cells r))
       (Expanding.rows out))
  (map Expanding.cells (Expanding.rows data)) /\
(forall j, Expanding.position date_column (Expanding.columns data) = Some j ->
   Sorted (fun a b => Expanding.cell_leb (Expanding.get j a) (Expanding.get j b)
                      = true)
          (Expanding.rows out)) /\
firstn (length (Expanding.columns data)) (Expanding.columns out)
= Expanding.columns data /\
(forall c, In c (Expanding.columns out) ->
           In c (Expanding.columns data) \/
           In c (Hilbert.new_column_names value_column)).
Proof.
intros Hwf Hfresh Hrun.
unfold Hilbert._augment_hilbert_pandas in Hrun.
destruct (existsb _ value_column); [discriminate|].
inv_bind Hrun. rename a into sorted.
inv_bind Hrun. rename a into frames.
set (orig := Expanding.columns data) in *.
set (names := Hilbert.new_column_names value_column) in *.
destruct (sort_values_inv _ _ _ Ha) as [Hcols Hperm].
fold orig in Hcols.
assert (Hwfs : Expanding.well_formed sorted).
{ unfold Expanding.well_formed in *. rewrite Hcols.
  eapply Forall_perm; [exact Hperm | exact Hwf]. }
(* the sorted frame is sorted on the date column *)
assert (Hsorted : forall j,
  Expanding.position date_column orig = Some j ->
  Sorted (fun a b => Expanding.cell_leb (Expanding.get j a) (Expanding.get j b)
                     = true)
         (Expanding.rows sorted)).
{ intros j Hj. unfold Expanding.sort_values in Ha.
  cbn [Expanding.positions] in Ha. fold orig in Ha. rewrite Hj in Ha.
  cbn [bind] in Ha. apply Ok_inj in Ha. subst sorted. cbn [Expanding.rows].
  eapply Sorted_weaken; [|apply isort_sorted].
  - intros a b. cbn [Expanding.key map Expanding.key_leb].
    destruct (Expanding.cell_eqb _ _) eqn:E; [|auto].
    intros _. apply cell_eqb_leb. exact E.
  - intros a b. cbn [Expanding.key map Expanding.key_leb].
    rewrite (cell_eqb_sym (Expanding.get j b)).
    destruct (Expanding.cell_eqb _ _); [left; reflexivity|].
    apply cell_leb_total. }
destruct (Expanding.rows sorted) as [|r0 rs] eqn:Erows.
- (* no row: nothing to concatenate *)
  cbn [Expanding.mapM] in Ha0. apply Ok_inj in Ha0. subst frames.
  discriminate.
- cbn [Expanding.mapM] in Ha0. inv_bind Ha0. rename a into g'.
  cbn [bind] in Ha0. apply Ok_inj in Ha0. subst frames.
  destruct (apply_hilbert_extends orig names value_column Hfresh
              (fun n H => H) sorted g') as [Hext Hp].
  { split; [|split].
    - rewrite Hcols. apply firstn_all.
    - exact Hwfs.
    - intros c Hc. left. rewrite <- Hcols. exact Hc. }
  { exact Ha1. }
  unfold Hilbert.concat_ignore_index in Hrun. apply Ok_inj in Hrun.
  subst out. cbn [Expanding.rows Expanding.columns flat_map].
  rewrite app_nil_r.
  destruct (renumber_spec (Expanding.rows g') 0) as [Hidx Hcells].
  assert (Hlen : length (Expanding.rows g') = length (Expanding.rows data)).
  { pose proof (f_equal (@length _) Hp) as Hl. rewrite !length_map in Hl.
    rewrite Hl, Erows. symmetry. apply Permutation_length. exact Hperm. }
  assert (Hpre : map (fun r => firstn (length orig) (Expanding.cells r))
                     (Expanding.rows g')
                 = map Expanding.cells (Expanding.rows sorted)).
  { transitivity (map snd (map (Expanding.prefix orig) (Expanding.rows g'))).
    { rewrite map_map. reflexivity. }
    rewrite Hp, map_map.
    apply map_ext_in. intros r Hr. unfold Expanding.prefix. cbn [snd].
    unfold Expanding.well_formed in Hwfs. rewrite Forall_forall in Hwfs.
    rewrite <- Hcols, <- (Hwfs r Hr). apply firstn_all. }
  split; [rewrite Hidx, Hlen; reflexivity|].
  split; [|split; [|split]].
  + rewrite <- (map_map Expanding.cells (firstn (length orig))).
    rewrite Hcells, map_map, Hpre.
    apply Permutation_map. apply Permutation_sym. rewrite Erows. exact Hperm.
  + intros j Hj. specialize (Hsorted j Hj).
    pose proof (position_lt _ _ _ Hj) as Hjlt.
    eapply Sorted_Forall2_transfer with
      (T := fun (a b : Expanding.Row) =>
              firstn (length orig) (Expanding.cells b) = Expanding.cells a);
      [| |exact Hsorted].
    * intros a a' b b' Hab Hab' Hle. unfold Expanding.get in *.
      rewrite <- (firstn_nth (length orig) j (Expanding.cells b)) by exact Hjlt.
      rewrite <- (firstn_nth (length orig) j (Expanding.cells b')) by exact Hjlt.
      rewrite Hab, Hab'. exact Hle.
    * apply (f_equal (map (firstn (length orig)))) in Hcells.
      rewrite !map_map in Hcells. rewrite <- Hcells, Erows in Hpre.
      clear - Hpre.
      revert Hpre.
      generalize (map2 (fun i r => Expanding.mkRow (Z.of_nat i) (Expanding.cells r))
                       (seq 0 (length (Expanding.rows g'))) (Expanding.rows g')).
      generalize (r0 :: rs).
      intros l l'. revert l. induction l' as [|b l' IH]; intros [|a l] H;
        simpl in H; try discriminate; constructor.
      -- congruence.
      -- apply IH. congruence.
  + destruct Hext as (Hc & _ & _). exact Hc.
  + destruct Hext as (_ & _ & Hin). exact Hin.
Qed.

(** X16.  [_augment_hilbert_pandas] raises [ValueError] on a DataFrame
  without rows that holds the date column and the value columns: the
  dummy grouping yields no group and [pd.concat] has nothing to
  concatenate. *)
Theorem hilbert_empty_frame_raises
(data : Expanding.DataFrame) (date_column : string)
(value_column : list string) :
Expanding.rows data = [] ->
In date_column (Expanding.columns data) ->
(forall c, In c value_column -> In c (Expanding.columns data)) ->
_augment_hilbert_pandas data date_column (Hilbert.Names value_column)
= Raise ValueError.
Proof.
intros Hrows Hdate Hcols.
unfold Hilbert._augment_hilbert_pandas.
assert (E : existsb (fun col => negb (Labels.mem col (Expanding.columns data)))
                    value_column = false).
{ apply not_true_is_false. intros H. apply existsb_exists in H.
  destruct H as (c & Hc & Hm). apply negb_true_iff in Hm.
  specialize (Hcols c Hc). revert Hm Hcols.
  generalize (Expanding.columns data). intros l.
  induction l as [|x l IH]; simpl; [tauto|].
  destruct (String.eqb_spec c x) as [->|Hne]; [discriminate|].
  intros Hm [Hx|Hin]; [congruence|]. apply IH; assumption. }
rewrite E.
destruct (positions_exist [date_column] (Expanding.columns data)) as [js Hjs].
{ intros n [<-|[]]. exact Hdate. }
unfold Expanding.sort_values. rewrite Hjs. cbn [bind Expanding.rows].
rewrite Hrows. reflexivity.
Qed.

End HilbertFrame.

(** ** Worked examples *)

Lemma anomalize_shape_witness :
  exists f,
    Anomalize._anomalize (fun _ => 1%positive) (fun _ => 1%Z) Examples.spike
      (Some 1%positive) (Some 5%Z) "twitter" "additive" "min_max"
      (5 # 100) (3 # 4) (1 # 5) = Ok f /\
    Anomalize.date f = map fst Examples.spike /\
    Anomalize.observed f = map snd Examples.spike /\
    length (Anomalize.seasonal f) = length Examples.spike /\
    length (Anomalize.seasadj f) = length Examples.spike /\
    length (Anomalize.trend f) = length Examples.spike /\
    length (Anomalize.remainder f) = length Examples.spike /\
    length (Anomalize.anomaly f) = length Examples.spike /\
    length (Anomalize.anomaly_score f) = length Examples.spike /\
    length (Anomalize.anomaly_direction f) = length Examples.spike /\
    length (Anomalize.recomposed_l1 f) = length Examples.spike /\
    length (Anomalize.recomposed_l2 f) = length Examples.spike /\
    length (Anomalize.observed_clean f) = length Examples.spike.
Proof.
  eexists. split.
  - vm_compute. reflexivity.
  - apply (anomalize_shape (fun _ => 1%positive) (fun _ => 1%Z) Examples.spike
             (Some 1%positive) (Some 5%Z) "twitter" "additive" "min_max"
             (5 # 100) (3 # 4) (1 # 5)).
    vm_compute. reflexivity.
Defined.

Lemma anomaly_flag_matches_direction_witness :
  exists f,
    Anomalize._anomalize (fun _ => 1%positive) (fun _ => 1%Z) Examples.spike
      (Some 1%positive) (Some 5%Z) "twitter" "additive" "min_max"
      (5 # 100) (3 # 4) (1 # 5) = Ok f /\
    exists (a : string) (d : Z) (s : Q),
      nth_error (Anomalize.anomaly f) 2 = Some a /\
      nth_error (Anomalize.anomaly_direction f) 2 = Some d /\
      nth_error (Anomalize.anomaly_score f) 2 = Some s /\
      (a = "Yes"%string \/ a = "No"%string) /\
      (d = (-1)%Z \/ d = 0%Z \/ d = 1%Z) /\
      (a = "Yes"%string <-> d <> 0%Z) /\
      0 <= s.
Proof.
  eexists. split.
  - vm_compute. reflexivity.
  - apply (anomaly_flag_matches_direction (fun _ => 1%positive) (fun _ => 1%Z)
             Examples.spike (Some 1%positive) (Some 5%Z) "twitter" "additive"
             "min_max" (5 # 100) (3 # 4) (1 # 5)).
    + vm_compute. reflexivity.
    + simpl. lia.
Defined.

Lemma cleaning_keeps_normal_rows_witness :
  exists f,
    Anomalize._anomalize (fun _ => 1%positive) (fun _ => 1%Z) Examples.spike
      (Some 1%positive) (Some 5%Z) "twitter" "additive" "min_max"
      (5 # 100) (3 # 4) (1 # 5) = Ok f /\
    nth_error (Anomalize.anomaly f) 1 = Some "No"%string /\
    nth_error (Anomalize.observed f) 1 = Some 0 /\
    exists v, nth_error (Anomalize.observed_clean f) 1 = Some (Some v) /\
              v == 0.
Proof.
  eexists. split; [vm_compute; reflexivity|].
  split; [reflexivity|]. split; [reflexivity|].
  apply (cleaning_keeps_normal_rows (fun _ => 1%positive) (fun _ => 1%Z)
           Examples.spike (Some 1%positive) (Some 5%Z) "twitter" "additive"
           "min_max" (5 # 100) (3 # 4) (1 # 5)).
  - vm_compute. reflexivity.
  - reflexivity.
  - reflexivity.
Defined.

Lemma linear_cleaning_fills_within_range_witness :
  exists f,
    Anomalize._anomalize (fun _ => 1%positive) (fun _ => 1%Z) Examples.spike
      (Some 1%positive) (Some 5%Z) "twitter" "additive" "linear"
      (5 # 100) (3 # 4) (1 # 5) = Ok f /\
    nth_error (Anomalize.anomaly f) 2 = Some "Yes"%string /\
    nth_error (Anomalize.observed f) 2 = Some (100 # 1) /\
    exists v, nth_error (Anomalize.observed_clean f) 2 = Some (Some v) /\
              0 <= v /\ v <= 0.
Proof.
  eexists. split; [vm_compute; reflexivity|].
  split; [reflexivity|]. split; [reflexivity|].
  apply (linear_cleaning_fills_within_range (fun _ => 1%positive) (fun _ => 1%Z)
           Examples.spike (Some 1%positive) (Some 5%Z) "twitter" "additive"
           (5 # 100) (3 # 4) (1 # 5)).
  - vm_compute. reflexivity.
  - exists 0%nat. reflexivity.
  - intros j obs.
    do 5 (destruct j as [|j];
          [cbn [nth_error Anomalize.anomaly Anomalize.observed];
           intros Hflag Hobs; try discriminate Hflag;
           injection Hobs as <-; split; discriminate|]).
    destruct j; discriminate.
  - simpl. lia.
Defined.

Lemma lower_alpha_flags_fewer_witness :
  exists out out',
    Anomalize._iqr [0; 0; 100 # 1; 0; 0] (1 # 2) (1 # 5) = Ok out /\
    Anomalize._iqr [0; 0; 100 # 1; 0; 0] (5 # 100) (1 # 5) = Ok out' /\
    (forall l1' l1, nth_error (Anomalize.remainder_l1 out') 2 = Some l1' ->
                    nth_error (Anomalize.remainder_l1 out) 2 = Some l1 ->
                    l1' <= l1) /\
    (forall l2' l2, nth_error (Anomalize.remainder_l2 out') 2 = Some l2' ->
                    nth_error (Anomalize.remainder_l2 out) 2 = Some l2 ->
                    l2 <= l2') /\
    (nth_error (Anomalize.outlier_reported out') 2 = Some "Yes"%string ->
     nth_error (Anomalize.outlier_reported out) 2 = Some "Yes"%string).
Proof.
  eexists. eexists.
  split; [vm_compute; reflexivity|]. split; [vm_compute; reflexivity|].
  apply (lower_alpha_flags_fewer [0; 0; 100 # 1; 0; 0] (1 # 2) (5 # 100) (1 # 5)).
  - reflexivity.
  - discriminate.
  - vm_compute. reflexivity.
  - vm_compute. reflexivity.
Defined.

Lemma twitter_trend_out_of_range_raises_witness :
  Anomalize._anomalize (fun _ => 1%positive) (fun _ => 1%Z) Examples.spike
    (Some 1%positive) (Some 10%Z) "twitter" "additive" "min_max"
    (5 # 100) (3 # 4) (1 # 5) = Raise ZeroDivisionError.
Proof.
  apply (twitter_trend_out_of_range_raises (fun _ => 1%positive) (fun _ => 1%Z)
           Examples.spike 1%positive 10%Z "additive" "min_max"
           (5 # 100) (3 # 4) (1 # 5)).
  - reflexivity.
  - simpl. lia.
  - right. simpl. lia.
Defined.

Lemma twitter_remainder_centred_witness :
  exists fr,
    Anomalize._twitter_decompose [1; 2; 3; 4; 5]%Z [1; 2; 4; 8; 16 # 1]
      1%positive (Some 2%Z) "additive" = Ok fr /\
    exists labels : list nat,
      Anomalize.median_index 2 5 = Ok labels /\
      forall k : nat, In k labels ->
        Pd.median (Pd.group_values labels (Anomalize.d_remainder fr) k) == 0.
Proof.
  eexists. split; [vm_compute; reflexivity|].
  apply (twitter_remainder_centred [1; 2; 3; 4; 5]%Z [1; 2; 4; 8; 16 # 1]
           1%positive 2%Z "additive").
  vm_compute. reflexivity.
Defined.

Lemma timestamp_label_clash_witness :
  Anomalize.anomalize_columns None ["trend"; "Weekly_Sales"]%string "trend" false
  = Raise ValueError.
Proof.
  apply (proj1 (timestamp_label_clash ["trend"; "Weekly_Sales"]%string
                  "trend"%string false)).
  simpl. auto.
Defined.

Lemma augment_expanding_sorts_kept_rows_witness :
  exists out,
    Expanding._augment_expanding_pandas Expanding.pandas_methods
      (Expanding.GroupBy Examples.sales ["id"%string])
      "date" ["value"%string] [Expanding.FuncStr "sum"] 1 = Ok out /\
    Permutation
      (map (fun r => (Expanding.idx r, firstn 3 (Expanding.cells r)))
           (Expanding.rows out))
      (map (fun r => (Expanding.idx r, Expanding.cells r))
           (Expanding.rows Examples.sales)) /\
    Sorted Z.le (map Expanding.idx (Expanding.rows out)) /\
    length (Expanding.rows out) = 4%nat /\
    firstn 3 (Expanding.columns out) = ["id"; "date"; "value"]%string /\
    (forall c, In c (Expanding.columns out) ->
               In c ["id"; "date"; "value"]%string \/
               In c ["value_expanding_sum"]%string).
Proof.
  eexists. split; [vm_compute; reflexivity|].
  apply (augment_expanding_sorts_kept_rows Expanding.pandas_methods
           (Expanding.GroupBy Examples.sales ["id"%string])
           "date"%string ["value"%string] [Expanding.FuncStr "sum"] 1%nat).
  - repeat constructor.
  - intros n Hn. simpl in Hn.
    destruct Hn as [<-|[]]; simpl; intros [H|[H|[H|[]]]]; discriminate H.
  - vm_compute. reflexivity.
Defined.

Lemma augment_expanding_empty_groups_raise_witness :
  Expanding._augment_expanding_pandas Expanding.pandas_methods
    (Expanding.GroupBy (Expanding.mkFrame ["id"; "date"; "value"]%string [])
                       ["id"%string])
    "date" ["value"%string] [Expanding.FuncStr "sum"] 1 = Raise ValueError.
Proof.
  apply (augment_expanding_empty_groups_raise Expanding.pandas_methods
           ["id"; "date"; "value"]%string ["id"%string] "date"%string
           ["value"%string] [Expanding.FuncStr "sum"] 1%nat).
  intros n Hn. simpl in Hn. simpl.
  destruct Hn as [<-|[<-|[]]]; auto.
Defined.

Lemma expanding_apply_rows_witness :
  exists out,
    ExpandingApply.expanding_apply Examples.count_rows Examples.sales 2 = Ok out /\
    length out = 4%nat /\
    nth_error out 0 = Some Expanding.NaN /\
    exists v,
      Examples.count_rows
        (Expanding.mkFrame (Expanding.columns Examples.sales)
           (firstn 3 (Expanding.rows Examples.sales))) = Ok v /\
      nth_error out 2 = Some v.
Proof.
  eexists. split; [vm_compute; reflexivity|].
  destruct (expanding_apply_rows Examples.count_rows Examples.sales 2
              [Expanding.NaN; Expanding.Int 2; Expanding.Int 3; Expanding.Int 4])
    as [Hlen Hrow].
  - vm_compute. reflexivity.
  - split; [exact Hlen|]. split.
    + apply (Hrow 0%nat). simpl. lia.
    + apply (Hrow 2%nat). simpl. lia.
Defined.

Lemma augment_expanding_apply_sorts_kept_rows_witness :
  exists out,
    ExpandingApply.augment_expanding_apply
      (Expanding.GroupBy Examples.sales ["id"%string]) "date"
      (ExpandingApply.Tuples [ExpandingApply.ApplyTuple "n" Examples.count_rows])
      None = Ok out /\
    Permutation
      (map (fun r => (Expanding.idx r, firstn 3 (Expanding.cells r)))
           (Expanding.rows out))
      (map (fun r => (Expanding.idx r, Expanding.cells r))
           (Expanding.rows Examples.sales)) /\
    Sorted Z.le (map Expanding.idx (Expanding.rows out)) /\
    length (Expanding.rows out) = 4%nat /\
    firstn 3 (Expanding.columns out) = ["id"; "date"; "value"]%string /\
    (forall c, In c (Expanding.columns out) ->
               In c ["id"; "date"; "value"]%string \/
               In c ["expanding_n"]%string).
Proof.
  eexists. split; [vm_compute; reflexivity|].
  apply (augment_expanding_apply_sorts_kept_rows
           (Expanding.GroupBy Examples.sales ["id"%string]) "date"%string
           [ExpandingApply.ApplyTuple "n" Examples.count_rows] None).
  - repeat constructor.
  - intros n Hn. simpl in Hn.
    destruct Hn as [<-|[]]; simpl; intros [H|[H|[H|[]]]]; discriminate H.
  - vm_compute. reflexivity.
Defined.

Lemma augment_expanding_apply_single_tuple_raises_witness :
  ExpandingApply.augment_expanding_apply (Expanding.Frame Examples.sales) "date"
    (ExpandingApply.SingleTuple "n" Examples.count_rows) None = Raise TypeError.
Proof.
  apply (augment_expanding_apply_single_tuple_raises Examples.sales
           "date"%string "n"%string Examples.count_rows None).
  simpl. auto.
Defined.

Lemma hilbert_mask_one_sided_witness :
  length (Hilbert.mask 6) = 6%nat /\
  ((6 < 2 * 4)%nat -> nth 4 (Hilbert.mask 6) 0 = 0) /\
  nth 4 (Hilbert.mask 6) 0 + nth ((6 - 4) mod 6) (Hilbert.mask 6) 0 == 2.
Proof.
  apply (hilbert_mask_one_sided 6 4). lia.
Defined.

Lemma examples_fft_length (signal : list Expanding.cell) (Xf : list (Q * Q)) :
  Examples.fft signal = Ok Xf -> length Xf = length signal.
Proof.
  unfold Examples.fft. intros H. inv_bind H. rename a into values.
  apply mapM_length in Ha. rewrite <- Ha.
  destruct values as [|x [|y [|z values]]]; try discriminate;
    apply Ok_inj in H; subst Xf; reflexivity.
Qed.

Lemma examples_ifft_length (Xf : list (Q * Q)) :
  length (Examples.ifft Xf) = length Xf.
Proof.
  destruct Xf as [|[a b] [|[c d] [|z Xf]]]; reflexivity.
Qed.

Lemma hilbert_sorts_and_renumbers_witness :
  exists out,
    Hilbert._augment_hilbert_pandas (Q * Q) Examples.fft Examples.ifft
      Examples.scale Examples.real Examples.imag Examples.signal "date"
      (Hilbert.Names ["value"%string]) = Ok out /\
    map Expanding.idx (Expanding.rows out) = map Z.of_nat (seq 0 2) /\
    Permutation
      (map (fun r => firstn 2 (Expanding.cells r)) (Expanding.rows out))
      (map Expanding.cells (Expanding.rows Examples.signal)) /\
    (forall j, Expanding.position "date" ["date"; "value"]%string = Some j ->
       Sorted (fun a b => Expanding.cell_leb (Expanding.get j a) (Expanding.get j b)
                          = true)
              (Expanding.rows out)) /\
    firstn 2 (Expanding.columns out) = ["date"; "value"]%string /\
    (forall c, In c (Expanding.columns out) ->
               In c ["date"; "value"]%string \/
               In c ["value_hilbert_real"; "value_hilbert_imag"]%string).
Proof.
  eexists. split; [vm_compute; reflexivity|].
  apply (hilbert_sorts_and_renumbers (Q * Q) Examples.fft Examples.ifft
           Examples.scale Examples.real Examples.imag
           examples_fft_length examples_ifft_length
           Examples.signal "date"%string ["value"%string]).
  - repeat constructor.
  - intros n Hn. simpl in Hn.
    destruct Hn as [<-|[<-|[]]]; simpl; intros [H|[H|[]]]; discriminate H.
  - vm_compute. reflexivity.
Defined.

Lemma hilbert_empty_frame_raises_witness :
  Hilbert._augment_hilbert_pandas (Q * Q) Examples.fft Examples.ifft
    Examples.scale Examples.real Examples.imag
    (Expanding.mkFrame ["date"; "value"]%string []) "date"
    (Hilbert.Names ["value"%string]) = Raise ValueError.
Proof.
  apply (hilbert_empty_frame_raises (Q * Q) Examples.fft Examples.ifft
           Examples.scale Examples.real Examples.imag
           (Expanding.mkFrame ["date"; "value"]%string []) "date"%string
           ["value"%string]).
  - reflexivity.
  - simpl. auto.
  - intros c Hc. simpl in Hc. simpl. destruct Hc as [<-|[]]. auto.
Defined.
